(** * Sidechain cognitive memory: selection and learning core

    A shallow embedding of [src/cognitive/memory] (tokenizer, BM25 scorer,
    signal calculators, rating store, diversity selector, selector and
    learning loop) together with the properties of section 8 of the
    specification.

    Conventions of the embedding.
    - A JavaScript [number] that holds a measurement (score, mean, deviation,
      weight) is a mathematical real: rounding, NaN and the infinities of
      IEEE doubles are outside the model.  A [number] that holds a count or
      an instant (array length, document frequency, [uses], [limit], epoch
      milliseconds) is a [nat] or a [Z].
    - A JavaScript string is its sequence of UTF-16 code units.
    - Arrays and fields that the TypeScript declarations make mandatory are
      present; the guards against [null] or [undefined] arrays are not
      modelled.
    - [Math.random()], [Date.now()] and [crypto.randomUUID()] are explicit
      inputs of the functions that call them.
    - [String.prototype.toLowerCase] is a parameter of the development. *)

From Stdlib Require Import Reals Lra Lia ZArith List String Ascii Permutation Sorted.
From stdpp Require Import gmap.
Import ListNotations.

(* ===================================================================== *)
(** ** JavaScript strings, arrays and maps *)
(* ===================================================================== *)

Module JS.

(** A string is a list of UTF-16 code units. *)
Abbreviation jsstring := (list N).

(** The code units of an ASCII literal. *)
Definition lit (s : string) : jsstring :=
  List.map N_of_ascii (list_ascii_of_string s).

(** [parts.join(sep)] *)
Fixpoint join (sep : jsstring) (parts : list jsstring) : jsstring :=
  match parts with
  | [] => []
  | [p] => p
  | p :: rest => p ++ sep ++ join sep rest
  end.

(** [arr.slice(-n)]: the last [n] elements, the whole array when it is
    shorter. *)
Definition slice_last {A} (n : nat) (l : list A) : list A :=
  skipn (length l - n) l.

(** [arr.splice(idx, 1)] seen from the array: the element at [idx] is
    removed, nothing happens when [idx] is out of range. *)
Fixpoint remove_at {A} (idx : nat) (l : list A) : list A :=
  match l, idx with
  | [], _ => []
  | _ :: t, O => t
  | h :: t, S i => h :: remove_at i t
  end.

(** [[...new Set(l)]]: duplicates dropped, first occurrences kept in their
    order; [seen] holds the elements met so far. *)
Fixpoint uniqFrom (seen : list jsstring) (l : list jsstring) : list jsstring :=
  match l with
  | [] => []
  | x :: t =>
      if bool_decide (x ∈ seen) then uniqFrom seen t
      else x :: uniqFrom (x :: seen) t
  end.

Definition uniq (l : list jsstring) : list jsstring := uniqFrom [] l.

(** A [Map<string, V>]: entries in insertion order, one per key. *)
Abbreviation JSMap V := (list (jsstring * V)).

(** [m.get(k)] *)
Fixpoint mapGet {V} (k : jsstring) (m : JSMap V) : option V :=
  match m with
  | [] => None
  | (k', v) :: t => if bool_decide (k = k') then Some v else mapGet k t
  end.

(** [m.set(k, v)]: an existing key keeps its position. *)
Fixpoint mapSet {V} (k : jsstring) (v : V) (m : JSMap V) : JSMap V :=
  match m with
  | [] => [(k, v)]
  | (k', v') :: t =>
      if bool_decide (k = k') then (k, v) :: t else (k', v') :: mapSet k v t
  end.

(** [Array.from(m.values())] *)
Definition mapValues {V} (m : JSMap V) : list V := List.map snd m.

End JS.
Import JS.

(* ===================================================================== *)
(** ** Records ([src/cognitive/memory/types.ts]) *)
(* ===================================================================== *)

Module Types.

(** [reward: -1 | 0 | 1] *)
Inductive Reward := Negative | Neutral | Positive.

Definition rewardValue (r : Reward) : R :=
  match r with Negative => (-1)%R | Neutral => 0%R | Positive => 1%R end.

Record MemoryRating := mkRating {
  memoryId : jsstring;
  kernelId : jsstring;
  mu : R;
  sigma : R;
  uses : Z;
  lastUpdatedAt : Z
}.

Record MemoryInteraction := mkInteraction {
  i_id : jsstring;
  i_memoryId : jsstring;
  i_kernelId : jsstring;
  i_contextId : jsstring;
  i_reward : Reward;
  i_timestamp : Z
}.

(** [timestamp] holds the instant [new Date(timestamp).getTime()] of a
    well-formed date string, in milliseconds. *)
Record MemoryChunk := mkChunk {
  id : jsstring;
  content : jsstring;
  tags : list jsstring;
  importance : R;
  timestamp : Z;
  associations : option (list jsstring);
  episodeId : option jsstring
}.

Record Signals := mkSignals {
  s_importance : R;
  s_tagRelevance : R;
  s_lexicalScore : R;
  s_recency : R;
  s_centrality : R;
  s_thompson : R
}.

Record SelectedMemory := mkSelected {
  sel_memoryId : jsstring;
  sel_content : jsstring;
  sel_tags : list jsstring;
  sel_score : R;
  sel_signals : Signals
}.

(** One value returned by [Math.random()]: a number in [0,1). *)
Record Draw := mkDraw {
  draw : R;
  draw_range : (0 <= draw < 1)%R
}.

End Types.
Import Types.

(* ===================================================================== *)
(** ** Rating keys ([./utils], imported by the selector and the learning loop) *)
(* ===================================================================== *)

Module Utils.

(** Modelled from the spec: [makeRatingKey], whose module [./utils] is not
    among the sources.  Section 4.7 of the specification gives the key as
    [`${memoryId}::${kernelId}`]. *)
Definition makeRatingKey (memoryId kernelId : jsstring) : jsstring :=
  memoryId ++ lit "::" ++ kernelId.

End Utils.
Import Utils.

(* ===================================================================== *)
(** ** Tokenizer ([src/unnamed/part_002], imported as [./tokenizer]) *)
(* ===================================================================== *)

Module Tokenizer.

Definition STOP_WORDS : gset jsstring :=
  list_to_set (List.map lit
    ["the"; "a"; "an"; "and"; "or"; "but"; "of"; "to"; "in"; "on"; "for";
     "with"; "is"; "it"; "as"; "at"; "by"; "be"; "are"; "was"; "were";
     "this"; "that"; "from"; "we"; "you"; "they"; "i"; "me"; "my"; "your"]%string).

(** The character class of the [replace] call; code unit 34 is the double
    quote. *)
Definition PUNCTUATION : list N :=
  lit "`~!@#$%^&*()-_=+[]{};:'" ++ [34%N] ++ lit ",.<>/?\|".

Definition isPunct (c : N) : bool := existsb (N.eqb c) PUNCTUATION.

(** The class [\s] of a JavaScript regular expression: white space and line
    terminators. *)
Definition isSpace (c : N) : bool :=
  match c with
  | 9 | 10 | 11 | 12 | 13 | 32 | 160 | 5760
  | 8232 | 8233 | 8239 | 8287 | 12288 | 65279 => true
  | _ => (8192 <=? c)%N && (c <=? 8202)%N
  end%N.

Definition SPACE : N := 32%N.

(** [.replace(/[...]/g, ' ')] *)
Definition replacePunct (s : jsstring) : jsstring :=
  List.map (fun c => if isPunct c then SPACE else c) s.

(** [.split(/\s+/)]: the pieces between maximal runs of white space; a
    leading or trailing run leaves an empty piece, and the empty string
    splits into one empty piece. *)
Fixpoint splitSpaces (s : jsstring) : list jsstring :=
  match s with
  | [] => [[]]
  | c :: rest =>
      if isSpace c then
        match rest with
        | c' :: _ => if isSpace c' then splitSpaces rest else [] :: splitSpaces rest
        | [] => [] :: splitSpaces rest
        end
      else
        match splitSpaces rest with
        | p :: ps => (c :: p) :: ps
        | [] => [[c]]
        end
  end.

(** The predicate of the [filter] call:
    [t && !STOP_WORDS.has(t) && t.length >= 2]. *)
Definition keepToken (t : jsstring) : bool :=
  match t with [] => false | _ => true end
  && negb (bool_decide (t ∈ STOP_WORDS))
  && (2 <=? length t)%nat.

Section WithLowerCase.
Variable toLowerCase : jsstring -> jsstring.

(** [tokenize(text)] *)
Definition tokenize (text : jsstring) : list jsstring :=
  List.filter keepToken (splitSpaces (replacePunct (toLowerCase text))).

(** [shingles(tokens, n)]: the windows [tokens.slice(i, i + n)] for every
    [i] with [i + n <= tokens.length], joined by a space, as a set. *)
Definition shingles (tokens : list jsstring) (n : nat) : gset jsstring :=
  list_to_set
    (List.map (fun i => join [SPACE] (firstn n (skipn i tokens)))
              (seq 0 (length tokens + 1 - n))).

(** [jaccardSimilarity(textA, textB)] *)
Definition jaccardSimilarity (textA textB : jsstring) : R :=
  let shinglesA := shingles (tokenize textA) 3 in
  let shinglesB := shingles (tokenize textB) 3 in
  let intersection := size (filter (fun x => x ∈ shinglesB) shinglesA) in
  let union := (INR (size shinglesA) + INR (size shinglesB) - INR intersection)%R in
  if Rlt_dec 0 union then (INR intersection / union)%R else 0%R.

End WithLowerCase.

(** Lower-casing of the letters A-Z: [toLowerCase] on ASCII text. *)
Definition asciiLower (s : jsstring) : jsstring :=
  List.map (fun c => if (65 <=? c)%N && (c <=? 90)%N then (c + 32)%N else c) s.

End Tokenizer.

(* ===================================================================== *)
(** ** Lexical scorer ([src/cognitive/memory/bm25.ts]) *)
(* ===================================================================== *)

Module BM25.
Import Tokenizer.
Local Open Scope R_scope.

Definition BM25_K1 : R := 1.2.
Definition BM25_B : R := 0.75.

(** The term-frequency map built by the first loop of [calculateBM25]. *)
Definition termFrequencies (documentTokens : list jsstring) : gmap jsstring nat :=
  fold_left (fun tf token => <[token := (default 0 (tf !! token) + 1)%nat]> tf)
            documentTokens ∅.

(** The body of the loop over the unique query terms. *)
Definition termScore (tf documentFrequencies : gmap jsstring nat)
    (totalDocuments docLength : nat) (avgDocLength : R)
    (score : R) (term : jsstring) : R :=
  let termFreq := default 0%nat (tf !! term) in
  if (termFreq =? 0)%nat then score else
  let df := default 0%nat (documentFrequencies !! term) in
  if (df =? 0)%nat then score else
  let idf := ln ((INR totalDocuments - INR df + 0.5) / (INR df + 0.5) + 1) in
  let numerator := INR termFreq * (BM25_K1 + 1) in
  let denominator :=
    INR termFreq
    + BM25_K1 * (1 - BM25_B + BM25_B * (INR docLength / Rmax 1 avgDocLength)) in
  score + idf * (numerator / Rmax 1e-6 denominator).

(** [calculateBM25(queryTokens, documentTokens, documentFrequencies,
    totalDocuments, avgDocLength)] *)
Definition calculateBM25 (queryTokens documentTokens : list jsstring)
    (documentFrequencies : gmap jsstring nat)
    (totalDocuments : nat) (avgDocLength : R) : R :=
  match queryTokens, documentTokens with
  | [], _ | _, [] => 0
  | _, _ =>
      let tf := termFrequencies documentTokens in
      let docLength := length documentTokens in
      let uniqueQuery := uniq queryTokens in
      fold_left (termScore tf documentFrequencies totalDocuments docLength avgDocLength)
                uniqueQuery 0
  end.

Section WithLowerCase.
Variable toLowerCase : jsstring -> jsstring.

(** [buildDocumentFrequencies(allMemories)] *)
Definition buildDocumentFrequencies (allMemories : list MemoryChunk)
  : gmap jsstring nat :=
  fold_left
    (fun df memory =>
       fold_left (fun df token => <[token := (default 0 (df !! token) + 1)%nat]> df)
                 (uniq (tokenize toLowerCase (content memory))) df)
    allMemories ∅.

End WithLowerCase.
End BM25.

(* ===================================================================== *)
(** ** Signal calculators ([src/cognitive/memory/signals.ts], lines 1-71) *)
(* ===================================================================== *)

Module SignalCalc.
Local Open Scope R_scope.

(** [normalizeImportance(importance)] *)
Definition normalizeImportance (importance : R) : R :=
  Rmax 0 (Rmin 1 ((importance - 1) / 9)).

(** [calculateRecencyBoost(timestamp, halfLifeDays)]; [now] is the value of
    [Date.now()]. *)
Definition calculateRecencyBoost (timestamp : Z) (halfLifeDays : R) (now : Z) : R :=
  let HALF_LIFE := halfLifeDays * 24 * 3600 * 1000 in
  let memoryTime := timestamp in
  let age := Rmax 0 (IZR now - IZR memoryTime) in
  exp (- age / HALF_LIFE).

Section WithLowerCase.
Variable toLowerCase : jsstring -> jsstring.

(** [calculateTagRelevance(memoryTags, kernelKeywords)]; of the guard of
    the source the two emptiness tests remain, the arrays being present. *)
Definition calculateTagRelevance (memoryTags kernelKeywords : list jsstring) : R :=
  match memoryTags, kernelKeywords with
  | [], _ | _, [] => 0
  | _, _ =>
      let memoryTagSet : gset jsstring := list_to_set (List.map toLowerCase memoryTags) in
      let matches :=
        fold_left
          (fun matches keyword =>
             if bool_decide (toLowerCase keyword ∈ memoryTagSet)
             then S matches else matches)
          kernelKeywords 0%nat in
      INR matches / INR (length kernelKeywords)
  end.

(** [calculateCentrality(memory, kernelKeywords)]; [degree] is
    [memory.associations?.length || 0].  The early return of the source
    covers a missing [kernelKeywords] or [memory.tags], which the declared
    types exclude. *)
Definition calculateCentrality (memory : MemoryChunk) (kernelKeywords : list jsstring) : R :=
  let degree := match associations memory with Some a => length a | None => 0%nat end in
  let keywordSet : gset jsstring := list_to_set (List.map toLowerCase kernelKeywords) in
  let hasAlignment :=
    existsb (fun t => bool_decide (toLowerCase t ∈ keywordSet)) (tags memory) in
  let spin := if hasAlignment then 1.25 else 1.0 in
  Rmin 1 ((INR degree * spin) / 10).

End WithLowerCase.
End SignalCalc.

(* ===================================================================== *)
(** ** Rating store ([src/cognitive/memory/trueskill.ts]) *)
(* ===================================================================== *)

Module TrueSkill.
Local Open Scope R_scope.

Definition SIGMA_OBSERVATION : R := 1.0.
Definition SIGMA_DRIFT : R := 0.01.

(** [Math.random() || 1e-9] *)
Definition orTiny (u : Draw) : R :=
  if Req_dec_T (draw u) 0 then 1e-9 else draw u.

(** [thompsonSample(mu, sigma)], with the two uniform draws it consumes. *)
Definition thompsonSample (mu sigma : R) (d1 d2 : Draw) : R :=
  let u1 := orTiny d1 in
  let u2 := orTiny d2 in
  let z := sqrt (-2 * ln u1) * cos (2 * PI * u2) in
  mu + sigma * z.

(** The Kalman gain [K] computed inside [updateRating]. *)
Definition kalmanGain (currentRating : MemoryRating) : R :=
  let variance := sigma currentRating * sigma currentRating in
  let observationVariance := SIGMA_OBSERVATION * SIGMA_OBSERVATION in
  variance / (variance + observationVariance).

(** [updateRating(currentRating, reward)]; [now] is the value of
    [Date.now()]. *)
Definition updateRating (currentRating : MemoryRating) (reward : Reward) (now : Z)
  : MemoryRating :=
  let variance := sigma currentRating * sigma currentRating in
  let K := kalmanGain currentRating in
  let newMu := mu currentRating + K * (rewardValue reward - mu currentRating) in
  let newSigma := sqrt (Rmax 1e-6 ((1 - K) * variance)) + SIGMA_DRIFT in
  {| memoryId := memoryId currentRating;
     kernelId := kernelId currentRating;
     mu := newMu;
     sigma := Rmax 0.1 (Rmin 2.0 newSigma);
     uses := uses currentRating + 1;
     lastUpdatedAt := now |}.

(** [initializeRating(memoryId, kernelId)] *)
Definition initializeRating (memoryId kernelId : jsstring) (now : Z) : MemoryRating :=
  {| memoryId := memoryId;
     kernelId := kernelId;
     mu := 0;
     sigma := 1.0;
     uses := 0;
     lastUpdatedAt := now |}.

(** A sequence of feedback events, each with its reward and the clock value
    read by the update. *)
Definition applyUpdates (r : MemoryRating) (events : list (Reward * Z)) : MemoryRating :=
  fold_left (fun acc e => updateRating acc (fst e) (snd e)) events r.

(** *** The same function over a store of rating objects

    [updateRating] receives a reference to a rating object and builds its
    result with an object literal that spreads the argument.  The heap maps
    object identities to records; a call allocates one new object and
    writes to no other. *)

Abbreviation Heap := (gmap positive MemoryRating).

(** Evaluation of an object literal: a new identity bound to the record. *)
Definition alloc (h : Heap) (r : MemoryRating) : Heap * positive :=
  let l := fresh (dom h) in (<[l := r]> h, l).

Definition updateRatingObj (h : Heap) (ref : positive) (reward : Reward) (now : Z)
  : option (Heap * positive) :=
  match h !! ref with
  | Some currentRating => Some (alloc h (updateRating currentRating reward now))
  | None => None
  end.

End TrueSkill.

(* ===================================================================== *)
(** ** Diversity selector ([src/cognitive/memory/diversity.ts]) *)
(* ===================================================================== *)

Module Diversity.
Import Tokenizer.
Local Open Scope R_scope.

(** [interface ScoredItem { id; content; score; ... }] *)
Class ScoredItem (T : Type) := {
  item_id : T -> jsstring;
  item_content : T -> jsstring;
  item_score : T -> R
}.

Section WithItems.
Variable toLowerCase : jsstring -> jsstring.
Context {T : Type} `{ScoredItem T}.

(** [[...candidates].sort((a, b) => b.score - a.score)]: the sort of an
    array is stable, so among equal scores the earlier element stays first.
    [insertByScore x sorted] places [x], which stood before every element of
    [sorted], in front of the first element whose score is not larger. *)
Fixpoint insertByScore (x : T) (sorted : list T) : list T :=
  match sorted with
  | [] => [x]
  | y :: ys =>
      if Rlt_dec (item_score x) (item_score y)
      then y :: insertByScore x ys
      else x :: y :: ys
  end.

Definition sortByScoreDesc (l : list T) : list T :=
  fold_right insertByScore [] l.

(** [Math.max(...selected.map(s => jaccardSimilarity(candidate.content,
    s.content)))], or 0 when nothing is selected yet. *)
Definition maxSimilarity (selected : list T) (candidate : T) : R :=
  match List.map (fun s => jaccardSimilarity toLowerCase (item_content candidate) (item_content s))
                 selected with
  | [] => 0
  | x :: xs => fold_left Rmax xs x
  end.

Definition mmrScore (lambda : R) (selected : list T) (candidate : T) : R :=
  lambda * item_score candidate - (1 - lambda) * maxSimilarity selected candidate.

(** [mmrScore > bestScore]; [None] stands for the initial [-Infinity]. *)
Definition beats (mmr : R) (bestScore : option R) : bool :=
  match bestScore with
  | None => true
  | Some b => if Rgt_dec mmr b then true else false
  end.

(** The [for] loop over [remaining], entered at index [i]. *)
Fixpoint scanBest (lambda : R) (selected rest : list T)
    (i bestIdx : nat) (bestScore : option R) : nat :=
  match rest with
  | [] => bestIdx
  | candidate :: rest' =>
      let s := mmrScore lambda selected candidate in
      if beats s bestScore
      then scanBest lambda selected rest' (S i) i (Some s)
      else scanBest lambda selected rest' (S i) bestIdx bestScore
  end.

(** The [while] loop; [fuel] is [limit - selected.length], which every
    iteration lowers by one. *)
Fixpoint mmrLoop (lambda : R) (fuel : nat) (selected remaining : list T) : list T :=
  match fuel with
  | O => selected
  | S fuel' =>
      match remaining with
      | [] => selected
      | first :: _ =>
          let bestIdx := scanBest lambda selected remaining 0 0 None in
          mmrLoop lambda fuel'
                  (selected ++ [nth bestIdx remaining first])
                  (remove_at bestIdx remaining)
      end
  end.

(** [selectByMMR(candidates, lambda, limit)] *)
Definition selectByMMR (candidates : list T) (lambda : R) (limit : nat) : list T :=
  mmrLoop lambda limit [] (sortByScoreDesc candidates).

End WithItems.

Section Sampling.
Context {T : Type}.

(** [w.reduce((sum, weight) => sum + Math.max(0, weight), 0)] *)
Definition totalWeightOf (w : list R) : R :=
  fold_left (fun sum weight => sum + Rmax 0 weight) w 0.

(** [while (idx < w.length && random > Math.max(0, w[idx]))], entered with
    the weights from [idx] on. *)
Fixpoint walk (w : list R) (random : R) (idx : nat) : nat :=
  match w with
  | [] => idx
  | x :: w' =>
      if Rgt_dec random (Rmax 0 x)
      then walk w' (random - Rmax 0 x) (S idx)
      else idx
  end.

(** One iteration of the sampling loop: the index that is spliced out of
    [pool] and [w]. *)
Definition sampleIndex (pool : list T) (w : list R) (u : Draw) : nat :=
  let totalWeight := totalWeightOf w in
  if Req_dec_T totalWeight 0 then
    Z.to_nat (Zfloor (draw u * INR (length pool)))
  else
    let random := draw u * totalWeight in
    let idx := walk w random 0 in
    if (length pool <=? idx)%nat then (length pool - 1)%nat else idx.

(** The loop of [weightedSample]: [k] counts the draws still to make and
    [rng j] is the value of the [j]-th call of [Math.random()]. *)
Fixpoint sampleLoop (k : nat) (pool : list T) (w : list R)
    (rng : nat -> Draw) (j : nat) : list T :=
  match k with
  | O => []
  | S k' =>
      match pool with
      | [] => []
      | first :: _ =>
          let idx := sampleIndex pool w (rng j) in
          nth idx pool first
            :: sampleLoop k' (remove_at idx pool) (remove_at idx w) rng (S j)
      end
  end.

(** [weightedSample(items, weights, k)] *)
Definition weightedSample (items : list T) (weights : list R) (k : nat)
    (rng : nat -> Draw) : list T :=
  sampleLoop k items weights rng 0.

End Sampling.
End Diversity.

(* ===================================================================== *)
(** ** Selector ([src/cognitive/memory/selector.ts]) *)
(* ===================================================================== *)

Module Selector.
Import Tokenizer BM25 SignalCalc TrueSkill Diversity.
Local Open Scope R_scope.

Record PromptKernel := mkKernel {
  k_id : jsstring;
  k_name : jsstring;
  k_prompt : jsstring;
  k_keywords : list jsstring
}.

Record SelectionOptions := mkOptions {
  queryTerms : option (list jsstring);
  bypassTagFilter : option bool
}.

Definition W_IMPORTANCE : R := 0.10.
Definition W_TAG_RELEVANCE : R := 0.25.
Definition W_LEXICAL : R := 0.30.
Definition W_RECENCY : R := 0.10.
Definition W_CENTRALITY : R := 0.10.
Definition W_THOMPSON : R := 0.15.

(** The element type of the array [scored]. *)
Record Scored := mkScored {
  sc_id : jsstring;
  sc_content : jsstring;
  sc_score : R;
  sc_tags : list jsstring;
  sc_memory : MemoryChunk;
  sc_signals : Signals
}.

#[export] Instance Scored_item : ScoredItem Scored :=
  {| item_id := sc_id; item_content := sc_content; item_score := sc_score |}.

(** The Thompson term of the composite score:
    [Math.max(0, Math.min(1, (thompsonScore + 1) / 2))]. *)
Definition mappedThompson (thompsonScore : R) : R :=
  Rmax 0 (Rmin 1 ((thompsonScore + 1) / 2)).

Section WithLowerCase.
Variable toLowerCase : jsstring -> jsstring.

(** [calculateUtility(memory, kernel, bm25Score, thompsonScore)]; [now] is
    the value of [Date.now()] read by [calculateRecencyBoost]. *)
Definition calculateUtility (memory : MemoryChunk) (kernel : PromptKernel)
    (bm25Score thompsonScore : R) (now : Z) : R * Signals :=
  let importance := normalizeImportance (importance memory) in
  let tagRelevance := calculateTagRelevance toLowerCase (tags memory) (k_keywords kernel) in
  let recency := calculateRecencyBoost (timestamp memory) 14 now in
  let centrality := calculateCentrality toLowerCase memory (k_keywords kernel) in
  let lexical := if Rlt_dec 0 bm25Score then ln (1 + bm25Score) / 5 else 0 in
  let total :=
    W_IMPORTANCE * importance +
    W_TAG_RELEVANCE * tagRelevance +
    W_LEXICAL * lexical +
    W_RECENCY * recency +
    W_CENTRALITY * centrality +
    W_THOMPSON * mappedThompson thompsonScore in
  (total,
   {| s_importance := importance;
      s_tagRelevance := tagRelevance;
      s_lexicalScore := lexical;
      s_recency := recency;
      s_centrality := centrality;
      s_thompson := thompsonScore |}).

(** The rating the selector samples from:
    [ratings.get(ratingKey) || initializeRating(memory.id, kernel.id)]. *)
Definition ratingFor (ratings : JSMap MemoryRating) (memory : MemoryChunk)
    (kernel : PromptKernel) (now : Z) : MemoryRating :=
  let ratingKey := makeRatingKey (id memory) (k_id kernel) in
  match mapGet ratingKey ratings with
  | Some rating => rating
  | None => initializeRating (id memory) (k_id kernel) now
  end.

(** The body of the scoring loop for the candidate met at position [i]: it
    consumes the draws [2i] and [2i+1] and reads the clock at [clock i]. *)
Definition scoreCandidate (kernel : PromptKernel) (ratings : JSMap MemoryRating)
    (queryTokens : list jsstring) (df : gmap jsstring nat)
    (totalDocs : nat) (avgDocLength : R)
    (rng : nat -> Draw) (clock : nat -> Z) (i : nat) (memory : MemoryChunk) : Scored :=
  let docTokens := tokenize toLowerCase (content memory) in
  let bm25Score := calculateBM25 queryTokens docTokens df totalDocs avgDocLength in
  let rating := ratingFor ratings memory kernel (clock i) in
  let thompsonScore :=
    thompsonSample (mu rating) (sigma rating) (rng (2 * i)%nat) (rng (2 * i + 1)%nat) in
  let '(total, signals) := calculateUtility memory kernel bm25Score thompsonScore (clock i) in
  {| sc_id := id memory;
     sc_content := content memory;
     sc_score := total;
     sc_tags := tags memory;
     sc_memory := memory;
     sc_signals :=
       {| s_importance := s_importance signals;
          s_tagRelevance := s_tagRelevance signals;
          s_lexicalScore := s_lexicalScore signals;
          s_recency := s_recency signals;
          s_centrality := s_centrality signals;
          s_thompson := thompsonScore |} |}.

(** The loop [for (const memory of candidates)], entered at position [i]. *)
Fixpoint scoreAll (kernel : PromptKernel) (ratings : JSMap MemoryRating)
    (queryTokens : list jsstring) (df : gmap jsstring nat)
    (totalDocs : nat) (avgDocLength : R)
    (rng : nat -> Draw) (clock : nat -> Z) (i : nat) (candidates : list MemoryChunk)
  : list Scored :=
  match candidates with
  | [] => []
  | memory :: rest =>
      scoreCandidate kernel ratings queryTokens df totalDocs avgDocLength rng clock i memory
        :: scoreAll kernel ratings queryTokens df totalDocs avgDocLength rng clock (S i) rest
  end.

(** The tag pre-filter. *)
Definition preFilter (memories : list MemoryChunk) (kernel : PromptKernel)
    (bypass : bool) : list MemoryChunk :=
  let keywordSet : gset jsstring := list_to_set (List.map toLowerCase (k_keywords kernel)) in
  let shouldFilterByTags := (0 <? length (k_keywords kernel))%nat && negb bypass in
  if shouldFilterByTags
  then List.filter
         (fun m => existsb (fun t => bool_decide (toLowerCase t ∈ keywordSet)) (tags m))
         memories
  else memories.

(** The query text built from the kernel and the optional query terms. *)
Definition buildQueryText (kernel : PromptKernel) (terms : list jsstring) : jsstring :=
  let queryParts :=
    [k_name kernel; k_prompt kernel]
    ++ (if (0 <? length (k_keywords kernel))%nat
        then [join [SPACE] (k_keywords kernel)] else [])
    ++ (if (0 <? length terms)%nat then [join [SPACE] terms] else []) in
  join [SPACE] queryParts.

Definition toSelected (item : Scored) : SelectedMemory :=
  {| sel_memoryId := id (sc_memory item);
     sel_content := content (sc_memory item);
     sel_tags := tags (sc_memory item);
     sel_score := sc_score item;
     sel_signals := sc_signals item |}.

(** The array [scored] of [selectMemories] for a non-empty candidate set. *)
Definition scoredOf (candidates : list MemoryChunk) (kernel : PromptKernel)
    (ratings : JSMap MemoryRating) (terms : list jsstring)
    (rng : nat -> Draw) (clock : nat -> Z) : list Scored :=
  let df := buildDocumentFrequencies toLowerCase candidates in
  let totalDocs := length candidates in
  let avgDocLength :=
    fold_left (fun sum m => sum + INR (length (tokenize toLowerCase (content m))))
              candidates 0
    / INR totalDocs in
  let queryTokens := tokenize toLowerCase (buildQueryText kernel terms) in
  scoreAll kernel ratings queryTokens df totalDocs avgDocLength rng clock 0 candidates.

(** [selectMemories(memories, kernel, ratings, limit, options)].  The
    scoring loop consumes two draws per candidate; the sampling loop
    consumes the draws after those. *)
Definition selectMemories (memories : list MemoryChunk) (kernel : PromptKernel)
    (ratings : JSMap MemoryRating) (limit : nat) (options : SelectionOptions)
    (rng : nat -> Draw) (clock : nat -> Z) : list SelectedMemory :=
  match memories with
  | [] => []
  | _ =>
      let terms := default [] (queryTerms options) in
      let bypass := default false (bypassTagFilter options) in
      let candidates := preFilter memories kernel bypass in
      match candidates with
      | [] => []
      | _ =>
          let scored := scoredOf candidates kernel ratings terms rng clock in
          let oversampleK := Nat.min (limit * 3) (length scored) in
          let oversampled :=
            weightedSample scored (List.map sc_score scored) oversampleK
                           (fun j => rng (2 * length candidates + j)%nat) in
          let diverse := selectByMMR toLowerCase oversampled 0.7 limit in
          List.map toSelected diverse
      end
  end.

End WithLowerCase.
End Selector.

(* ===================================================================== *)
(** ** Learning loop ([src/cognitive/memory/signals.ts], lines 72-200) *)
(* ===================================================================== *)

Module Learning.
Import TrueSkill.

(** What the backend holds under a key: a payload that [JSON.parse] turns
    back into the array that was saved, or one on which it throws. *)
Inductive Stored (A : Type) :=
  | Json (items : list A)
  | Corrupt.
Arguments Json {A} items.
Arguments Corrupt {A}.

(** The injected storage, with [getSetting] and [saveSetting] that
    succeed.  The keys [memory_ratings_<profileId>] and
    [memory_interactions_<profileId>] start differently, so the settings
    form two tables indexed by profile. *)
Record Backend := mkBackend {
  ratingsTable : gmap jsstring (Stored MemoryRating);
  interactionsTable : gmap jsstring (Stored MemoryInteraction)
}.

(** The result of a call that may throw. *)
Inductive Outcome (A : Type) :=
  | Returned (a : A)
  | Thrown (message : string).
Arguments Returned {A} a.
Arguments Thrown {A} message.

Definition bind {A B} (o : Outcome A) (k : A -> Outcome B) : Outcome B :=
  match o with
  | Returned a => k a
  | Thrown m => Thrown m
  end.

#[export] Instance Outcome_bind : MBind Outcome := fun A B k o => bind o k.

Definition NOT_INITIALIZED : string := "Storage not initialized".

(** [loadRatings(profileId)]; [storage] is the module variable of the same
    name, [None] while it is [null]. *)
Definition loadRatings (storage : option Backend) (profileId : jsstring)
  : Outcome (JSMap MemoryRating) :=
  match storage with
  | None => Thrown NOT_INITIALIZED
  | Some backend =>
      match ratingsTable backend !! profileId with
      | Some (Json ratings) =>
          Returned
            (fold_left
               (fun map rating =>
                  mapSet (makeRatingKey (memoryId rating) (kernelId rating)) rating map)
               ratings [])
      | Some Corrupt | None => Returned []
      end
  end.

(** [saveRatings(profileId, ratings)] *)
Definition saveRatings (storage : option Backend) (profileId : jsstring)
    (ratings : JSMap MemoryRating) : Outcome Backend :=
  match storage with
  | None => Thrown NOT_INITIALIZED
  | Some backend =>
      let array := mapValues ratings in
      Returned {| ratingsTable := <[profileId := Json array]> (ratingsTable backend);
                  interactionsTable := interactionsTable backend |}
  end.

(** [loadInteractions(profileId)] *)
Definition loadInteractions (storage : option Backend) (profileId : jsstring)
  : Outcome (list MemoryInteraction) :=
  match storage with
  | None => Thrown NOT_INITIALIZED
  | Some backend =>
      match interactionsTable backend !! profileId with
      | Some (Json interactions) => Returned interactions
      | Some Corrupt | None => Returned []
      end
  end.

(** [saveInteractions(profileId, interactions)] *)
Definition saveInteractions (storage : option Backend) (profileId : jsstring)
    (interactions : list MemoryInteraction) : Outcome Backend :=
  match storage with
  | None => Thrown NOT_INITIALIZED
  | Some backend =>
      let recent := slice_last 1000 interactions in
      Returned {| ratingsTable := ratingsTable backend;
                  interactionsTable := <[profileId := Json recent]> (interactionsTable backend) |}
  end.

(** What one iteration of the feedback loop reads from its environment:
    the identifier from [crypto.randomUUID()] and the three values of
    [Date.now()] (in [initializeRating], in [updateRating] and in the
    interaction record). *)
Record Oracle := mkOracle {
  o_uuid : jsstring;
  o_initAt : Z;
  o_updateAt : Z;
  o_loggedAt : Z
}.

(** The body of [for (const { memoryId, reward } of rewards)]. *)
Definition feedbackStep (kernelId contextId : jsstring) (o : Oracle)
    (state : JSMap MemoryRating * list MemoryInteraction)
    (entry : jsstring * Reward)
  : JSMap MemoryRating * list MemoryInteraction :=
  let '(ratings, interactions) := state in
  let '(memoryId, reward) := entry in
  let key := makeRatingKey memoryId kernelId in
  let currentRating :=
    match mapGet key ratings with
    | Some r => r
    | None => initializeRating memoryId kernelId (o_initAt o)
    end in
  let newRating := updateRating currentRating reward (o_updateAt o) in
  (mapSet key newRating ratings,
   interactions ++
     [{| i_id := o_uuid o;
         i_memoryId := memoryId;
         i_kernelId := kernelId;
         i_contextId := contextId;
         i_reward := reward;
         i_timestamp := o_loggedAt o |}]).

(** The loop, entered at iteration [i]. *)
Fixpoint feedbackLoop (kernelId contextId : jsstring) (oracle : nat -> Oracle) (i : nat)
    (rewards : list (jsstring * Reward))
    (state : JSMap MemoryRating * list MemoryInteraction)
  : JSMap MemoryRating * list MemoryInteraction :=
  match rewards with
  | [] => state
  | entry :: rest =>
      feedbackLoop kernelId contextId oracle (S i) rest
                   (feedbackStep kernelId contextId (oracle i) state entry)
  end.

(** [applyFeedback(profileId, kernelId, contextId, rewards)]: the backend
    after the call, or the error it throws. *)
Definition applyFeedback (storage : option Backend)
    (profileId kernelId contextId : jsstring)
    (rewards : list (jsstring * Reward)) (oracle : nat -> Oracle) : Outcome Backend :=
  ratings ← loadRatings storage profileId;
  interactions ← loadInteractions storage profileId;
  let '(ratings', interactions') :=
    feedbackLoop kernelId contextId oracle 0 rewards (ratings, interactions) in
  saved ← saveRatings storage profileId ratings';
  saveInteractions (Some saved) profileId interactions'.

(** [recordUsage(profileId, kernelId, contextId, memoryIds)] *)
Definition recordUsage (storage : option Backend)
    (profileId kernelId contextId : jsstring)
    (memoryIds : list jsstring) (oracle : nat -> Oracle) : Outcome Backend :=
  let rewards := List.map (fun memoryId => (memoryId, Positive)) memoryIds in
  applyFeedback storage profileId kernelId contextId rewards oracle.

End Learning.

(* ===================================================================== *)
(** ** Observations used in the statements *)
(* ===================================================================== *)

Module Observe.
Import TrueSkill Learning.

(** The [uses] counter of the rating held under [key]; an absent key
    stands for a fresh rating, whose counter is 0. *)
Definition usesAt (key : jsstring) (ratings : JSMap MemoryRating) : Z :=
  match mapGet key ratings with
  | Some r => uses r
  | None => 0%Z
  end.

(** The same counter read back from the backend through [loadRatings]. *)
Definition usesStored (backend : Backend) (profileId key : jsstring) : Z :=
  match loadRatings (Some backend) profileId with
  | Returned ratings => usesAt key ratings
  | Thrown _ => 0%Z
  end.

(** The interaction log read back through [loadInteractions]. *)
Definition logStored (backend : Backend) (profileId : jsstring) : list MemoryInteraction :=
  match loadInteractions (Some backend) profileId with
  | Returned interactions => interactions
  | Thrown _ => []
  end.

(** The records that the feedback loop appends for [rewards], the first of
    them at iteration [i]. *)
Fixpoint logged (kernelId contextId : jsstring) (oracle : nat -> Oracle) (i : nat)
    (rewards : list (jsstring * Reward)) : list MemoryInteraction :=
  match rewards with
  | [] => []
  | (memoryId, reward) :: rest =>
      {| i_id := o_uuid (oracle i);
         i_memoryId := memoryId;
         i_kernelId := kernelId;
         i_contextId := contextId;
         i_reward := reward;
         i_timestamp := o_loggedAt (oracle i) |}
      :: logged kernelId contextId oracle (S i) rest
  end.

(** How often [memoryId] occurs in a list of identifiers. *)
Definition occurrences (memoryId : jsstring) (ids : list jsstring) : nat :=
  length (List.filter (fun x => bool_decide (x = memoryId)) ids).

(** Every entry of a rating table sits under the key of its own
    identifiers, and no key occurs twice. *)
Definition wellKeyed (ratings : JSMap MemoryRating) : Prop :=
  Forall (fun e => fst e = makeRatingKey (memoryId (snd e)) (kernelId (snd e))) ratings
  /\ NoDup (List.map fst ratings).

(** The table that [loadRatings] builds from a stored array, entered with
    the entries [acc]. *)
Definition rebuild (acc : JSMap MemoryRating) (array : list MemoryRating)
  : JSMap MemoryRating :=
  fold_left
    (fun map rating => mapSet (makeRatingKey (memoryId rating) (kernelId rating)) rating map)
    array acc.

(** The order that the sort of [selectByMMR] establishes: scores do not
    increase. *)
Definition scoreDesc {T} `{Diversity.ScoredItem T} (a b : T) : Prop :=
  (Diversity.item_score b <= Diversity.item_score a)%R.

(** The test [x.score === s]. *)
Definition scoreIs {T} `{Diversity.ScoredItem T} (s : R) (x : T) : bool :=
  if Req_dec_T (Diversity.item_score x) s then true else false.

(** The code units on which [tokenize] cuts its input. *)
Definition isDelim (c : N) : bool := Tokenizer.isPunct c || Tokenizer.isSpace c.

Definition notSpace (c : N) : Prop := Tokenizer.isSpace c = false.
Definition notPunct (c : N) : Prop := Tokenizer.isPunct c = false.

(** A token: not empty and without white space. *)
Definition solid (t : jsstring) : Prop := t <> [] /\ Forall notSpace t.

(** A string that [toLowerCase] leaves as it is. *)
Definition lowered (toLowerCase : jsstring -> jsstring) (s : jsstring) : Prop :=
  toLowerCase s = s.

(** What the development uses of [String.prototype.toLowerCase]: its
    result is in lower case, and whether a string is in lower case is decided
    separately on the two sides of a punctuation or white-space code unit
    (these are BMP code units without case, so they neither change nor take
    part in the mapping of a neighbour). *)
Record LowerCaseLaws (toLowerCase : jsstring -> jsstring) : Prop := {
  lower_nil : lowered toLowerCase [];
  lower_idem : forall s, lowered toLowerCase (toLowerCase s);
  lower_delim :
    forall a d b, isDelim d = true ->
      (lowered toLowerCase (a ++ d :: b)
       <-> lowered toLowerCase a /\ lowered toLowerCase b)
}.

(** What one query term adds to the BM25 score. *)
Definition contribution (tf df : gmap jsstring nat) (N docLength : nat) (avg : R)
    (term : jsstring) : R :=
  BM25.termScore tf df N docLength avg 0 term.

(** One call of [applyFeedback]: its arguments apart from the profile, and
    what it reads from its environment. *)
Record FeedbackCall := mkCall {
  c_kernelId : jsstring;
  c_contextId : jsstring;
  c_rewards : list (jsstring * Reward);
  c_oracle : nat -> Oracle
}.

(** Calls of [applyFeedback] for one profile, one after the other. *)
Fixpoint feedbackSequence (backend : Backend) (profileId : jsstring)
    (calls : list FeedbackCall) : Outcome Backend :=
  match calls with
  | [] => Returned backend
  | c :: rest =>
      match applyFeedback (Some backend) profileId
                          (c_kernelId c) (c_contextId c) (c_rewards c) (c_oracle c) with
      | Returned backend' => feedbackSequence backend' profileId rest
      | Thrown m => Thrown m
      end
  end.

(** The interaction records written by a sequence of calls, in order. *)
Definition loggedBy (calls : list FeedbackCall) : list MemoryInteraction :=
  concat (List.map (fun c => logged (c_kernelId c) (c_contextId c) (c_oracle c) 0 (c_rewards c))
                   calls).

End Observe.

(* ===================================================================== *)
(** ** Scenarios *)
(* ===================================================================== *)

Module Scenario.
Import Tokenizer Selector.

(** An important, fresh, well-connected memory whose tag matches the
    kernel (scenario S1, with importance 10 and eight associations). *)
Definition memoryA : MemoryChunk :=
  {| id := lit "A";
     content := lit "distributed consensus raft";
     tags := [lit "systems"];
     importance := 10;
     timestamp := 0;
     associations := Some (List.map lit ["B"; "C"; "D"; "E"; "F"; "G"; "H"; "I"]%string);
     episodeId := None |}.

Definition kernelS1 : PromptKernel :=
  {| k_id := lit "thread-1";
     k_name := lit "consensus";
     k_prompt := lit "raft consensus algorithm";
     k_keywords := [lit "systems"] |}.

(** The second memory of scenario S1. *)
Definition memoryB : MemoryChunk :=
  {| id := lit "B";
     content := lit "cooking recipes onion";
     tags := [lit "systems"];
     importance := 5;
     timestamp := 0;
     associations := None;
     episodeId := None |}.

(** The value 0.5 of [Math.random()]. *)
Definition half : Draw := mkDraw (1 / 2) ltac:(lra).

(** A random source that always returns 0.5, a clock that stands still
    and options left at their defaults. *)
Definition rngHalf (j : nat) : Draw := half.
Definition clockZero (i : nat) : Z := 0%Z.
Definition noOptions : SelectionOptions :=
  {| queryTerms := None; bypassTagFilter := None |}.

(** Three scored items, the last two with equal scores. *)
Definition noSignals : Signals := mkSignals 0 0 0 0 0 0.
Definition itemA : Scored :=
  mkScored (lit "A") (content memoryA) 0.5 [] memoryA noSignals.
Definition itemB : Scored :=
  mkScored (lit "B") (content memoryB) 0.9 [] memoryB noSignals.
Definition itemC : Scored :=
  mkScored (lit "C") (lit "paxos leader election") 0.9 [] memoryB noSignals.

Definition raft : jsstring := lit "raft".
Definition paxos : jsstring := lit "paxos".

(** Document frequencies that do not come from the corpus: [paxos] is
    counted in more documents than there are. *)
Definition dfSkewed : gmap jsstring nat := <[paxos := 7%nat]> {[ raft := 1%nat ]}.

End Scenario.

(* ===================================================================== *)
(** ** Further observations *)
(* ===================================================================== *)

Module Observe2.
Import TrueSkill Diversity Selector Learning Observe.

(** A tag and a keyword that agree up to case. *)
Definition tagsOverlap (toLowerCase : jsstring -> jsstring)
    (memoryTags kernelKeywords : list jsstring) : Prop :=
  exists t k, In t memoryTags /\ In k kernelKeywords /\ toLowerCase t = toLowerCase k.

(** The rating held under [key] in the backend, read back through
    [loadRatings]. *)
Definition ratingStored (backend : Backend) (profileId key : jsstring)
  : option MemoryRating :=
  match loadRatings (Some backend) profileId with
  | Returned ratings => mapGet key ratings
  | Thrown _ => None
  end.

(** The rating updates that the feedback loop makes for [memoryId]: the
    reward and the clock value of every iteration whose entry names it, the
    loop being entered at iteration [i]. *)
Fixpoint eventsFor (memoryId : jsstring) (oracle : nat -> Oracle) (i : nat)
    (rewards : list (jsstring * Reward)) : list (Reward * Z) :=
  match rewards with
  | [] => []
  | (m, reward) :: rest =>
      (if bool_decide (m = memoryId) then [(reward, o_updateAt (oracle i))] else [])
      ++ eventsFor memoryId oracle (S i) rest
  end.

(** The first iteration whose entry names [memoryId]. *)
Fixpoint firstAt (memoryId : jsstring) (i : nat) (rewards : list (jsstring * Reward)) : nat :=
  match rewards with
  | [] => i
  | (m, _) :: rest => if bool_decide (m = memoryId) then i else firstAt memoryId (S i) rest
  end.

(** A rating after a run of updates: untouched when there is none,
    otherwise the updates applied in order to the rating held before, or to
    a fresh one created at [initAt] when none was held. *)
Definition ratedAs (current : option MemoryRating) (memoryId kernelId : jsstring)
    (initAt : Z) (events : list (Reward * Z)) : option MemoryRating :=
  match events with
  | [] => current
  | _ =>
      Some (applyUpdates
              (match current with
               | Some r => r
               | None => initializeRating memoryId kernelId initAt
               end)
              events)
  end.

(** The key under which [loadRatings] files a stored rating. *)
Definition keyOf (rating : MemoryRating) : jsstring :=
  makeRatingKey (memoryId rating) (kernelId rating).

(** The second memory of scenario S2: its only tag is "cooking". *)
Definition memoryCooking : MemoryChunk :=
  {| id := lit "B";
     content := lit "cooking recipes onion";
     tags := [lit "cooking"];
     importance := 5;
     timestamp := 0;
     associations := None;
     episodeId := None |}.

End Observe2.

(* ===================================================================== *)
(** * Properties *)
(* ===================================================================== *)

(** ** The executable part of the model on small inputs *)

Module Examples.
Import Tokenizer BM25 Learning Observe Scenario.

Example tokenize_sentence :
  tokenize asciiLower (lit "The Raft-consensus algorithm, as I see it!")
  = List.map lit ["raft"; "consensus"; "algorithm"; "see"]%string.
Proof. vm_compute. reflexivity. Qed.

Example split_keeps_empty_ends :
  splitSpaces (lit " a  b ") = [[]; lit "a"; lit "b"; []]
  /\ splitSpaces [] = [[]].
Proof. split; reflexivity. Qed.

Example shingles_of_five :
  shingles (List.map lit ["one"; "two"; "three"; "four"; "five"]%string) 3
  = list_to_set (List.map lit ["one two three"; "two three four"; "three four five"]%string)
  /\ shingles (List.map lit ["one"; "two"]%string) 3 = ∅.
Proof. split; vm_compute; reflexivity. Qed.

Example uniq_keeps_first :
  uniq (List.map lit ["b"; "a"; "b"; "c"; "a"]%string) = List.map lit ["b"; "a"; "c"]%string.
Proof. vm_compute. reflexivity. Qed.

Example slice_last_examples :
  slice_last 2 [1; 2; 3; 4; 5]%nat = [4; 5]%nat /\ slice_last 7 [1; 2; 3]%nat = [1; 2; 3]%nat.
Proof. split; reflexivity. Qed.

Example map_set_keeps_position :
  mapSet (lit "a") 9%nat [(lit "a", 1%nat); (lit "b", 2%nat)]
  = [(lit "a", 9%nat); (lit "b", 2%nat)]
  /\ mapSet (lit "c") 3%nat [(lit "a", 1%nat); (lit "b", 2%nat)]
     = [(lit "a", 1%nat); (lit "b", 2%nat); (lit "c", 3%nat)].
Proof. split; vm_compute; reflexivity. Qed.

Example rating_key : makeRatingKey (lit "m1") (lit "k") = lit "m1::k".
Proof. reflexivity. Qed.

Example document_frequencies_S1 :
  default 0%nat (buildDocumentFrequencies asciiLower [memoryA; memoryB] !! lit "raft") = 1%nat
  /\ default 0%nat (termFrequencies (List.map lit ["raft"; "log"; "raft"]%string) !! lit "raft")
     = 2%nat.
Proof. split; vm_compute; reflexivity. Qed.

Example storage_missing :
  loadRatings None (lit "p") = Thrown NOT_INITIALIZED
  /\ loadRatings (Some (mkBackend ∅ ∅)) (lit "p") = Returned []
  /\ loadInteractions (Some (mkBackend ∅ {[ lit "p" := Corrupt ]})) (lit "p") = Returned [].
Proof. repeat split; vm_compute; reflexivity. Qed.

End Examples.

(** ** Arithmetic of clamps *)

Section Clamps.
Local Open Scope R_scope.

Lemma clamp_bounds (lo hi x : R) : lo <= hi -> lo <= Rmax lo (Rmin hi x) <= hi.
Proof.
  intros Hle. split.
  - apply Rmax_l.
  - apply Rmax_lub; [exact Hle | apply Rmin_l].
Qed.

Lemma clamp_inert (lo hi x : R) : lo <= x <= hi -> Rmax lo (Rmin hi x) = x.
Proof.
  intros [Hlo Hhi]. rewrite Rmin_right by exact Hhi. now apply Rmax_right.
Qed.

Lemma sqrt_between (x a b : R) :
  0 <= a -> 0 <= b -> a * a < x -> x < b * b -> a < sqrt x < b.
Proof.
  intros Ha Hb Hax Hxb.
  assert (Hx : 0 <= x) by nra.
  split.
  - rewrite <- (sqrt_square a Ha). apply sqrt_lt_1; nra.
  - rewrite <- (sqrt_square b Hb). apply sqrt_lt_1; nra.
Qed.

End Clamps.

(** ** Rating store *)

Module TrueSkillProps.
Import TrueSkill.
Local Open Scope R_scope.

(** The gain of the Kalman step lies in [0,1). *)
Lemma kalmanGain_range (r : MemoryRating) : 0 <= kalmanGain r < 1.
Proof.
  unfold kalmanGain, SIGMA_OBSERVATION. cbv zeta.
  set (v := sigma r * sigma r).
  assert (Hv : 0 <= v) by (unfold v; nra).
  assert (Hd : 0 < v + 1.0 * 1.0) by lra.
  split.
  - apply Rmult_le_pos; [exact Hv | left; now apply Rinv_0_lt_compat].
  - apply (Rmult_lt_reg_r (v + 1.0 * 1.0)); [exact Hd |].
    unfold Rdiv. rewrite Rmult_assoc, Rinv_l by lra. lra.
Qed.

Lemma updateRating_sigma_bounds (r : MemoryRating) (reward : Reward) (now : Z) :
  0.1 <= sigma (updateRating r reward now) <= 2.0.
Proof. cbn [updateRating sigma]. apply clamp_bounds. lra. Qed.

Lemma rewardValue_range (reward : Reward) : -1 <= rewardValue reward <= 1.
Proof. destruct reward; cbn; lra. Qed.

(** The new mean is a convex combination of the old mean and the reward. *)
Lemma updateRating_mu_bounds (r : MemoryRating) (reward : Reward) (now : Z) :
  -1 <= mu r <= 1 -> -1 <= mu (updateRating r reward now) <= 1.
Proof.
  intros Hmu. cbn [updateRating mu].
  pose proof (kalmanGain_range r) as HK.
  pose proof (rewardValue_range reward) as Hr.
  set (K := kalmanGain r) in *. set (x := rewardValue reward) in *.
  split; nra.
Qed.

Lemma updateRating_uses (r : MemoryRating) (reward : Reward) (now : Z) :
  uses (updateRating r reward now) = (uses r + 1)%Z.
Proof. reflexivity. Qed.

Lemma applyUpdates_snoc (r : MemoryRating) (events : list (Reward * Z)) (e : Reward * Z) :
  applyUpdates r (events ++ [e]) = updateRating (applyUpdates r events) (fst e) (snd e).
Proof. unfold applyUpdates. now rewrite fold_left_app. Qed.

Lemma applyUpdates_uses (r : MemoryRating) (events : list (Reward * Z)) :
  uses (applyUpdates r events) = (uses r + Z.of_nat (length events))%Z.
Proof.
  induction events as [| e events IH] using rev_ind.
  - cbn. lia.
  - rewrite applyUpdates_snoc, updateRating_uses, IH, length_app. cbn. lia.
Qed.

Lemma applyUpdates_bounds (r : MemoryRating) (events : list (Reward * Z)) :
  0.1 <= sigma r <= 2.0 -> -1 <= mu r <= 1 ->
  0.1 <= sigma (applyUpdates r events) <= 2.0 /\ -1 <= mu (applyUpdates r events) <= 1.
Proof.
  intros Hs Hm. induction events as [| e events IH] using rev_ind.
  - now split.
  - rewrite applyUpdates_snoc. split.
    + apply updateRating_sigma_bounds.
    + apply updateRating_mu_bounds, IH.
Qed.

(** C2 (T2).  Starting from [initializeRating] and applying [updateRating]
    any number of times with rewards in {-1,0,1}: sigma stays within
    [0.1, 2.0]; mu is a real number (the type of the field) and moreover stays
    within [-1, 1]; [uses] equals the number of updates applied, so one more
    update raises it by exactly one and it never decreases along the
    sequence. *)
Theorem rating_invariant (m k : jsstring) (t0 : Z) (events more : list (Reward * Z)) :
  let r := applyUpdates (initializeRating m k t0) events in
  (0.1 <= sigma r <= 2.0)
  /\ (-1 <= mu r <= 1)
  /\ uses r = Z.of_nat (length events)
  /\ (forall reward now, uses (updateRating r reward now) = (uses r + 1)%Z)
  /\ (uses r <= uses (applyUpdates (initializeRating m k t0) (events ++ more)))%Z.
Proof.
  cbv zeta.
  destruct (applyUpdates_bounds (initializeRating m k t0) events) as [Hs Hm];
    [cbn; lra | cbn; lra |].
  repeat split; try (apply Hs || apply Hm).
  - rewrite applyUpdates_uses. cbn. lia.
  - rewrite !applyUpdates_uses, length_app. lia.
Qed.

Lemma sqrt_half_bounds : 0.707106 < sqrt 0.5 < 0.707107.
Proof. apply sqrt_between; lra. Qed.

(** C3 (S4).  One update with reward +1 of a freshly initialised rating:
    the Kalman gain is 0.5, the new mean is 0.5, the new deviation is
    sqrt(0.5) + 0.01, which the clamp to [0.1, 2.0] leaves as it is and which
    lies within 1e-6 of 0.717107, and [uses] is 1. *)
Theorem first_positive_update (m k : jsstring) (t0 t1 : Z) :
  let r0 := initializeRating m k t0 in
  let r1 := updateRating r0 Positive t1 in
  kalmanGain r0 = 0.5
  /\ mu r1 = 0.5
  /\ sigma r1 = sqrt 0.5 + 0.01
  /\ Rmax 0.1 (Rmin 2.0 (sqrt 0.5 + 0.01)) = sqrt 0.5 + 0.01
  /\ Rabs (sigma r1 - 0.717107) < 1e-6
  /\ uses r1 = 1%Z
  /\ lastUpdatedAt r1 = t1.
Proof.
  cbv zeta.
  assert (HK : kalmanGain (initializeRating m k t0) = 0.5).
  { unfold kalmanGain, SIGMA_OBSERVATION. cbn. lra. }
  pose proof sqrt_half_bounds as Hsq.
  assert (Hin : Rmax 0.1 (Rmin 2.0 (sqrt 0.5 + 0.01)) = sqrt 0.5 + 0.01)
    by (apply clamp_inert; lra).
  assert (Hsig : sigma (updateRating (initializeRating m k t0) Positive t1)
                 = sqrt 0.5 + 0.01).
  { cbn [updateRating sigma]. rewrite HK. cbn [initializeRating sigma].
    unfold SIGMA_DRIFT.
    rewrite (Rmax_right 1e-6) by lra.
    replace ((1 - 0.5) * (1.0 * 1.0)) with 0.5 by lra.
    exact Hin. }
  repeat split.
  - exact HK.
  - cbn [updateRating mu]. rewrite HK. cbn. lra.
  - exact Hsig.
  - exact Hin.
  - rewrite Hsig. apply Rabs_def1; lra.
Qed.

(** Allocation returns an identity that was not in use. *)
Lemma alloc_fresh (h : Heap) (r : MemoryRating) : h !! (alloc h r).2 = None.
Proof.
  cbn. apply not_elem_of_dom. apply is_fresh.
Qed.

(** C10.  [updateRating] builds a new record: its [memoryId] and [kernelId]
    are those of the argument, so only [mu], [sigma], [uses] and
    [lastUpdatedAt] can differ; the result is a new object, and the argument
    and every other object of the heap are as before the call. *)
Theorem updateRating_frame (h : Heap) (ref : positive) (r : MemoryRating)
    (reward : Reward) (now : Z) :
  h !! ref = Some r ->
  exists h' ref',
    updateRatingObj h ref reward now = Some (h', ref')
    /\ ref' <> ref
    /\ h !! ref' = None
    /\ h' !! ref = Some r
    /\ (forall l, l <> ref' -> h' !! l = h !! l)
    /\ h' !! ref' = Some (updateRating r reward now)
    /\ memoryId (updateRating r reward now) = memoryId r
    /\ kernelId (updateRating r reward now) = kernelId r
    /\ updateRating r reward now
       = mkRating (memoryId r) (kernelId r)
                  (mu (updateRating r reward now)) (sigma (updateRating r reward now))
                  (uses r + 1) now.
Proof.
  intros Href. unfold updateRatingObj. rewrite Href.
  set (r' := updateRating r reward now).
  pose proof (alloc_fresh h r') as Hfresh.
  exists (alloc h r').1, (alloc h r').2.
  assert (Hne : (alloc h r').2 <> ref).
  { intros E. rewrite E, Href in Hfresh. discriminate. }
  repeat split; try reflexivity.
  - exact Hne.
  - exact Hfresh.
  - cbn. rewrite lookup_insert_ne; [exact Href | exact Hne].
  - intros l Hl. cbn. apply lookup_insert_ne. intros E. apply Hl. now rewrite <- E.
  - cbn. apply lookup_insert_eq.
Qed.

(** The frame property on a heap that holds one rating. *)
Lemma updateRating_frame_witness :
  exists h' ref',
    updateRatingObj {[ 1%positive := initializeRating (lit "m1") (lit "k") 0 ]}
                    1%positive Positive 5 = Some (h', ref')
    /\ ref' <> 1%positive
    /\ h' !! 1%positive = Some (initializeRating (lit "m1") (lit "k") 0).
Proof.
  destruct (updateRating_frame
              {[ 1%positive := initializeRating (lit "m1") (lit "k") 0 ]}
              1%positive (initializeRating (lit "m1") (lit "k") 0) Positive 5)
    as (h' & ref' & H1 & H2 & _ & H4 & _).
  - apply lookup_singleton_eq.
  - exists h', ref'. auto.
Defined.

End TrueSkillProps.

(** ** Arrays and maps *)

Section ArrayFacts.
Context {A : Type}.

Lemma slice_last_suffix (n : nat) (l : list A) :
  l = firstn (length l - n) l ++ slice_last n l.
Proof. unfold slice_last. now rewrite firstn_skipn. Qed.

Lemma slice_last_length (n : nat) (l : list A) :
  length (slice_last n l) = Nat.min n (length l).
Proof. unfold slice_last. rewrite length_skipn. lia. Qed.

Lemma slice_last_short (n : nat) (l : list A) :
  (length l <= n)%nat -> slice_last n l = l.
Proof.
  intros Hle. unfold slice_last.
  replace (length l - n)%nat with 0%nat by lia. reflexivity.
Qed.

(** Truncating, appending and truncating again keeps what truncating once
    at the end keeps. *)
Lemma slice_last_app (n : nat) (l more : list A) :
  slice_last n (slice_last n l ++ more) = slice_last n (l ++ more).
Proof.
  destruct (Nat.le_gt_cases (length l) n) as [Hle | Hgt].
  - rewrite (slice_last_short n l) by exact Hle. reflexivity.
  - pose proof (slice_last_suffix n l) as Hsplit.
    pose proof (slice_last_length n l) as Hlen.
    set (suf := slice_last n l) in *. set (pre := firstn (length l - n) l) in *.
    assert (Hpre : length pre = (length l - n)%nat)
      by (unfold pre; rewrite length_firstn; lia).
    clearbody pre suf. subst l. rewrite <- app_assoc.
    rewrite length_app in Hgt, Hlen, Hpre.
    assert (Hn : length suf = n) by lia.
    unfold slice_last. rewrite !length_app, Hn.
    rewrite (skipn_app _ pre).
    rewrite skipn_all2 with (l := pre) by lia. cbn [app].
    f_equal. lia.
Qed.

Lemma remove_at_length (idx : nat) (l : list A) :
  (idx < length l)%nat -> S (length (remove_at idx l)) = length l.
Proof.
  revert idx. induction l as [| h t IH]; intros [| i] Hlt; cbn in *; try lia.
  rewrite IH; lia.
Qed.

(** Taking the element at an index out of an array leaves the array up to
    the order of its elements. *)
Lemma remove_at_perm (idx : nat) (l : list A) (d : A) :
  (idx < length l)%nat -> Permutation (nth idx l d :: remove_at idx l) l.
Proof.
  revert idx. induction l as [| h t IH]; intros [| i] Hlt; cbn in *; try lia.
  - reflexivity.
  - rewrite perm_swap. constructor. apply IH. lia.
Qed.

End ArrayFacts.

Section MapFacts.
Context {V : Type}.

Lemma mapGet_set_eq (k : jsstring) (v : V) (m : JSMap V) :
  mapGet k (mapSet k v m) = Some v.
Proof.
  induction m as [| [k' v'] t IH]; cbn.
  - now rewrite bool_decide_eq_true_2.
  - destruct (bool_decide (k = k')) eqn:E; cbn.
    + now rewrite bool_decide_eq_true_2.
    + now rewrite E.
Qed.

Lemma mapGet_set_ne (k k' : jsstring) (v : V) (m : JSMap V) :
  k <> k' -> mapGet k' (mapSet k v m) = mapGet k' m.
Proof.
  intros Hne. induction m as [| [k0 v0] t IH]; cbn.
  - rewrite bool_decide_eq_false_2; [reflexivity | congruence].
  - destruct (bool_decide (k = k0)) eqn:E; cbn.
    + apply bool_decide_eq_true_1 in E. subst k0.
      rewrite !bool_decide_eq_false_2 by congruence. reflexivity.
    + now rewrite IH.
Qed.

End MapFacts.

(** ** Learning loop *)

Module LearningProps.
Import TrueSkill Learning Observe.

Lemma makeRatingKey_inj_l (m m' k : jsstring) :
  makeRatingKey m k = makeRatingKey m' k -> m = m'.
Proof. unfold makeRatingKey. apply app_inv_tail. Qed.

Lemma usesAt_set_eq (key : jsstring) (r : MemoryRating) (ratings : JSMap MemoryRating) :
  usesAt key (mapSet key r ratings) = uses r.
Proof. unfold usesAt. now rewrite mapGet_set_eq. Qed.

Lemma usesAt_set_ne (key key' : jsstring) (r : MemoryRating) (ratings : JSMap MemoryRating) :
  key <> key' -> usesAt key' (mapSet key r ratings) = usesAt key' ratings.
Proof. intros Hne. unfold usesAt. now rewrite mapGet_set_ne. Qed.

(** One iteration: the rating under the entry's key has one more use, the
    other ratings are as before, and one record is appended to the log. *)
Lemma feedbackStep_effect (kid cid : jsstring) (o : Oracle)
    (ratings : JSMap MemoryRating) (ints : list MemoryInteraction)
    (m : jsstring) (reward : Reward) :
  let st := feedbackStep kid cid o (ratings, ints) (m, reward) in
  usesAt (makeRatingKey m kid) st.1 = (usesAt (makeRatingKey m kid) ratings + 1)%Z
  /\ (forall key, key <> makeRatingKey m kid -> mapGet key st.1 = mapGet key ratings)
  /\ st.2 = ints ++ [mkInteraction (o_uuid o) m kid cid reward (o_loggedAt o)].
Proof.
  cbn. repeat split.
  - rewrite usesAt_set_eq. unfold usesAt.
    destruct (mapGet (makeRatingKey m kid) ratings); reflexivity.
  - intros key Hne. apply mapGet_set_ne. congruence.
Qed.

Lemma feedbackLoop_log (kid cid : jsstring) (oracle : nat -> Oracle)
    (rewards : list (jsstring * Reward)) :
  forall i ratings ints,
    (feedbackLoop kid cid oracle i rewards (ratings, ints)).2
    = ints ++ logged kid cid oracle i rewards.
Proof.
  induction rewards as [| [m reward] rest IH]; intros i ratings ints.
  - cbn. now rewrite app_nil_r.
  - cbn [feedbackLoop logged]. cbn [feedbackStep].
    rewrite IH. now rewrite <- app_assoc.
Qed.

Lemma feedbackLoop_uses (kid cid : jsstring) (oracle : nat -> Oracle)
    (rewards : list (jsstring * Reward)) (m : jsstring) :
  forall i ratings ints,
    usesAt (makeRatingKey m kid) (feedbackLoop kid cid oracle i rewards (ratings, ints)).1
    = (usesAt (makeRatingKey m kid) ratings
       + Z.of_nat (occurrences m (List.map fst rewards)))%Z.
Proof.
  induction rewards as [| [m' reward] rest IH]; intros i ratings ints.
  - cbn. lia.
  - cbn [feedbackLoop]. 
    destruct (feedbackStep_effect kid cid (oracle i) ratings ints m' reward)
      as (Hsame & Hother & _).
    destruct (feedbackStep kid cid (oracle i) (ratings, ints) (m', reward))
      as [ratings1 ints1] eqn:Hstep.
    rewrite IH. cbn [fst snd] in *.
    unfold occurrences. cbn [List.map fst List.filter].
    destruct (bool_decide (m' = m)) eqn:E.
    + apply bool_decide_eq_true_1 in E. subst m'.
      rewrite Hsame. cbn [length]. lia.
    + apply bool_decide_eq_false_1 in E.
      unfold usesAt at 1. rewrite Hother.
      * fold (usesAt (makeRatingKey m kid) ratings). lia.
      * intros Hk. apply E. symmetry. now apply makeRatingKey_inj_l in Hk.
Qed.

Lemma feedbackLoop_other (kid cid : jsstring) (oracle : nat -> Oracle)
    (rewards : list (jsstring * Reward)) (key : jsstring) :
  (forall m, In m (List.map fst rewards) -> key <> makeRatingKey m kid) ->
  forall i ratings ints,
    mapGet key (feedbackLoop kid cid oracle i rewards (ratings, ints)).1
    = mapGet key ratings.
Proof.
  induction rewards as [| [m' reward] rest IH]; intros Hkey i ratings ints.
  - reflexivity.
  - cbn [feedbackLoop].
    destruct (feedbackStep_effect kid cid (oracle i) ratings ints m' reward)
      as (_ & Hother & _).
    destruct (feedbackStep kid cid (oracle i) (ratings, ints) (m', reward))
      as [ratings1 ints1] eqn:Hstep.
    rewrite IH.
    + apply Hother. apply Hkey. now left.
    + intros m Hin. apply Hkey. now right.
Qed.

(** *** Saving a table and loading it again *)

Lemma mapSet_fresh {V} (k : jsstring) (v : V) (m : JSMap V) :
  ~ In k (List.map fst m) -> mapSet k v m = m ++ [(k, v)].
Proof.
  induction m as [| [k' v'] t IH]; intros Hnin; cbn.
  - reflexivity.
  - cbn in Hnin. rewrite bool_decide_eq_false_2 by (intros E; apply Hnin; now left).
    rewrite IH; [reflexivity | intros Hin; apply Hnin; now right].
Qed.

Lemma mapSet_keys_present {V} (k : jsstring) (v : V) (m : JSMap V) :
  In k (List.map fst m) -> List.map fst (mapSet k v m) = List.map fst m.
Proof.
  induction m as [| [k' v'] t IH]; intros Hin; cbn in *.
  - contradiction.
  - destruct (bool_decide (k = k')) eqn:E; cbn.
    + apply bool_decide_eq_true_1 in E. now subst.
    + apply bool_decide_eq_false_1 in E. f_equal. apply IH.
      destruct Hin as [Hin | Hin]; [congruence | exact Hin].
Qed.

Lemma mapGet_In_keys {V} (k : jsstring) (m : JSMap V) :
  In k (List.map fst m) <-> is_Some (mapGet k m).
Proof.
  induction m as [| [k' v'] t IH]; cbn.
  - split; [contradiction | intros [x Hx]; discriminate].
  - destruct (bool_decide (k = k')) eqn:E.
    + apply bool_decide_eq_true_1 in E. split; [eauto | intros _; now left].
    + apply bool_decide_eq_false_1 in E. rewrite <- IH.
      split; [intros [H | H]; [congruence | exact H] | now right].
Qed.

Lemma mapGet_In {V} (k : jsstring) (v : V) (m : JSMap V) :
  mapGet k m = Some v -> In (k, v) m.
Proof.
  induction m as [| [k' v'] t IH]; cbn; [discriminate |].
  destruct (bool_decide (k = k')) eqn:E.
  - apply bool_decide_eq_true_1 in E. intros [= ->]. subst. now left.
  - intros H. right. now apply IH.
Qed.

Lemma mapSet_In {V} (k : jsstring) (v : V) (m : JSMap V) (e : jsstring * V) :
  In e (mapSet k v m) -> e = (k, v) \/ In e m.
Proof.
  induction m as [| [k' v'] t IH]; cbn.
  - intros [H | []]. now left.
  - destruct (bool_decide (k = k')); cbn.
    + intros [H | H]; [now left | right; now right].
    + intros [H | H]; [right; now left |].
      destruct (IH H) as [H' | H']; [now left | right; now right].
Qed.

Lemma mapSet_NoDup {V} (k : jsstring) (v : V) (m : JSMap V) :
  NoDup (List.map fst m) -> NoDup (List.map fst (mapSet k v m)).
Proof.
  intros Hnd.
  destruct (mapGet k m) as [x |] eqn:Hget.
  - rewrite mapSet_keys_present; [exact Hnd | apply mapGet_In_keys; eauto].
  - assert (Hnin : ~ In k (List.map fst m)).
    { intros Hin. apply mapGet_In_keys in Hin. rewrite Hget in Hin.
      destruct Hin as [y Hy]. discriminate. }
    rewrite mapSet_fresh by exact Hnin.
    rewrite map_app. cbn. apply NoDup_app. repeat split.
    + exact Hnd.
    + intros x Hx Hk. apply list_elem_of_In in Hx, Hk.
      destruct Hk as [Hk | []]. subst. exact (Hnin Hx).
    + apply NoDup_singleton.
Qed.

Lemma wellKeyed_set (key : jsstring) (r : MemoryRating) (ratings : JSMap MemoryRating) :
  key = makeRatingKey (memoryId r) (kernelId r) ->
  wellKeyed ratings -> wellKeyed (mapSet key r ratings).
Proof.
  intros Hkey [Hall Hnd]. split.
  - apply List.Forall_forall. intros e He.
    destruct (mapSet_In _ _ _ _ He) as [-> | Hin]; [exact Hkey |].
    rewrite List.Forall_forall in Hall. now apply Hall.
  - now apply mapSet_NoDup.
Qed.

Lemma rebuild_wellKeyed (array : list MemoryRating) :
  forall acc, wellKeyed acc -> wellKeyed (rebuild acc array).
Proof.
  induction array as [| r rest IH]; intros acc Hacc; cbn.
  - exact Hacc.
  - apply IH. now apply wellKeyed_set.
Qed.

Lemma rebuild_values (ratings : JSMap MemoryRating) :
  forall acc,
    wellKeyed (acc ++ ratings) ->
    rebuild acc (mapValues ratings) = acc ++ ratings.
Proof.
  induction ratings as [| [k r] rest IH]; intros acc [Hall Hnd]; cbn.
  - now rewrite app_nil_r.
  - assert (Hk : k = makeRatingKey (memoryId r) (kernelId r)).
    { rewrite List.Forall_forall in Hall. apply (Hall (k, r)).
      apply in_or_app. right. now left. }
    rewrite <- Hk. rewrite mapSet_fresh.
    + replace (acc ++ (k, r) :: rest) with ((acc ++ [(k, r)]) ++ rest)
        by (now rewrite <- app_assoc).
      apply IH. rewrite <- app_assoc. now split.
    + rewrite map_app in Hnd. cbn in Hnd.
      apply NoDup_app in Hnd. destruct Hnd as (_ & Hdisj & _).
      intros Hin. apply (Hdisj k).
      * now apply list_elem_of_In.
      * apply list_elem_of_In. now left.
Qed.

Lemma feedbackLoop_wellKeyed (kid cid : jsstring) (oracle : nat -> Oracle)
    (rewards : list (jsstring * Reward)) :
  forall i ratings ints,
    wellKeyed ratings ->
    wellKeyed (feedbackLoop kid cid oracle i rewards (ratings, ints)).1.
Proof.
  induction rewards as [| [m reward] rest IH]; intros i ratings ints Hwk.
  - exact Hwk.
  - cbn [feedbackLoop feedbackStep]. apply IH.
    apply wellKeyed_set; [| exact Hwk].
    destruct (mapGet (makeRatingKey m kid) ratings) as [r |] eqn:Hget.
    + apply mapGet_In in Hget. destruct Hwk as [Hall _].
      rewrite List.Forall_forall in Hall. exact (Hall _ Hget).
    + reflexivity.
Qed.

Lemma loadRatings_wellKeyed (backend : Backend) (pid : jsstring) :
  exists ratings,
    loadRatings (Some backend) pid = Returned ratings /\ wellKeyed ratings.
Proof.
  assert (Hnil : wellKeyed []) by (split; constructor).
  unfold loadRatings.
  destruct (ratingsTable backend !! pid) as [[array |] |].
  - exists (rebuild [] array). split; [reflexivity | now apply rebuild_wellKeyed].
  - now exists [].
  - now exists [].
Qed.

(** A well-keyed table that is saved and loaded again is the same table. *)
Lemma load_after_save (backend : Backend) (pid : jsstring) (ratings : JSMap MemoryRating) :
  wellKeyed ratings ->
  exists saved,
    saveRatings (Some backend) pid ratings = Returned saved
    /\ loadRatings (Some saved) pid = Returned ratings
    /\ interactionsTable saved = interactionsTable backend.
Proof.
  intros Hwk. eexists. split; [reflexivity |]. split; [| reflexivity].
  unfold loadRatings. cbn [ratingsTable]. rewrite lookup_insert_eq.
  f_equal. now apply (rebuild_values ratings []).
Qed.

Lemma loadInteractions_total (backend : Backend) (pid : jsstring) :
  loadInteractions (Some backend) pid = Returned (logStored backend pid).
Proof.
  unfold logStored, loadInteractions.
  now destruct (interactionsTable backend !! pid) as [[l |] |].
Qed.

(** The effect of [applyFeedback] on an initialised storage, read back
    through the loaders. *)
Lemma applyFeedback_effect (backend : Backend) (pid kid cid : jsstring)
    (rewards : list (jsstring * Reward)) (oracle : nat -> Oracle) :
  exists backend',
    applyFeedback (Some backend) pid kid cid rewards oracle = Returned backend'
    /\ logStored backend' pid
       = slice_last 1000 (logStored backend pid ++ logged kid cid oracle 0 rewards)
    /\ (forall m,
          usesStored backend' pid (makeRatingKey m kid)
          = (usesStored backend pid (makeRatingKey m kid)
             + Z.of_nat (occurrences m (List.map fst rewards)))%Z)
    /\ (forall key,
          (forall m, In m (List.map fst rewards) -> key <> makeRatingKey m kid) ->
          usesStored backend' pid key = usesStored backend pid key).
Proof.
  destruct (loadRatings_wellKeyed backend pid) as (ratings & Hload & Hwk).
  pose proof (loadInteractions_total backend pid) as Hints.
  pose proof (feedbackLoop_wellKeyed kid cid oracle rewards 0 ratings
                (logStored backend pid) Hwk) as Hwk'.
  pose proof (feedbackLoop_log kid cid oracle rewards 0 ratings
                (logStored backend pid)) as Hlog.
  pose proof (fun m => feedbackLoop_uses kid cid oracle rewards m 0 ratings
                (logStored backend pid)) as Huses.
  pose proof (fun key H => feedbackLoop_other kid cid oracle rewards key H 0 ratings
                (logStored backend pid)) as Hother.
  destruct (feedbackLoop kid cid oracle 0 rewards (ratings, logStored backend pid))
    as [ratings' ints'] eqn:Hloop.
  cbn [fst snd] in *.
  destruct (load_after_save backend pid ratings' Hwk') as (saved & Hsave & Hreload & Hsame).
  exists {| ratingsTable := ratingsTable saved;
            interactionsTable := <[pid := Json (slice_last 1000 ints')]> (interactionsTable saved) |}.
  split.
  - unfold applyFeedback. rewrite Hload, Hints. cbn [mbind Outcome_bind bind].
    rewrite Hloop, Hsave. reflexivity.
  - assert (Hread : forall key,
               usesStored {| ratingsTable := ratingsTable saved;
                             interactionsTable :=
                               <[pid := Json (slice_last 1000 ints')]> (interactionsTable saved) |}
                          pid key = usesAt key ratings').
    { intros key. unfold usesStored.
      change (loadRatings (Some {| ratingsTable := ratingsTable saved;
                                   interactionsTable := _ |}) pid)
        with (loadRatings (Some saved) pid).
      now rewrite Hreload. }
    assert (Hread0 : forall key, usesStored backend pid key = usesAt key ratings).
    { intros key. unfold usesStored. now rewrite Hload. }
    repeat split.
    + unfold logStored at 1, loadInteractions. cbn [interactionsTable].
      rewrite lookup_insert_eq. now rewrite Hlog.
    + intros m. rewrite Hread, Hread0. apply Huses.
    + intros key Hkey. rewrite Hread, Hread0. unfold usesAt. now rewrite Hother.
Qed.

Lemma logged_positive (kid cid : jsstring) (oracle : nat -> Oracle) (ids : list jsstring) :
  forall i,
    let log := logged kid cid oracle i (List.map (fun m => (m, Positive)) ids) in
    List.map i_memoryId log = ids
    /\ Forall (fun x => i_reward x = Positive /\ i_kernelId x = kid /\ i_contextId x = cid) log.
Proof.
  induction ids as [| m rest IH]; intros i; cbn.
  - split; [reflexivity | constructor].
  - destruct (IH (S i)) as [Hids Hall]. split.
    + now rewrite Hids.
    + constructor; [repeat split | exact Hall].
Qed.

(** C7 (S5).  [recordUsage] is [applyFeedback] on the rewards that give +1
    to every identifier in order.  On an initialised storage it returns, the
    stored log is the old log followed by one interaction with reward +1 per
    identifier (cut to the last 1000 by the save), and the [uses] counter of
    the rating of each identifier grows by one for each occurrence of the
    identifier: by exactly one when it occurs once, while the counters
    under other keys are as before.  With no storage both calls throw. *)
Theorem recordUsage_as_feedback (backend : Backend) (pid kid cid : jsstring)
    (memoryIds : list jsstring) (oracle : nat -> Oracle) :
  let rewards := List.map (fun memoryId => (memoryId, Positive)) memoryIds in
  (forall storage,
      recordUsage storage pid kid cid memoryIds oracle
      = applyFeedback storage pid kid cid rewards oracle)
  /\ recordUsage None pid kid cid memoryIds oracle = Thrown NOT_INITIALIZED
  /\ exists backend',
      recordUsage (Some backend) pid kid cid memoryIds oracle = Returned backend'
      /\ logStored backend' pid
         = slice_last 1000 (logStored backend pid ++ logged kid cid oracle 0 rewards)
      /\ List.map i_memoryId (logged kid cid oracle 0 rewards) = memoryIds
      /\ Forall (fun x => i_reward x = Positive /\ i_kernelId x = kid /\ i_contextId x = cid)
                (logged kid cid oracle 0 rewards)
      /\ (forall m,
            usesStored backend' pid (makeRatingKey m kid)
            = (usesStored backend pid (makeRatingKey m kid)
               + Z.of_nat (occurrences m memoryIds))%Z)
      /\ (forall m,
            occurrences m memoryIds = 1%nat ->
            usesStored backend' pid (makeRatingKey m kid)
            = (usesStored backend pid (makeRatingKey m kid) + 1)%Z)
      /\ (forall key,
            (forall m, In m memoryIds -> key <> makeRatingKey m kid) ->
            usesStored backend' pid key = usesStored backend pid key).
Proof.
  cbv zeta.
  set (rewards := List.map (fun memoryId => (memoryId, Positive)) memoryIds).
  assert (Hfst : List.map fst rewards = memoryIds).
  { unfold rewards. rewrite List.map_map. cbn. apply List.map_id. }
  split; [reflexivity |]. split; [reflexivity |].
  destruct (applyFeedback_effect backend pid kid cid rewards oracle)
    as (backend' & Hrun & Hlog & Huses & Hother).
  rewrite Hfst in Huses, Hother.
  destruct (logged_positive kid cid oracle memoryIds 0) as [Hids Hall].
  exists backend'. repeat split.
  - exact Hrun.
  - exact Hlog.
  - exact Hids.
  - exact Hall.
  - exact Huses.
  - intros m Hone. rewrite Huses, Hone. reflexivity.
  - exact Hother.
Qed.

(** Scenario S5: [recordUsage] for two memories on an empty storage leaves
    two interactions with reward +1 and a [uses] counter of 1 for each. *)
Lemma recordUsage_as_feedback_witness :
  let p := lit "profile" in
  let k := lit "thread-1" in
  let c := lit "turn-1" in
  let oracle := fun i : nat => mkOracle (lit "uuid") 0 0 0 in
  exists backend',
    recordUsage (Some (mkBackend ∅ ∅)) p k c [lit "m1"; lit "m2"] oracle = Returned backend'
    /\ List.map (fun x => (i_memoryId x, i_reward x)) (logStored backend' p)
       = [(lit "m1", Positive); (lit "m2", Positive)]
    /\ usesStored backend' p (makeRatingKey (lit "m1") k) = 1%Z
    /\ usesStored backend' p (makeRatingKey (lit "m2") k) = 1%Z.
Proof.
  cbv zeta.
  destruct (recordUsage_as_feedback (mkBackend ∅ ∅) (lit "profile") (lit "thread-1")
              (lit "turn-1") [lit "m1"; lit "m2"]
              (fun _ => mkOracle (lit "uuid") 0 0 0))
    as (_ & _ & backend' & Hrun & Hlog & _ & _ & _ & Hone & _).
  exists backend'. split; [exact Hrun |]. split; [| split].
  - rewrite Hlog. reflexivity.
  - rewrite Hone by reflexivity. reflexivity.
  - rewrite Hone by reflexivity. reflexivity.
Defined.

(** C8 (S6).  [saveInteractions] stores the last 1000 records of the list
    it is given, in their order: the list is the dropped records followed
    by the stored ones, exactly 1000 are stored when the list is longer, and
    a list of at most 1000 records is stored whole.  Reading the log back,
    appending and saving again keeps the last 1000 of all the records
    written so far. *)
Theorem saveInteractions_keeps_last_1000 (backend : Backend) (pid : jsstring)
    (interactions : list MemoryInteraction) :
  exists backend' dropped stored,
    saveInteractions (Some backend) pid interactions = Returned backend'
    /\ ratingsTable backend' = ratingsTable backend
    /\ interactionsTable backend' !! pid = Some (Json stored)
    /\ logStored backend' pid = stored
    /\ interactions = dropped ++ stored
    /\ length stored = Nat.min 1000 (length interactions)
    /\ length dropped = (length interactions - 1000)%nat
    /\ (forall more,
          slice_last 1000 (logStored backend' pid ++ more)
          = slice_last 1000 (interactions ++ more)).
Proof.
  exists {| ratingsTable := ratingsTable backend;
            interactionsTable :=
              <[pid := Json (slice_last 1000 interactions)]> (interactionsTable backend) |},
         (firstn (length interactions - 1000) interactions),
         (slice_last 1000 interactions).
  assert (Hlog : logStored
                   {| ratingsTable := ratingsTable backend;
                      interactionsTable :=
                        <[pid := Json (slice_last 1000 interactions)]>
                          (interactionsTable backend) |} pid
                 = slice_last 1000 interactions).
  { unfold logStored, loadInteractions. cbn [interactionsTable].
    now rewrite lookup_insert_eq. }
  repeat split.
  - cbn [interactionsTable]. apply lookup_insert_eq.
  - exact Hlog.
  - apply slice_last_suffix.
  - apply slice_last_length.
  - rewrite length_firstn. lia.
  - intros more. rewrite Hlog. apply slice_last_app.
Qed.

(** *** Sequential writes *)

Lemma feedbackSequence_log (pid : jsstring) (calls : list FeedbackCall) :
  forall backend,
    (length (logStored backend pid) <= 1000)%nat ->
    exists backend',
      feedbackSequence backend pid calls = Returned backend'
      /\ logStored backend' pid
         = slice_last 1000 (logStored backend pid ++ loggedBy calls).
Proof.
  induction calls as [| c rest IH]; intros backend Hlen.
  - exists backend. split; [reflexivity |]. cbn. rewrite app_nil_r.
    now rewrite slice_last_short.
  - destruct (applyFeedback_effect backend pid (c_kernelId c) (c_contextId c)
                (c_rewards c) (c_oracle c)) as (b1 & Hrun & Hlog & _).
    destruct (IH b1) as (b2 & Hseq & Hlog2).
    + rewrite Hlog, slice_last_length. lia.
    + exists b2. cbn [feedbackSequence]. rewrite Hrun. split; [exact Hseq |].
      rewrite Hlog2, Hlog, slice_last_app.
      unfold loggedBy. cbn [List.map concat]. now rewrite <- app_assoc.
Qed.

Lemma loggedBy_length (calls : list FeedbackCall) :
  Forall (fun c => length (c_rewards c) = 1%nat) calls ->
  length (loggedBy calls) = length calls.
Proof.
  induction 1 as [| c rest Hc _ IH]; [reflexivity |].
  unfold loggedBy in *. cbn [List.map concat]. rewrite length_app, IH.
  destruct (c_rewards c) as [| [m r] [| e t]]; cbn in Hc; try discriminate.
  reflexivity.
Qed.

(** The scenario of S6: 1500 interactions written one call at a time to an
    empty log leave the last 1000 of them, in the order written. *)
Lemma capacity_scenario (backend : Backend) (pid : jsstring) (calls : list FeedbackCall) :
  logStored backend pid = [] ->
  Forall (fun c => length (c_rewards c) = 1%nat) calls ->
  length calls = 1500%nat ->
  exists backend',
    feedbackSequence backend pid calls = Returned backend'
    /\ logStored backend' pid = skipn 500 (loggedBy calls)
    /\ length (logStored backend' pid) = 1000%nat.
Proof.
  intros Hempty Hone Hlen.
  destruct (feedbackSequence_log pid calls backend) as (b & Hseq & Hlog).
  - rewrite Hempty. cbn. lia.
  - exists b. split; [exact Hseq |].
    rewrite Hempty in Hlog. cbn [app] in Hlog.
    pose proof (loggedBy_length calls Hone) as Hl.
    assert (Hskip : logStored b pid = skipn 500 (loggedBy calls)).
    { rewrite Hlog. unfold slice_last. rewrite Hl, Hlen. reflexivity. }
    split; [exact Hskip |].
    rewrite Hskip, length_skipn, Hl, Hlen. reflexivity.
Qed.

End LearningProps.

(** ** Signal calculators and composite utility *)

Module SelectorProps.
Import Tokenizer BM25 SignalCalc TrueSkill Diversity Selector.
Local Open Scope R_scope.

Lemma ratio_unit (x y : R) : 0 <= x <= y -> 0 < y -> 0 <= x / y <= 1.
Proof.
  intros [H0 Hxy] Hy.
  assert (Hinv : 0 < / y) by now apply Rinv_0_lt_compat.
  split.
  - apply Rmult_le_pos; lra.
  - apply (Rmult_le_reg_r y); [exact Hy |].
    unfold Rdiv. rewrite Rmult_assoc, Rinv_l by lra. lra.
Qed.

Lemma exp_nonpos (x : R) : x <= 0 -> 0 < exp x <= 1.
Proof.
  intros Hx. split; [apply exp_pos |].
  rewrite <- exp_0. destruct Hx as [Hlt | ->]; [| lra].
  left. now apply exp_increasing.
Qed.

Lemma normalizeImportance_unit (importance : R) :
  0 <= normalizeImportance importance <= 1.
Proof. apply clamp_bounds. lra. Qed.

Lemma mappedThompson_unit (thompsonScore : R) :
  0 <= mappedThompson thompsonScore <= 1.
Proof. apply clamp_bounds. lra. Qed.

Lemma calculateRecencyBoost_unit (timestamp now : Z) :
  0 <= calculateRecencyBoost timestamp 14 now <= 1.
Proof.
  unfold calculateRecencyBoost. cbv zeta.
  set (age := Rmax 0 (IZR now - IZR timestamp)).
  assert (Hage : 0 <= age) by apply Rmax_l.
  destruct (exp_nonpos (- age / (14 * 24 * 3600 * 1000))) as [Hpos Hle].
  - unfold Rdiv.
    assert (0 < / (14 * 24 * 3600 * 1000)) by (apply Rinv_0_lt_compat; lra).
    nra.
  - lra.
Qed.

Section WithLowerCase.
Variable toLowerCase : jsstring -> jsstring.

(** The loop that counts matching keywords adds at most one per keyword. *)
Lemma matches_le (P : jsstring -> bool) (l : list jsstring) :
  forall c,
    (c <= fold_left (fun matches keyword => if P keyword then S matches else matches) l c
       <= c + length l)%nat.
Proof.
  induction l as [| k t IH]; intros c; cbn [fold_left length].
  - lia.
  - destruct (P k); [specialize (IH (S c)) | specialize (IH c)]; lia.
Qed.

Lemma calculateTagRelevance_unit (memoryTags kernelKeywords : list jsstring) :
  0 <= calculateTagRelevance toLowerCase memoryTags kernelKeywords <= 1.
Proof.
  unfold calculateTagRelevance.
  destruct memoryTags as [| t ts]; [lra |].
  destruct kernelKeywords as [| k ks]; [lra |].
  cbv zeta.
  set (P := fun keyword =>
              bool_decide (toLowerCase keyword ∈
                (list_to_set (List.map toLowerCase (t :: ts)) : gset jsstring))).
  pose proof (matches_le P (k :: ks) 0) as [_ Hle].
  apply ratio_unit.
  - split; [apply pos_INR | apply le_INR; exact Hle].
  - apply lt_0_INR. cbn. lia.
Qed.

Lemma calculateCentrality_unit (memory : MemoryChunk) (kernelKeywords : list jsstring) :
  0 <= calculateCentrality toLowerCase memory kernelKeywords <= 1.
Proof.
  unfold calculateCentrality. cbv zeta.
  set (degree := match associations memory with Some a => length a | None => 0%nat end).
  pose proof (pos_INR degree) as Hd.
  split; [| apply Rmin_l].
  apply Rmin_glb; [lra |].
  destruct (existsb _ (tags memory)); nra.
Qed.

(** The lexical signal is non-negative; it has no upper bound. *)
Lemma lexical_nonneg (bm25Score : R) :
  0 <= (if Rlt_dec 0 bm25Score then ln (1 + bm25Score) / 5 else 0).
Proof.
  destruct (Rlt_dec 0 bm25Score) as [Hpos | _]; [| lra].
  assert (0 < ln (1 + bm25Score)).
  { rewrite <- ln_1. apply ln_increasing; lra. }
  lra.
Qed.

Lemma lexical_le_1 (bm25Score : R) :
  bm25Score <= exp 5 - 1 ->
  (if Rlt_dec 0 bm25Score then ln (1 + bm25Score) / 5 else 0) <= 1.
Proof.
  intros Hle. destruct (Rlt_dec 0 bm25Score) as [Hpos | _]; [| lra].
  assert (ln (1 + bm25Score) <= 5); [| lra].
  rewrite <- (ln_exp 5).
  destruct (Req_dec (1 + bm25Score) (exp 5)) as [-> | Hne]; [lra |].
  left. apply ln_increasing; lra.
Qed.

(** C1 (T1), amended.  For every memory, kernel, BM25 score, Thompson
    sample and clock value, the signals importance, tagRelevance, recency
    and centrality and the mapped Thompson value lie in [0,1]; the lexical
    signal is non-negative; the composite total is at least 0 and at most
    0.70 + 0.30 * lexical, so it lies in [0,1] whenever the BM25 score is at
    most e^5 - 1. *)
Theorem calculateUtility_bounds (memory : MemoryChunk) (kernel : PromptKernel)
    (bm25Score thompsonScore : R) (now : Z) :
  let total := (calculateUtility toLowerCase memory kernel bm25Score thompsonScore now).1 in
  let signals := (calculateUtility toLowerCase memory kernel bm25Score thompsonScore now).2 in
  (0 <= s_importance signals <= 1)
  /\ (0 <= s_tagRelevance signals <= 1)
  /\ (0 <= s_recency signals <= 1)
  /\ (0 <= s_centrality signals <= 1)
  /\ (0 <= mappedThompson thompsonScore <= 1)
  /\ (0 <= s_lexicalScore signals)
  /\ (0 <= total <= 0.70 + 0.30 * s_lexicalScore signals)
  /\ (bm25Score <= exp 5 - 1 -> 0 <= total <= 1).
Proof.
  cbv zeta. unfold calculateUtility. cbn [fst snd s_importance s_tagRelevance
    s_recency s_centrality s_lexicalScore].
  pose proof (normalizeImportance_unit (importance memory)) as Hi.
  pose proof (calculateTagRelevance_unit (tags memory) (k_keywords kernel)) as Ht.
  pose proof (calculateRecencyBoost_unit (timestamp memory) now) as Hr.
  pose proof (calculateCentrality_unit memory (k_keywords kernel)) as Hc.
  pose proof (mappedThompson_unit thompsonScore) as Hm.
  pose proof (lexical_nonneg bm25Score) as Hl.
  unfold W_IMPORTANCE, W_TAG_RELEVANCE, W_LEXICAL, W_RECENCY, W_CENTRALITY, W_THOMPSON.
  set (lexical := if Rlt_dec 0 bm25Score then ln (1 + bm25Score) / 5 else 0) in *.
  pose proof (lexical_le_1 bm25Score) as Hl1. fold lexical in Hl1.
  do 7 (split; [lra |]).
  intros Hb. specialize (Hl1 Hb). lra.
Qed.

End WithLowerCase.

(** *** A composite score above 1 *)

Lemma exp_5_lt_251 : exp 5 < 251.
Proof.
  replace 5 with (1 + 1 + 1 + 1 + 1) by lra.
  rewrite !exp_plus.
  pose proof exp_le_3 as H3. pose proof (exp_pos 1) as Hp.
  set (a := exp 1) in *.
  assert (H2 : a * a <= 9) by nra.
  assert (H4 : a * a * a * a <= 81) by nra.
  assert (0 <= a * a * a * a) by nra.
  nra.
Qed.

Lemma ln_251_gt_5 : 5 < ln 251.
Proof.
  rewrite <- (ln_exp 5) at 1. apply ln_increasing; [apply exp_pos | apply exp_5_lt_251].
Qed.

Import Scenario.

Lemma memoryA_importance : normalizeImportance (importance memoryA) = 1.
Proof. unfold normalizeImportance. cbn. rewrite clamp_inert by lra. lra. Qed.

Lemma memoryA_tagRelevance :
  calculateTagRelevance asciiLower (tags memoryA) (k_keywords kernelS1) = 1.
Proof.
  unfold calculateTagRelevance. cbn [tags memoryA k_keywords kernelS1]. cbv zeta.
  replace (fold_left _ [lit "systems"] 0%nat) with 1%nat by (vm_compute; reflexivity).
  cbn. lra.
Qed.

Lemma memoryA_recency : calculateRecencyBoost (timestamp memoryA) 14 0 = 1.
Proof.
  unfold calculateRecencyBoost. cbn [timestamp memoryA]. cbv zeta.
  replace (Rmax 0 (0 - 0)) with 0 by (symmetry; apply Rmax_left; lra).
  replace (- 0 / (14 * 24 * 3600 * 1000)) with 0 by lra.
  apply exp_0.
Qed.

Lemma memoryA_centrality :
  calculateCentrality asciiLower memoryA (k_keywords kernelS1) = 1.
Proof.
  unfold calculateCentrality. cbv zeta.
  replace (existsb _ (tags memoryA)) with true by (vm_compute; reflexivity).
  cbn [associations memoryA List.map length].
  replace (INR 8 * 1.25 / 10) with 1 by (cbn; lra).
  apply Rmin_left. lra.
Qed.

(** C1, counterexample.  With BM25 score 250 and Thompson sample 1, the
    memory of scenario S1 (importance 10, matching tag, created now, eight
    associations) gets a composite total above 1. *)
Lemma calculateUtility_above_one :
  0 <= 250
  /\ 1 < (calculateUtility asciiLower memoryA kernelS1 250 1 0).1
  /\ ~ (0 <= (calculateUtility asciiLower memoryA kernelS1 250 1 0).1 <= 1).
Proof.
  assert (Hgt : 1 < (calculateUtility asciiLower memoryA kernelS1 250 1 0).1).
  { unfold calculateUtility. cbn [fst].
    rewrite memoryA_importance, memoryA_tagRelevance, memoryA_recency, memoryA_centrality.
    assert (Hm : mappedThompson 1 = 1)
      by (unfold mappedThompson; rewrite clamp_inert by lra; lra).
    rewrite Hm.
    destruct (Rlt_dec 0 250) as [_ | Hn]; [| lra].
    replace (1 + 250) with 251 by lra.
    pose proof ln_251_gt_5.
    unfold W_IMPORTANCE, W_TAG_RELEVANCE, W_LEXICAL, W_RECENCY, W_CENTRALITY, W_THOMPSON.
    lra. }
  split; [lra |]. split; [exact Hgt | lra].
Qed.

Lemma exp_5_gt_6 : 6 < exp 5.
Proof.
  assert (1 + 5 < exp 5) by (apply exp_ineq1; lra). lra.
Qed.

(** The bounds on the memory of scenario S1 with BM25 score 5. *)
Lemma calculateUtility_bounds_witness :
  0 <= (calculateUtility asciiLower memoryA kernelS1 5 1 0).1 <= 1.
Proof.
  destruct (calculateUtility_bounds asciiLower memoryA kernelS1 5 1 0)
    as (_ & _ & _ & _ & _ & _ & _ & Hunit).
  apply Hunit. pose proof exp_5_gt_6. lra.
Defined.

End SelectorProps.

(** ** Lexical scorer *)

Module BM25Props.
Import Tokenizer BM25 Observe.
Local Open Scope R_scope.

(** The term-frequency map counts occurrences. *)
Lemma termFrequencies_count (t : jsstring) (documentTokens : list jsstring) :
  forall acc : gmap jsstring nat,
    default 0%nat
      (fold_left (fun tf token => <[token := (default 0 (tf !! token) + 1)%nat]> tf)
                 documentTokens acc !! t)
    = (default 0 (acc !! t) + occurrences t documentTokens)%nat.
Proof.
  unfold occurrences.
  induction documentTokens as [| x rest IH]; intros acc; cbn [fold_left List.filter].
  - cbn. lia.
  - rewrite IH. destruct (bool_decide (x = t)) eqn:E.
    + apply bool_decide_eq_true_1 in E. subst x.
      rewrite lookup_insert_eq. cbn. lia.
    + apply bool_decide_eq_false_1 in E.
      rewrite lookup_insert_ne by exact E. reflexivity.
Qed.

Lemma occurrences_zero (t : jsstring) (l : list jsstring) :
  ~ In t l -> occurrences t l = 0%nat.
Proof.
  unfold occurrences. induction l as [| x rest IH]; intros Hnin; cbn.
  - reflexivity.
  - rewrite bool_decide_eq_false_2 by (intros ->; apply Hnin; now left).
    apply IH. intros Hin. apply Hnin. now right.
Qed.

Lemma occurrences_pos (t : jsstring) (l : list jsstring) :
  In t l -> (0 < occurrences t l)%nat.
Proof.
  unfold occurrences. induction l as [| x rest IH]; intros Hin; cbn.
  - contradiction.
  - destruct (bool_decide (x = t)) eqn:E; cbn; [lia |].
    apply bool_decide_eq_false_1 in E.
    destruct Hin as [-> | Hin]; [congruence | now apply IH].
Qed.

Lemma termFrequencies_absent (t : jsstring) (d : list jsstring) :
  ~ In t d -> default 0%nat (termFrequencies d !! t) = 0%nat.
Proof.
  intros Hnin. unfold termFrequencies.
  rewrite termFrequencies_count, lookup_empty, occurrences_zero by exact Hnin.
  reflexivity.
Qed.

Lemma termFrequencies_present (t : jsstring) (d : list jsstring) :
  In t d -> (0 < default 0 (termFrequencies d !! t))%nat.
Proof.
  intros Hin. unfold termFrequencies.
  rewrite termFrequencies_count, lookup_empty. cbn.
  now apply occurrences_pos.
Qed.

(** The unique query terms are the query terms. *)
Lemma uniqFrom_In (x : jsstring) (l : list jsstring) :
  forall seen, In x (uniqFrom seen l) <-> In x l /\ ~ In x seen.
Proof.
  induction l as [| y rest IH]; intros seen; cbn.
  - tauto.
  - destruct (bool_decide (y ∈ seen)) eqn:E.
    + apply bool_decide_eq_true_1, list_elem_of_In in E.
      rewrite IH. split.
      * intros [H1 H2]. split; [now right | exact H2].
      * intros [[-> | H1] H2]; [contradiction | now split].
    + apply bool_decide_eq_false_1 in E. rewrite list_elem_of_In in E.
      cbn. rewrite IH. cbn. split.
      * intros [-> | [H1 H2]]; [split; [now left | exact E] |].
        split; [now right | tauto].
      * intros [[-> | H1] H2]; [now left |].
        destruct (decide (y = x)) as [-> | Hne]; [now left |].
        right. split; [exact H1 |]. intros [H | H]; [congruence | contradiction].
Qed.

Lemma uniq_In (x : jsstring) (l : list jsstring) : In x (uniq l) <-> In x l.
Proof. unfold uniq. rewrite uniqFrom_In. cbn. tauto. Qed.

Lemma termScore_add (tf df : gmap jsstring nat) (N docLength : nat) (avg : R)
    (score : R) (term : jsstring) :
  termScore tf df N docLength avg score term
  = score + contribution tf df N docLength avg term.
Proof.
  unfold contribution, termScore.
  destruct (default 0%nat (tf !! term) =? 0)%nat; [lra |].
  destruct (default 0%nat (df !! term) =? 0)%nat; lra.
Qed.

Section Folding.
Variables (tf df : gmap jsstring nat) (N docLength : nat) (avg : R).

Let step := termScore tf df N docLength avg.
Let contrib := contribution tf df N docLength avg.

Lemma fold_termScore_zero (l : list jsstring) :
  (forall t, In t l -> contrib t = 0) ->
  forall s, fold_left step l s = s.
Proof.
  induction l as [| t rest IH]; intros Hall s; cbn [fold_left].
  - reflexivity.
  - unfold step at 2. rewrite termScore_add.
    fold contrib. rewrite (Hall t) by now left.
    rewrite IH; [lra | intros u Hu; apply Hall; now right].
Qed.

Lemma fold_termScore_nonneg (l : list jsstring) :
  (forall t, In t l -> 0 <= contrib t) ->
  forall s, s <= fold_left step l s.
Proof.
  induction l as [| t rest IH]; intros Hall s; cbn [fold_left].
  - lra.
  - unfold step at 2. rewrite termScore_add. fold contrib.
    pose proof (Hall t (or_introl eq_refl)) as Ht.
    pose proof (IH (fun u Hu => Hall u (or_intror Hu)) (s + contrib t)) as Hrest.
    fold step in Hrest. lra.
Qed.

Lemma fold_termScore_pos (l : list jsstring) (t0 : jsstring) :
  (forall t, In t l -> 0 <= contrib t) ->
  In t0 l -> 0 < contrib t0 ->
  forall s, s < fold_left step l s.
Proof.
  induction l as [| t rest IH]; intros Hall Hin Hpos s; cbn [fold_left].
  - contradiction.
  - unfold step at 2. rewrite termScore_add. fold contrib.
    pose proof (Hall t (or_introl eq_refl)) as Ht.
    destruct Hin as [-> | Hin].
    + pose proof (fold_termScore_nonneg rest (fun u Hu => Hall u (or_intror Hu))
                    (s + contrib t0)) as Hrest.
      lra.
    + pose proof (IH (fun u Hu => Hall u (or_intror Hu)) Hin Hpos (s + contrib t)) as Hrest.
      lra.
Qed.

End Folding.

Lemma contribution_absent (tf df : gmap jsstring nat) (N docLength : nat) (avg : R)
    (t : jsstring) :
  default 0%nat (tf !! t) = 0%nat -> contribution tf df N docLength avg t = 0.
Proof. intros H. unfold contribution, termScore. now rewrite H. Qed.

Lemma contribution_unknown (tf df : gmap jsstring nat) (N docLength : nat) (avg : R)
    (t : jsstring) :
  default 0%nat (df !! t) = 0%nat -> contribution tf df N docLength avg t = 0.
Proof.
  intros H. unfold contribution, termScore. rewrite H.
  now destruct (default 0%nat (tf !! t) =? 0)%nat.
Qed.

(** The inverse document frequency is positive while [df <= N]. *)
Lemma idf_pos (N dfv : nat) :
  (dfv <= N)%nat -> 0 < ln ((INR N - INR dfv + 0.5) / (INR dfv + 0.5) + 1).
Proof.
  intros Hle. apply le_INR in Hle. pose proof (pos_INR dfv) as Hd.
  rewrite <- ln_1. apply ln_increasing; [lra |].
  assert (0 < (INR N - INR dfv + 0.5) / (INR dfv + 0.5)); [| lra].
  apply Rdiv_lt_0_compat; lra.
Qed.

(** The term-frequency factor is positive for a term of the document. *)
Lemma tfnorm_pos (termFreq docLength : nat) (avg : R) :
  (0 < termFreq)%nat ->
  0 < INR termFreq * (BM25_K1 + 1)
      / Rmax 1e-6 (INR termFreq
                   + BM25_K1 * (1 - BM25_B + BM25_B * (INR docLength / Rmax 1 avg))).
Proof.
  intros Hpos. apply lt_0_INR in Hpos.
  apply Rdiv_lt_0_compat.
  - unfold BM25_K1. nra.
  - apply Rlt_le_trans with 1e-6; [lra | apply Rmax_l].
Qed.

Lemma contribution_pos (tf df : gmap jsstring nat) (N docLength : nat) (avg : R)
    (t : jsstring) :
  (0 < default 0 (tf !! t))%nat ->
  (0 < default 0 (df !! t) <= N)%nat ->
  0 < contribution tf df N docLength avg t.
Proof.
  intros Htf [Hdf HN]. unfold contribution, termScore.
  destruct (Nat.eqb_spec (default 0%nat (tf !! t)) 0%nat); [lia |].
  destruct (Nat.eqb_spec (default 0%nat (df !! t)) 0%nat); [lia |].
  rewrite Rplus_0_l. apply Rmult_lt_0_compat.
  - now apply idf_pos.
  - now apply tfnorm_pos.
Qed.

Lemma contribution_nonneg (tf df : gmap jsstring nat) (N docLength : nat) (avg : R)
    (t : jsstring) :
  (default 0 (df !! t) <= N)%nat ->
  0 <= contribution tf df N docLength avg t.
Proof.
  intros HN.
  destruct (Nat.eq_dec (default 0%nat (tf !! t)) 0%nat) as [Htf | Htf].
  - rewrite contribution_absent by exact Htf. lra.
  - destruct (Nat.eq_dec (default 0%nat (df !! t)) 0%nat) as [Hdf | Hdf].
    + rewrite contribution_unknown by exact Hdf. lra.
    + left. apply contribution_pos; lia.
Qed.

(** The score is positive as soon as one query term of the document has a
    document frequency between 1 and N and no shared term has one above N. *)
Lemma calculateBM25_positive (queryTokens documentTokens : list jsstring)
    (documentFrequencies : gmap jsstring nat) (totalDocuments : nat) (avgDocLength : R)
    (term : jsstring) :
  In term queryTokens -> In term documentTokens ->
  (0 < default 0 (documentFrequencies !! term) <= totalDocuments)%nat ->
  (forall t, In t queryTokens -> In t documentTokens ->
             (default 0 (documentFrequencies !! t) <= totalDocuments)%nat) ->
  0 < calculateBM25 queryTokens documentTokens documentFrequencies
                    totalDocuments avgDocLength.
Proof.
  intros Hq Hd Hdf Hall. unfold calculateBM25.
  destruct queryTokens as [| q qs]; [contradiction |].
  destruct documentTokens as [| d ds]; [contradiction |].
  apply (fold_termScore_pos _ _ _ _ _ _ term).
  - intros t Ht. apply (proj1 (uniq_In _ _)) in Ht.
    destruct (decide (t ∈ d :: ds)) as [Hin | Hnin].
    + apply list_elem_of_In in Hin. apply contribution_nonneg. now apply Hall.
    + rewrite list_elem_of_In in Hnin.
      rewrite contribution_absent; [lra | now apply termFrequencies_absent].
  - exact (proj2 (uniq_In _ _) Hq).
  - apply contribution_pos; [now apply termFrequencies_present | exact Hdf].
Qed.

(** C4 (T4), amended.  [calculateBM25] returns 0 when the query and the
    document share no token.  It returns a strictly positive value when some
    query term occurs in the document with 0 < df < N and no query term that
    occurs in the document has df > N.  (A shared term whose df is 0, that
    is, one missing from the document-frequency map, is skipped.) *)
Theorem calculateBM25_sign (queryTokens documentTokens : list jsstring)
    (documentFrequencies : gmap jsstring nat) (totalDocuments : nat) (avgDocLength : R) :
  ((forall t, In t queryTokens -> ~ In t documentTokens) ->
   calculateBM25 queryTokens documentTokens documentFrequencies
                 totalDocuments avgDocLength = 0)
  /\ (forall term,
        In term queryTokens -> In term documentTokens ->
        (0 < default 0 (documentFrequencies !! term) < totalDocuments)%nat ->
        (forall t, In t queryTokens -> In t documentTokens ->
                   (default 0 (documentFrequencies !! t) <= totalDocuments)%nat) ->
        0 < calculateBM25 queryTokens documentTokens documentFrequencies
                          totalDocuments avgDocLength).
Proof.
  split.
  - intros Hdisj. unfold calculateBM25.
    destruct queryTokens as [| q qs]; [reflexivity |].
    destruct documentTokens as [| d ds]; [reflexivity |].
    apply fold_termScore_zero. intros t Ht.
    apply contribution_absent, termFrequencies_absent, Hdisj.
    exact (proj1 (uniq_In _ _) Ht).
  - intros term Hq Hd [Hdf HN] Hall.
    apply (calculateBM25_positive _ _ _ _ _ term); try assumption. lia.
Qed.

(** *** Document frequencies of a corpus *)

Section Corpus.
Variable toLowerCase : jsstring -> jsstring.

Lemma uniqFrom_occurrences (t : jsstring) (l : list jsstring) :
  forall seen,
    occurrences t (uniqFrom seen l)
    = if bool_decide (t ∈ l /\ t ∉ seen) then 1%nat else 0%nat.
Proof.
  unfold occurrences.
  induction l as [| x rest IH]; intros seen; cbn [uniqFrom].
  - rewrite bool_decide_eq_false_2; [reflexivity |].
    intros [H _]. now apply elem_of_nil in H.
  - destruct (bool_decide (x ∈ seen)) eqn:E.
    + apply bool_decide_eq_true_1 in E. rewrite IH.
      rewrite (bool_decide_ext (t ∈ rest /\ t ∉ seen) (t ∈ x :: rest /\ t ∉ seen));
        [reflexivity |].
      rewrite elem_of_cons. split; [tauto |].
      intros [[-> | H1] H2]; [contradiction | tauto].
    + apply bool_decide_eq_false_1 in E.
      cbn [List.filter]. destruct (bool_decide (x = t)) eqn:Ext.
      * apply bool_decide_eq_true_1 in Ext. subst x. cbn [length].
        rewrite IH. rewrite bool_decide_eq_false_2.
        -- rewrite bool_decide_eq_true_2; [reflexivity |].
           split; [apply elem_of_cons; now left | exact E].
        -- intros [_ H]. apply H. apply elem_of_cons. now left.
      * apply bool_decide_eq_false_1 in Ext. rewrite IH.
        rewrite (bool_decide_ext (t ∈ rest /\ t ∉ x :: seen) (t ∈ x :: rest /\ t ∉ seen));
          [reflexivity |].
        rewrite !elem_of_cons. intuition congruence.
Qed.

(** The document frequency of a term is the number of memories whose
    content holds it. *)
Lemma buildDocumentFrequencies_count (t : jsstring) (memories : list MemoryChunk) :
  forall acc : gmap jsstring nat,
    default 0%nat
      (fold_left
         (fun df memory =>
            fold_left (fun df token => <[token := (default 0 (df !! token) + 1)%nat]> df)
                      (uniq (tokenize toLowerCase (content memory))) df)
         memories acc !! t)
    = (default 0 (acc !! t)
       + length (List.filter
                   (fun m => bool_decide (t ∈ tokenize toLowerCase (content m)))
                   memories))%nat.
Proof.
  induction memories as [| m rest IH]; intros acc; cbn [fold_left List.filter].
  - cbn. lia.
  - rewrite IH, termFrequencies_count. unfold uniq. rewrite uniqFrom_occurrences.
    destruct (bool_decide (t ∈ tokenize toLowerCase (content m))) eqn:E.
    + apply bool_decide_eq_true_1 in E.
      rewrite bool_decide_eq_true_2 by (split; [exact E | apply not_elem_of_nil]).
      cbn [length]. lia.
    + apply bool_decide_eq_false_1 in E.
      rewrite bool_decide_eq_false_2 by tauto. lia.
Qed.

(** Over the statistics of a corpus no term is counted in more documents
    than there are, and every term of a document of the corpus is counted. *)
Lemma buildDocumentFrequencies_bounds (t : jsstring) (memories : list MemoryChunk) :
  (default 0 (buildDocumentFrequencies toLowerCase memories !! t) <= length memories)%nat
  /\ (forall m, In m memories -> In t (tokenize toLowerCase (content m)) ->
       (0 < default 0 (buildDocumentFrequencies toLowerCase memories !! t))%nat).
Proof.
  unfold buildDocumentFrequencies. rewrite buildDocumentFrequencies_count, lookup_empty.
  cbn [default Nat.add]. split.
  - apply List.filter_length_le.
  - intros m Hm Ht.
    assert (Hin : In m (List.filter
                          (fun m => bool_decide (t ∈ tokenize toLowerCase (content m)))
                          memories)).
    { apply List.filter_In. split; [exact Hm |].
      apply bool_decide_eq_true_2. now apply list_elem_of_In. }
    destruct (List.filter _ memories); [contradiction | cbn; lia].
Qed.

(** With the statistics that [selectMemories] builds, a candidate that
    shares a term with the query has a positive score. *)
Lemma calculateBM25_positive_in_corpus (candidates : list MemoryChunk) (m : MemoryChunk)
    (queryTokens : list jsstring) (term : jsstring) (avgDocLength : R) :
  In m candidates ->
  In term queryTokens -> In term (tokenize toLowerCase (content m)) ->
  0 < calculateBM25 queryTokens (tokenize toLowerCase (content m))
                    (buildDocumentFrequencies toLowerCase candidates)
                    (length candidates) avgDocLength.
Proof.
  intros Hm Hq Hd.
  apply (calculateBM25_positive _ _ _ _ _ term); [exact Hq | exact Hd | |].
  - destruct (buildDocumentFrequencies_bounds term candidates) as [Hle Hpos].
    split; [now apply (Hpos m) | exact Hle].
  - intros t _ _. apply buildDocumentFrequencies_bounds.
Qed.

End Corpus.

Import Scenario.

Lemma skewed_lookups :
  default 0%nat (termFrequencies [raft; paxos] !! raft) = 1%nat
  /\ default 0%nat (termFrequencies [raft; paxos] !! paxos) = 1%nat
  /\ default 0%nat (dfSkewed !! raft) = 1%nat
  /\ default 0%nat (dfSkewed !! paxos) = 7%nat
  /\ uniq [raft; paxos] = [raft; paxos]
  /\ keepToken raft = true.
Proof. repeat split; vm_compute; reflexivity. Qed.

(** C4, counterexample.  (1) The query and the document share the term
    "raft", which is no stop word, and its df (0, the term is missing from
    the map) is below N = 1; the score is 0.  (2) Both share "raft" with
    df = 1 < N = 2, and also "paxos" with df = 7; the score is negative. *)
Lemma calculateBM25_not_positive :
  (In raft [raft] /\ keepToken raft = true
   /\ (default 0 ((∅ : gmap jsstring nat) !! raft) < 1)%nat
   /\ calculateBM25 [raft] [raft] ∅ 1 1 = 0)
  /\ (In raft [raft; paxos] /\ keepToken raft = true
      /\ (default 0 (dfSkewed !! raft) < 2)%nat
      /\ calculateBM25 [raft; paxos] [raft; paxos] dfSkewed 2 2 < 0).
Proof.
  destruct skewed_lookups as (Htr & Htp & Hdr & Hdp & Huniq & Hkeep).
  split.
  - split; [now left |]. split; [exact Hkeep |].
    split; [rewrite lookup_empty; cbn; lia |].
    unfold calculateBM25. apply fold_termScore_zero.
    intros t _. apply contribution_unknown. now rewrite lookup_empty.
  - split; [now left |]. split; [exact Hkeep |]. split; [rewrite Hdr; lia |].
    unfold calculateBM25. rewrite Huniq. cbn [fold_left length].
    unfold termScore. rewrite Htr, Htp, Hdr, Hdp. cbn [Nat.eqb].
    pose proof (tfnorm_pos 1 2 2 Nat.lt_0_1) as HF.
    set (F := INR 1 * (BM25_K1 + 1) / _) in *.
    replace ((INR 2 - INR 1 + 0.5) / (INR 1 + 0.5) + 1) with 2 by (cbn; lra).
    replace ((INR 2 - INR 7 + 0.5) / (INR 7 + 0.5) + 1) with 0.4 by (cbn; lra).
    assert (Hln : ln 2 + ln 0.4 < 0).
    { rewrite <- ln_mult by lra. rewrite <- ln_1. apply ln_increasing; lra. }
    nra.
Qed.

(** The amended statement on the corpus of scenario S1: the prompt of the
    kernel shares no token with memory B and shares "raft" and "consensus"
    with memory A. *)
Lemma calculateBM25_sign_witness :
  calculateBM25 (tokenize asciiLower (Selector.k_prompt kernelS1))
                (tokenize asciiLower (content memoryB))
                (buildDocumentFrequencies asciiLower [memoryA; memoryB]) 2 3 = 0
  /\ 0 < calculateBM25 (tokenize asciiLower (Selector.k_prompt kernelS1))
                       (tokenize asciiLower (content memoryA))
                       (buildDocumentFrequencies asciiLower [memoryA; memoryB]) 2 3.
Proof.
  split.
  - apply (proj1 (calculateBM25_sign _ _ _ _ _)).
    intros t Hq Hd. vm_compute in Hq, Hd.
    repeat (destruct Hq as [Hq | Hq]; [subst t; intuition discriminate |]).
    exact Hq.
  - apply (proj2 (calculateBM25_sign _ _ _ _ _)) with (term := raft).
    + vm_compute. auto.
    + vm_compute. auto.
    + vm_compute. lia.
    + intros t _ _.
      apply (proj1 (buildDocumentFrequencies_bounds asciiLower t [memoryA; memoryB])).
Defined.

End BM25Props.

(** ** Tokenizer *)

Module TokenizerProps.
Import Tokenizer Observe.

Lemma SPACE_facts : isSpace SPACE = true /\ isPunct SPACE = false /\ isDelim SPACE = true.
Proof. repeat split; reflexivity. Qed.

(** *** Splitting *)

Lemma splitSpaces_nonempty (s : jsstring) : splitSpaces s <> [].
Proof.
  induction s as [| c rest IH]; cbn [splitSpaces]; [discriminate |].
  destruct (isSpace c).
  - destruct rest as [| c' rest']; [discriminate |].
    destruct (isSpace c'); [exact IH | discriminate].
  - destruct (splitSpaces rest); discriminate.
Qed.

(** A white-space unit at the front leaves an empty first piece; the
    other pieces are pieces of the rest. *)
Lemma splitSpaces_cons_space (c : N) (rest : jsstring) :
  isSpace c = true ->
  exists ps, splitSpaces (c :: rest) = [] :: ps
             /\ (forall Q : jsstring -> Prop, Forall Q (splitSpaces rest) -> Forall Q ps)
             /\ (forall c' r, rest = c' :: r -> isSpace c' = false -> ps = splitSpaces rest).
Proof.
  revert c. induction rest as [| c' rest' IH]; intros c Hc.
  - exists [[]]. cbn. rewrite Hc.
    split; [reflexivity |]. split; [auto | discriminate].
  - cbn [splitSpaces]. rewrite Hc.
    destruct (isSpace c') eqn:Hc'.
    + destruct (IH c' Hc') as (ps & Heq & Hps & _).
      cbn [splitSpaces] in Heq. rewrite Hc' in Heq.
      exists ps. split; [exact Heq |]. split.
      * intros Q HQ. rewrite Heq in HQ. now inversion HQ.
      * intros x r [= -> ->] Hx. congruence.
    + eexists. split; [reflexivity |]. split; [auto |].
      intros x r _ _. reflexivity.
Qed.

(** Any other unit at the front joins the first piece of the rest. *)
Lemma splitSpaces_cons_other (c : N) (rest : jsstring) :
  isSpace c = false ->
  exists p ps, splitSpaces rest = p :: ps /\ splitSpaces (c :: rest) = (c :: p) :: ps.
Proof.
  intros Hc. cbn [splitSpaces]. rewrite Hc.
  pose proof (splitSpaces_nonempty rest) as Hne.
  destruct (splitSpaces rest) as [| p ps]; [contradiction |].
  exists p, ps. split; reflexivity.
Qed.

(** A prefix without white space joins the first piece of what follows. *)
Lemma splitSpaces_prefix (pre s : jsstring) :
  Forall notSpace pre ->
  exists p ps, splitSpaces s = p :: ps /\ splitSpaces (pre ++ s) = (pre ++ p) :: ps.
Proof.
  induction 1 as [| c pre' Hc _ IH].
  - pose proof (splitSpaces_nonempty s) as Hne. cbn [app].
    destruct (splitSpaces s) as [| p ps]; [contradiction |]. now exists p, ps.
  - destruct IH as (p & ps & Hs & Hpre).
    destruct (splitSpaces_cons_other c (pre' ++ s) Hc) as (p' & ps' & H1 & H2).
    rewrite Hpre in H1. injection H1 as <- <-.
    exists p, ps. split; [exact Hs | exact H2].
Qed.

Lemma splitSpaces_spacefree (s : jsstring) :
  Forall notSpace s -> splitSpaces s = [s].
Proof.
  intros Hs. destruct (splitSpaces_prefix s [] Hs) as (p & ps & H1 & H2).
  cbn in H1. injection H1 as <- <-. now rewrite !app_nil_r in H2.
Qed.

(** Every piece is free of white space, and its units are units of the
    input. *)
Lemma splitSpaces_pieces (Q : N -> Prop) (s : jsstring) :
  Forall Q s ->
  Forall (fun p => Forall notSpace p /\ Forall Q p) (splitSpaces s).
Proof.
  induction 1 as [| c rest Hc Hrest IH].
  - cbn. repeat constructor.
  - destruct (isSpace c) eqn:Hsp.
    + destruct (splitSpaces_cons_space c rest Hsp) as (ps & Heq & Hps & _).
      rewrite Heq. constructor; [split; constructor | now apply Hps].
    + destruct (splitSpaces_cons_other c rest Hsp) as (p & ps & H1 & H2).
      rewrite H2. rewrite H1 in IH. inversion IH as [| ? ? [Hp1 Hp2] Hps]; subst.
      constructor; [split; constructor; assumption | exact Hps].
Qed.

(** *** Joining and splitting again *)

Lemma join_cons (t : jsstring) (rest : list jsstring) :
  rest <> [] -> join [SPACE] (t :: rest) = t ++ SPACE :: join [SPACE] rest.
Proof. destruct rest; [contradiction | reflexivity]. Qed.

Lemma join_solid_head (toks : list jsstring) :
  Forall solid toks -> toks <> [] ->
  exists c r, join [SPACE] toks = c :: r /\ isSpace c = false.
Proof.
  intros Hall Hne. destruct Hall as [| t rest [Ht Hsp] Hrest]; [contradiction |].
  destruct t as [| c t']; [contradiction |].
  inversion Hsp; subst.
  destruct rest; [exists c, t' | eexists c, _]; split; try reflexivity; assumption.
Qed.

Lemma splitSpaces_join (toks : list jsstring) :
  Forall solid toks -> toks <> [] ->
  splitSpaces (join [SPACE] toks) = toks.
Proof.
  induction 1 as [| t rest [Ht Hsp] Hrest IH]; intros Hne; [contradiction |].
  destruct rest as [| t' rest'].
  - cbn. now apply splitSpaces_spacefree.
  - rewrite join_cons by discriminate.
    destruct (splitSpaces_prefix t (SPACE :: join [SPACE] (t' :: rest')) Hsp)
      as (p & ps & H1 & H2).
    rewrite H2.
    destruct (splitSpaces_cons_space SPACE (join [SPACE] (t' :: rest')) eq_refl)
      as (ps' & Heq & _ & Hexact).
    rewrite Heq in H1. injection H1 as <- <-.
    destruct (join_solid_head (t' :: rest') Hrest) as (c & r & Hj & Hc); [discriminate |].
    rewrite (Hexact c r Hj Hc), IH by discriminate.
    now rewrite app_nil_r.
Qed.

Lemma filter_all {A} (f : A -> bool) (l : list A) :
  Forall (fun x => f x = true) l -> List.filter f l = l.
Proof.
  induction 1 as [| x rest Hx _ IH]; cbn; [reflexivity |]. now rewrite Hx, IH.
Qed.

Lemma filter_Forall {A} (f : A -> bool) (Q : A -> Prop) (l : list A) :
  Forall Q l -> Forall (fun x => f x = true /\ Q x) (List.filter f l).
Proof.
  induction 1 as [| x rest Hx _ IH]; cbn; [constructor |].
  destruct (f x) eqn:E; [constructor; auto | exact IH].
Qed.

Lemma replacePunct_clean (s : jsstring) : Forall notPunct (replacePunct s).
Proof.
  induction s as [| c rest IH]; cbn [replacePunct List.map]; constructor; [| exact IH].
  unfold notPunct. destruct (isPunct c) eqn:E; [reflexivity | exact E].
Qed.

Lemma replacePunct_id (s : jsstring) : Forall notPunct s -> replacePunct s = s.
Proof.
  induction 1 as [| c rest Hc _ IH]; cbn [replacePunct List.map]; [reflexivity |].
  unfold notPunct in Hc. rewrite Hc. f_equal. exact IH.
Qed.

Lemma join_units (Q : N -> Prop) (toks : list jsstring) :
  Q SPACE -> Forall (Forall Q) toks -> Forall Q (join [SPACE] toks).
Proof.
  intros HQ. induction 1 as [| t rest Ht Hrest IH]; [constructor |].
  destruct rest as [| t' rest']; [exact Ht |].
  rewrite join_cons by discriminate.
  apply Forall_app. split; [exact Ht | constructor; [exact HQ | exact IH]].
Qed.

Lemma keepToken_true (t : jsstring) :
  keepToken t = true -> t <> [] /\ (t ∉ STOP_WORDS) /\ (2 <= length t)%nat.
Proof.
  unfold keepToken. intros H.
  apply andb_prop in H. destruct H as [H Hlen].
  apply andb_prop in H. destruct H as [Hne Hstop].
  repeat split.
  - intros ->. discriminate.
  - apply negb_true_iff, bool_decide_eq_false_1 in Hstop. exact Hstop.
  - now apply Nat.leb_le.
Qed.

(** *** Lower case *)

Section LowerCase.
Variable toLowerCase : jsstring -> jsstring.
Hypothesis laws : LowerCaseLaws toLowerCase.

Let low := lowered toLowerCase.

Lemma isPunct_delim (c : N) : isPunct c = true -> isDelim c = true.
Proof. unfold isDelim. now intros ->. Qed.

Lemma isSpace_delim (c : N) : isSpace c = true -> isDelim c = true.
Proof. unfold isDelim. intros ->. apply orb_true_r. Qed.

(** Replacing punctuation by spaces keeps a string in lower case. *)
Lemma lowered_replacePunct (s : jsstring) :
  forall pre, low (pre ++ s) -> low (pre ++ replacePunct s).
Proof.
  induction s as [| c rest IH]; intros pre H; cbn [replacePunct List.map].
  - exact H.
  - fold (replacePunct rest). destruct (isPunct c) eqn:Hc.
    + apply (lower_delim _ laws) in H; [| now apply isPunct_delim].
      destruct H as [Hpre Hrest].
      apply (lower_delim _ laws); [reflexivity |].
      split; [exact Hpre | exact (IH [] Hrest)].
    + replace (pre ++ c :: replacePunct rest) with ((pre ++ [c]) ++ replacePunct rest)
        by (now rewrite <- app_assoc).
      apply IH. now rewrite <- app_assoc.
Qed.

(** The pieces of a string in lower case are in lower case. *)
Lemma lowered_pieces (s : jsstring) :
  forall pre, low (pre ++ s) ->
    exists p ps, splitSpaces s = p :: ps /\ low (pre ++ p) /\ Forall low ps.
Proof.
  induction s as [| c rest IH]; intros pre H.
  - exists [], []. repeat split; [exact H | constructor].
  - destruct (isSpace c) eqn:Hc.
    + destruct (splitSpaces_cons_space c rest Hc) as (ps & Heq & Hps & _).
      apply (lower_delim _ laws) in H; [| now apply isSpace_delim].
      destruct H as [Hpre Hrest].
      destruct (IH [] Hrest) as (p' & ps' & Hs & Hp' & Hps').
      exists [], ps. split; [exact Heq |]. split; [now rewrite app_nil_r |].
      apply Hps. rewrite Hs. now constructor.
    + destruct (splitSpaces_cons_other c rest Hc) as (p & ps & H1 & H2).
      destruct (IH (pre ++ [c])) as (p' & ps' & Hs & Hp' & Hps').
      { now rewrite <- app_assoc. }
      rewrite H1 in Hs. injection Hs as <- <-.
      exists (c :: p), ps. split; [exact H2 |]. split; [| exact Hps'].
      now rewrite <- app_assoc in Hp'.
Qed.

Lemma lowered_join (toks : list jsstring) :
  Forall low toks -> low (join [SPACE] toks).
Proof.
  induction 1 as [| t rest Ht Hrest IH]; [exact (lower_nil _ laws) |].
  destruct rest as [| t' rest']; [exact Ht |].
  rewrite join_cons by discriminate.
  apply (lower_delim _ laws); [reflexivity | now split].
Qed.

(** What holds of every token that [tokenize] returns. *)
Lemma tokenize_tokens (x : jsstring) :
  Forall (fun t => keepToken t = true
                   /\ (low t /\ Forall notSpace t /\ Forall notPunct t))
         (tokenize toLowerCase x).
Proof.
  unfold tokenize. apply filter_Forall.
  set (s := replacePunct (toLowerCase x)).
  assert (Hlow : low ([] ++ s)).
  { apply lowered_replacePunct. cbn. apply (lower_idem _ laws). }
  destruct (lowered_pieces s [] Hlow) as (p & ps & Hs & Hp & Hps).
  pose proof (splitSpaces_pieces notPunct s (replacePunct_clean _)) as Hpieces.
  rewrite Hs in *.
  assert (Hall : Forall low (p :: ps)) by now constructor.
  clear - Hall Hpieces.
  induction Hall as [| t rest Ht _ IH]; [constructor |].
  inversion Hpieces as [| ? ? [H1 H2] Hrest]; subst.
  constructor; [auto | now apply IH].
Qed.

(** C6 (T3).  Tokenizing the space-join of the tokens of a string gives
    the same tokens: every token is in lower case, holds no unit of the
    punctuation class and no white space, has length at least 2 and is no
    stop word, so the second pass changes nothing. *)
Theorem tokenize_idempotent (x : jsstring) :
  tokenize toLowerCase (join [SPACE] (tokenize toLowerCase x)) = tokenize toLowerCase x
  /\ Forall (fun t => lowered toLowerCase t
                      /\ Forall notPunct t
                      /\ Forall notSpace t
                      /\ (2 <= length t)%nat
                      /\ t ∉ STOP_WORDS)
            (tokenize toLowerCase x).
Proof.
  pose proof (tokenize_tokens x) as Htok.
  set (toks := tokenize toLowerCase x) in *.
  split.
  - assert (Hlow : Forall low toks)
      by (eapply List.Forall_impl; [| exact Htok]; cbn; tauto).
    assert (Hpunct : Forall (Forall notPunct) toks)
      by (eapply List.Forall_impl; [| exact Htok]; cbn; tauto).
    assert (Hsolid : Forall solid toks).
    { eapply List.Forall_impl; [| exact Htok]. cbn. intros t (Hk & _ & Hsp & _).
      split; [now apply keepToken_true | exact Hsp]. }
    assert (Hkeep : Forall (fun t => keepToken t = true) toks)
      by (eapply List.Forall_impl; [| exact Htok]; cbn; tauto).
    unfold tokenize at 1.
    rewrite (lowered_join toks Hlow).
    rewrite replacePunct_id by (apply join_units; [reflexivity | exact Hpunct]).
    destruct toks as [| t rest] eqn:E.
    + reflexivity.
    + rewrite splitSpaces_join by (exact Hsolid || discriminate).
      now apply filter_all.
  - eapply List.Forall_impl; [| exact Htok]. cbn.
    intros t (Hk & Hl & Hsp & Hp). apply keepToken_true in Hk.
    tauto.
Qed.

End LowerCase.

(** *** The ASCII instance *)

Lemma upper_not_delim_nat (n : nat) :
  (n < 26)%nat -> isDelim (N.of_nat (65 + n)) = false.
Proof.
  intros Hn.
  do 26 (destruct n as [| n]; [reflexivity |]). lia.
Qed.

Lemma delim_not_upper (d : N) :
  isDelim d = true -> (65 <=? d)%N && (d <=? 90)%N = false.
Proof.
  intros Hd. destruct ((65 <=? d)%N && (d <=? 90)%N) eqn:E; [| reflexivity].
  apply andb_prop in E. destruct E as [H1 H2].
  apply N.leb_le in H1, H2.
  pose proof (upper_not_delim_nat (N.to_nat d - 65)) as Hup.
  replace (N.of_nat (65 + (N.to_nat d - 65))) with d in Hup by lia.
  rewrite Hup in Hd by lia. discriminate.
Qed.

Lemma asciiLower_app (a b : jsstring) :
  asciiLower (a ++ b) = asciiLower a ++ asciiLower b.
Proof. apply List.map_app. Qed.

Lemma asciiLower_length (a : jsstring) : length (asciiLower a) = length a.
Proof. apply List.length_map. Qed.

Lemma asciiLower_delim (d : N) (b : jsstring) :
  isDelim d = true -> asciiLower (d :: b) = d :: asciiLower b.
Proof.
  intros Hd. unfold asciiLower. cbn [List.map].
  now rewrite (delim_not_upper d Hd).
Qed.

Lemma asciiLower_laws : LowerCaseLaws asciiLower.
Proof.
  constructor.
  - reflexivity.
  - intros s. unfold lowered, asciiLower. rewrite List.map_map.
    apply List.map_ext. intros c.
    destruct ((65 <=? c)%N && (c <=? 90)%N) eqn:E; [| now rewrite E].
    apply andb_prop in E. destruct E as [H1 H2]. apply N.leb_le in H1, H2.
    replace ((65 <=? c + 32)%N && (c + 32 <=? 90)%N) with false; [reflexivity |].
    symmetry. apply andb_false_iff. right. apply N.leb_gt. lia.
  - intros a d b Hd. unfold lowered.
    rewrite asciiLower_app, (asciiLower_delim d b Hd). split.
    + intros H. apply app_inj_1 in H; [| apply asciiLower_length].
      destruct H as [Ha Hb]. split; [exact Ha | congruence].
    + intros [Ha Hb]. now rewrite Ha, Hb.
Qed.

(** Idempotence on an ASCII sentence. *)
Lemma tokenize_idempotent_witness :
  let x := lit "The quick-brown fox, I say: it's a  Fox!  " in
  tokenize asciiLower (join [SPACE] (tokenize asciiLower x)) = tokenize asciiLower x
  /\ Forall (fun t => lowered asciiLower t
                      /\ Forall notPunct t
                      /\ Forall notSpace t
                      /\ (2 <= length t)%nat
                      /\ (t ∉ STOP_WORDS))
            (tokenize asciiLower x).
Proof.
  exact (tokenize_idempotent asciiLower asciiLower_laws
           (lit "The quick-brown fox, I say: it's a  Fox!  ")).
Defined.

End TokenizerProps.

(** ** Diversity selector *)

Module DiversityProps.
Import Tokenizer Diversity Observe.
Local Open Scope R_scope.

Section WithItems.
Variable toLowerCase : jsstring -> jsstring.
Context {T : Type} `{ScoredItem T}.

(** *** The sort *)

Lemma insertByScore_perm (x : T) (l : list T) :
  Permutation (insertByScore x l) (x :: l).
Proof.
  induction l as [| y ys IH]; cbn; [reflexivity |].
  destruct (Rlt_dec (item_score x) (item_score y)); [| reflexivity].
  rewrite IH. apply perm_swap.
Qed.

Lemma sortByScoreDesc_perm (l : list T) : Permutation (sortByScoreDesc l) l.
Proof.
  induction l as [| x rest IH]; cbn; [reflexivity |].
  rewrite insertByScore_perm. now constructor.
Qed.

Lemma insertByScore_sorted (x : T) (l : list T) :
  StronglySorted scoreDesc l -> StronglySorted scoreDesc (insertByScore x l).
Proof.
  induction 1 as [| y ys Hsorted IH Hall]; cbn.
  - repeat constructor.
  - destruct (Rlt_dec (item_score x) (item_score y)) as [Hlt | Hge].
    + constructor; [exact IH |].
      rewrite List.Forall_forall. intros z Hz.
      apply (Permutation_in _ (insertByScore_perm x ys)) in Hz.
      destruct Hz as [<- | Hz]; [unfold scoreDesc; lra |].
      rewrite List.Forall_forall in Hall. now apply Hall.
    + constructor; [now constructor |].
      constructor; [unfold scoreDesc; lra |].
      eapply List.Forall_impl; [| exact Hall].
      unfold scoreDesc. intros z Hz. lra.
Qed.

Lemma sortByScoreDesc_sorted (l : list T) : StronglySorted scoreDesc (sortByScoreDesc l).
Proof.
  induction l as [| x rest IH]; cbn; [constructor |].
  now apply insertByScore_sorted.
Qed.

(** Stability: the elements of one score keep their relative order. *)
Lemma insertByScore_stable (s : R) (x : T) (l : list T) :
  List.filter (scoreIs s) (insertByScore x l) = List.filter (scoreIs s) (x :: l).
Proof.
  induction l as [| y ys IH]; [reflexivity |].
  cbn [insertByScore].
  destruct (Rlt_dec (item_score x) (item_score y)) as [Hlt | Hge]; [| reflexivity].
  cbn [List.filter] in *. rewrite IH.
  unfold scoreIs.
  destruct (Req_dec_T (item_score x) s) as [Hx | Hx];
    destruct (Req_dec_T (item_score y) s) as [Hy | Hy]; try reflexivity.
  lra.
Qed.

Lemma sortByScoreDesc_stable (s : R) (l : list T) :
  List.filter (scoreIs s) (sortByScoreDesc l) = List.filter (scoreIs s) l.
Proof.
  induction l as [| x rest IH]; [reflexivity |].
  cbn [sortByScoreDesc fold_right]. fold (sortByScoreDesc rest).
  rewrite insertByScore_stable. cbn [List.filter]. now rewrite IH.
Qed.

(** *** The greedy loop *)

(** The inner loop returns the index it was entered with or one that it
    visited. *)
Lemma scanBest_range (lambda : R) (selected rest : list T) :
  forall i bestIdx bestScore,
    let r := scanBest toLowerCase lambda selected rest i bestIdx bestScore in
    r = bestIdx \/ (i <= r < i + length rest)%nat.
Proof.
  induction rest as [| c rest' IH]; intros i bestIdx bestScore; cbn [scanBest length].
  - now left.
  - cbv zeta.
    destruct (beats (mmrScore toLowerCase lambda selected c) bestScore).
    + destruct (IH (S i) i (Some (mmrScore toLowerCase lambda selected c)))
        as [-> | Hr]; right; lia.
    + destruct (IH (S i) bestIdx bestScore) as [-> | Hr]; [now left | right; lia].
Qed.

Lemma scanBest_in_range (lambda : R) (selected remaining : list T) :
  remaining <> [] ->
  (scanBest toLowerCase lambda selected remaining 0 0 None < length remaining)%nat.
Proof.
  intros Hne.
  destruct (scanBest_range lambda selected remaining 0%nat 0%nat None) as [-> | Hr].
  - destruct remaining; [contradiction | cbn; lia].
  - cbn in Hr. lia.
Qed.

(** The loop moves items from [remaining] to the end of [selected]. *)
Lemma mmrLoop_moves (lambda : R) (fuel : nat) :
  forall selected remaining,
    exists picked rest,
      mmrLoop toLowerCase lambda fuel selected remaining = selected ++ picked
      /\ Permutation (picked ++ rest) remaining
      /\ length picked = Nat.min fuel (length remaining).
Proof.
  induction fuel as [| fuel' IH]; intros selected remaining.
  - exists [], remaining. cbn. now rewrite app_nil_r.
  - destruct remaining as [| first others].
    + exists [], []. cbn. now rewrite app_nil_r.
    + cbn [mmrLoop]. set (remaining := first :: others).
      set (bestIdx := scanBest toLowerCase lambda selected remaining 0 0 None).
      assert (Hidx : (bestIdx < length remaining)%nat)
        by (apply scanBest_in_range; discriminate).
      destruct (IH (selected ++ [nth bestIdx remaining first]) (remove_at bestIdx remaining))
        as (picked & rest & Hrun & Hperm & Hlen).
      exists (nth bestIdx remaining first :: picked), rest.
      split; [| split].
      * rewrite Hrun. now rewrite <- app_assoc.
      * cbn [app].
        transitivity (nth bestIdx remaining first :: remove_at bestIdx remaining);
          [now constructor | now apply remove_at_perm].
      * cbn [length]. rewrite Hlen.
        pose proof (remove_at_length bestIdx remaining Hidx). lia.
Qed.

(** *** Relevance only: lambda = 1 *)

Lemma mmrScore_one (selected : list T) (c : T) :
  mmrScore toLowerCase 1 selected c = item_score c.
Proof. unfold mmrScore. lra. Qed.

(** No later candidate replaces the best one when none scores higher. *)
Lemma scanBest_keeps (selected rest : list T) (s : R) :
  Forall (fun c => item_score c <= s) rest ->
  forall i bestIdx,
    scanBest toLowerCase 1 selected rest i bestIdx (Some s) = bestIdx.
Proof.
  induction 1 as [| c rest' Hc _ IH]; intros i bestIdx; cbn [scanBest]; [reflexivity |].
  cbv zeta. rewrite mmrScore_one. cbn [beats].
  destruct (Rgt_dec (item_score c) s) as [Hgt | _]; [lra | apply IH].
Qed.

Lemma scanBest_first (selected : list T) (c0 : T) (rest : list T) :
  StronglySorted scoreDesc (c0 :: rest) ->
  scanBest toLowerCase 1 selected (c0 :: rest) 0 0 None = 0%nat.
Proof.
  intros Hsorted. apply StronglySorted_inv in Hsorted. destruct Hsorted as [_ Hall].
  cbn [scanBest beats]. cbv zeta. rewrite mmrScore_one.
  apply scanBest_keeps. exact Hall.
Qed.

Lemma mmrLoop_one_sorted (fuel : nat) :
  forall selected remaining,
    StronglySorted scoreDesc remaining ->
    mmrLoop toLowerCase 1 fuel selected remaining = selected ++ firstn fuel remaining.
Proof.
  induction fuel as [| fuel' IH]; intros selected remaining Hsorted.
  - cbn. now rewrite app_nil_r.
  - destruct remaining as [| c0 rest]; [cbn; now rewrite app_nil_r |].
    cbn [mmrLoop]. rewrite (scanBest_first selected c0 rest Hsorted).
    cbn [nth remove_at firstn].
    rewrite IH by (apply StronglySorted_inv in Hsorted; tauto).
    now rewrite <- app_assoc.
Qed.

(** C5 (T5).  [selectByMMR] returns items of the input, each at most as
    often as the input holds it (the output followed by the items left over
    is a rearrangement of the input, so an input without duplicates gives an
    output without duplicates), and returns [min(limit, n)] items, hence at
    most [limit].  With lambda = 1 the output is the first [limit] items of
    the input sorted by score: scores do not increase along it, and items of
    equal score come in their input order. *)
Theorem selectByMMR_properties (candidates : list T) (lambda : R) (limit : nat) :
  (exists rest,
      Permutation (selectByMMR toLowerCase candidates lambda limit ++ rest) candidates)
  /\ (List.NoDup candidates ->
      List.NoDup (selectByMMR toLowerCase candidates lambda limit))
  /\ length (selectByMMR toLowerCase candidates lambda limit)
     = Nat.min limit (length candidates)
  /\ (length (selectByMMR toLowerCase candidates lambda limit) <= limit)%nat
  /\ selectByMMR toLowerCase candidates 1 limit
     = firstn limit (sortByScoreDesc candidates)
  /\ Permutation (sortByScoreDesc candidates) candidates
  /\ StronglySorted scoreDesc (sortByScoreDesc candidates)
  /\ (forall s, List.filter (scoreIs s) (sortByScoreDesc candidates)
                = List.filter (scoreIs s) candidates).
Proof.
  unfold selectByMMR.
  destruct (mmrLoop_moves lambda limit [] (sortByScoreDesc candidates))
    as (picked & rest & Hrun & Hperm & Hlen).
  cbn [app] in Hrun. rewrite Hrun.
  pose proof (sortByScoreDesc_perm candidates) as Hsort.
  assert (Hall : Permutation (picked ++ rest) candidates)
    by (now transitivity (sortByScoreDesc candidates)).
  assert (Hlen' : length picked = Nat.min limit (length candidates)).
  { rewrite Hlen. now rewrite (Permutation_length Hsort). }
  split; [now exists rest |].
  split.
  { intros Hnd. apply (Permutation_NoDup (Permutation_sym Hall)) in Hnd.
    now apply NoDup_app_remove_r in Hnd. }
  split; [exact Hlen' |].
  split; [lia |].
  split; [now rewrite mmrLoop_one_sorted by apply sortByScoreDesc_sorted |].
  split; [exact Hsort |].
  split; [apply sortByScoreDesc_sorted | intros s; apply sortByScoreDesc_stable].
Qed.

(** Every selected item is a candidate. *)
Lemma selectByMMR_In (candidates : list T) (lambda : R) (limit : nat) (x : T) :
  In x (selectByMMR toLowerCase candidates lambda limit) -> In x candidates.
Proof.
  unfold selectByMMR. intros Hin.
  destruct (mmrLoop_moves lambda limit [] (sortByScoreDesc candidates))
    as (picked & rest & Hrun & Hperm & _).
  rewrite Hrun in Hin. cbn [app] in Hin.
  apply (Permutation_in _ (sortByScoreDesc_perm candidates)).
  apply (Permutation_in _ Hperm). apply in_or_app. now left.
Qed.

End WithItems.

(** *** Weighted sampling *)

Section Sampling.
Context {T : Type}.

Lemma remove_at_In (idx : nat) (l : list T) (x : T) :
  In x (remove_at idx l) -> In x l.
Proof.
  revert idx. induction l as [| h t IH]; intros [| i]; cbn; try tauto.
  intros [-> | Hin]; [now left | right; now apply (IH i)].
Qed.

(** Every sampled item comes from the pool. *)
Lemma sampleLoop_In (k : nat) (rng : nat -> Draw) (x : T) :
  forall pool w j, In x (sampleLoop k pool w rng j) -> In x pool.
Proof.
  induction k as [| k' IH]; intros pool w j; cbn [sampleLoop]; [contradiction |].
  destruct pool as [| first others]; [contradiction |].
  set (pool := first :: others). cbv zeta.
  set (idx := sampleIndex pool w (rng j)).
  intros [<- | Hin].
  - destruct (nth_in_or_default idx pool first) as [Hnth | ->]; [exact Hnth | now left].
  - apply IH in Hin. now apply remove_at_In in Hin.
Qed.

(** The index drawn by one iteration lies within the pool, so the item
    pushed to the result is an element of the pool and the pool shrinks. *)
Lemma sampleIndex_range (pool : list T) (w : list R) (u : Draw) :
  pool <> [] -> (sampleIndex pool w u < length pool)%nat.
Proof.
  intros Hne. assert (Hlen : (0 < length pool)%nat)
    by (destruct pool; [contradiction | cbn; lia]).
  unfold sampleIndex. cbv zeta.
  destruct (Req_dec_T (totalWeightOf w) 0) as [_ | _].
  - destruct (draw_range u) as [H0 H1].
    set (x := draw u * INR (length pool)).
    assert (Hn : 0 < INR (length pool)) by now apply lt_0_INR.
    assert (Hx : 0 <= x < INR (length pool)) by (unfold x; split; nra).
    pose proof (Zfloor_bound x) as [Hfl _].
    assert (Hge : (0 <= Zfloor x)%Z) by (apply Zfloor_lub; cbn; lra).
    assert (Hlt : (Zfloor x < Z.of_nat (length pool))%Z).
    { apply lt_IZR. rewrite <- INR_IZR_INZ. lra. }
    lia.
  - destruct (Nat.leb_spec (length pool) (walk w (draw u * totalWeightOf w) 0)); lia.
Qed.

Lemma weightedSample_In (items : list T) (weights : list R) (k : nat)
    (rng : nat -> Draw) (x : T) :
  In x (weightedSample items weights k rng) -> In x items.
Proof. apply sampleLoop_In. Qed.

End Sampling.

Import Selector Scenario.

(** Three items with scores 0.5, 0.9 and 0.9, limit 2 and lambda = 1: the
    two items of score 0.9 are returned in their input order. *)
Lemma selectByMMR_properties_witness :
  List.NoDup (selectByMMR asciiLower [itemA; itemB; itemC] 1 2)
  /\ selectByMMR asciiLower [itemA; itemB; itemC] 1 2 = [itemB; itemC].
Proof.
  destruct (selectByMMR_properties asciiLower [itemA; itemB; itemC] 1 2%nat)
    as (_ & Hnd & _ & _ & Hone & _).
  split.
  - apply Hnd. repeat constructor; cbn; intuition discriminate.
  - rewrite Hone. unfold sortByScoreDesc. cbn [fold_right insertByScore].
    cbn [item_score Scored_item sc_score itemA itemB itemC].
    repeat (match goal with
            | |- context [Rlt_dec ?a ?b] => destruct (Rlt_dec a b); try lra
            end; cbn [insertByScore item_score Scored_item sc_score
                      itemA itemB itemC firstn]).
    reflexivity.
Defined.

End DiversityProps.

(** ** Selector *)

Module SelectionProps.
Import Tokenizer BM25 SignalCalc TrueSkill Diversity Selector Observe Scenario.
Import DiversityProps.
Local Open Scope R_scope.

Section WithLowerCase.
Variable toLowerCase : jsstring -> jsstring.

(** The record built for a candidate carries the sample as drawn, and its
    score is the composite that uses the mapped sample. *)
Lemma scoreCandidate_fields (kernel : PromptKernel) (ratings : JSMap MemoryRating)
    (queryTokens : list jsstring) (df : gmap jsstring nat) (totalDocs : nat)
    (avgDocLength : R) (rng : nat -> Draw) (clock : nat -> Z) (i : nat)
    (memory : MemoryChunk) :
  let item := scoreCandidate toLowerCase kernel ratings queryTokens df totalDocs
                             avgDocLength rng clock i memory in
  let rating := ratingFor ratings memory kernel (clock i) in
  let sample := thompsonSample (mu rating) (sigma rating) (rng (2 * i)%nat) (rng (2 * i + 1)%nat) in
  sc_memory item = memory
  /\ s_thompson (sc_signals item) = sample
  /\ sc_score item
     = W_IMPORTANCE * s_importance (sc_signals item)
       + W_TAG_RELEVANCE * s_tagRelevance (sc_signals item)
       + W_LEXICAL * s_lexicalScore (sc_signals item)
       + W_RECENCY * s_recency (sc_signals item)
       + W_CENTRALITY * s_centrality (sc_signals item)
       + W_THOMPSON * mappedThompson sample.
Proof. cbv zeta. unfold scoreCandidate, calculateUtility. repeat split. Qed.

Lemma scoreAll_In (kernel : PromptKernel) (ratings : JSMap MemoryRating)
    (queryTokens : list jsstring) (df : gmap jsstring nat) (totalDocs : nat)
    (avgDocLength : R) (rng : nat -> Draw) (clock : nat -> Z)
    (candidates : list MemoryChunk) (item : Scored) :
  forall i,
    In item (scoreAll toLowerCase kernel ratings queryTokens df totalDocs avgDocLength
                      rng clock i candidates) ->
    exists n memory,
      nth_error candidates n = Some memory
      /\ item = scoreCandidate toLowerCase kernel ratings queryTokens df totalDocs
                               avgDocLength rng clock (i + n) memory.
Proof.
  induction candidates as [| m rest IH]; intros i; cbn [scoreAll]; [contradiction |].
  intros [<- | Hin].
  - exists 0%nat, m. split; [reflexivity | now rewrite Nat.add_0_r].
  - destruct (IH (S i) Hin) as (n & memory & Hn & Hitem).
    exists (S n), memory. split; [exact Hn |].
    now replace (i + S n)%nat with (S i + n)%nat by lia.
Qed.

Lemma preFilter_In (memories : list MemoryChunk) (kernel : PromptKernel)
    (bypass : bool) (m : MemoryChunk) :
  In m (preFilter toLowerCase memories kernel bypass) -> In m memories.
Proof.
  unfold preFilter. cbv zeta.
  destruct ((0 <? length (k_keywords kernel))%nat && negb bypass); [| tauto].
  intros Hin. now apply List.filter_In in Hin.
Qed.

(** Every selected memory is a candidate, and its diagnostic [thompson] is
    the sample mu + sigma * z drawn for that candidate. *)
Lemma selected_thompson_raw (memories : list MemoryChunk) (kernel : PromptKernel)
    (ratings : JSMap MemoryRating) (limit : nat) (options : SelectionOptions)
    (rng : nat -> Draw) (clock : nat -> Z) (sel : SelectedMemory) :
  In sel (selectMemories toLowerCase memories kernel ratings limit options rng clock) ->
  exists i memory,
    let rating := ratingFor ratings memory kernel (clock i) in
    let z := sqrt (-2 * ln (orTiny (rng (2 * i)%nat)))
             * cos (2 * PI * orTiny (rng (2 * i + 1)%nat)) in
    In memory memories
    /\ sel_memoryId sel = id memory
    /\ s_thompson (sel_signals sel) = mu rating + sigma rating * z
    /\ sel_score sel
       = W_IMPORTANCE * s_importance (sel_signals sel)
         + W_TAG_RELEVANCE * s_tagRelevance (sel_signals sel)
         + W_LEXICAL * s_lexicalScore (sel_signals sel)
         + W_RECENCY * s_recency (sel_signals sel)
         + W_CENTRALITY * s_centrality (sel_signals sel)
         + W_THOMPSON * mappedThompson (s_thompson (sel_signals sel)).
Proof.
  unfold selectMemories.
  destruct memories as [| m0 ms]; [contradiction |].
  set (memories := m0 :: ms). cbv zeta.
  set (candidates := preFilter toLowerCase memories kernel
                               (default false (bypassTagFilter options))).
  assert (Hcand : forall m, In m candidates -> In m memories)
    by (intros m; apply preFilter_In).
  destruct candidates as [| c0 cs]; [contradiction |].
  set (candidates := c0 :: cs) in *.
  intros Hin.
  apply List.in_map_iff in Hin. destruct Hin as (item & <- & Hitem).
  apply selectByMMR_In, weightedSample_In in Hitem.
  unfold scoredOf in Hitem. cbv zeta in Hitem.
  apply scoreAll_In in Hitem. destruct Hitem as (n & memory & Hn & ->).
  cbn [Nat.add].
  match goal with
  | |- context [scoreCandidate toLowerCase kernel ratings ?q ?df ?N ?avg rng clock n memory] =>
      destruct (scoreCandidate_fields kernel ratings q df N avg rng clock n memory)
        as (Hmem & Hth & Hscore);
      set (item := scoreCandidate toLowerCase kernel ratings q df N avg rng clock n memory) in *
  end.
  exists n, memory. cbv zeta.
  split; [apply Hcand; eapply nth_error_In; exact Hn |].
  unfold toSelected. cbn [sel_memoryId sel_signals sel_score].
  rewrite Hmem. split; [reflexivity |].
  split; [exact Hth | now rewrite Hth].
Qed.

(** *** A single candidate *)

Lemma sampleLoop_single {T} (k : nat) (x : T) (w : list R) (rng : nat -> Draw) (j : nat) :
  sampleLoop (S k) [x] w rng j = [x].
Proof.
  cbn [sampleLoop]. cbv zeta.
  pose proof (sampleIndex_range [x] w (rng j)) as Hidx.
  set (idx := sampleIndex [x] w (rng j)) in *.
  assert (H0 : idx = 0%nat) by (cbn in Hidx; specialize (Hidx ltac:(discriminate)); lia).
  rewrite H0. cbn [nth remove_at]. destruct k; reflexivity.
Qed.

Lemma selectByMMR_single (item : Scored) (lambda : R) (limit : nat) :
  selectByMMR toLowerCase [item] lambda (S limit) = [item].
Proof.
  unfold selectByMMR. cbn [sortByScoreDesc fold_right insertByScore mmrLoop].
  cbn [scanBest beats nth remove_at app]. destruct limit; reflexivity.
Qed.

(** With one candidate and a positive limit the candidate is selected. *)
Lemma selectMemories_single (m : MemoryChunk) (kernel : PromptKernel)
    (ratings : JSMap MemoryRating) (limit : nat) (options : SelectionOptions)
    (rng : nat -> Draw) (clock : nat -> Z) :
  preFilter toLowerCase [m] kernel (default false (bypassTagFilter options)) = [m] ->
  selectMemories toLowerCase [m] kernel ratings (S limit) options rng clock
  = List.map toSelected
             (scoredOf toLowerCase [m] kernel ratings (default [] (queryTerms options))
                       rng clock).
Proof.
  intros Hpre. unfold selectMemories. rewrite Hpre. cbv zeta.
  unfold scoredOf. cbv zeta. cbn [scoreAll List.map length].
  replace (Nat.min (S limit * 3) 1) with 1%nat by lia.
  unfold weightedSample. rewrite sampleLoop_single, selectByMMR_single.
  reflexivity.
Qed.

End WithLowerCase.

(** *** A negative diagnostic *)

Lemma orTiny_half : orTiny half = / 2.
Proof.
  unfold orTiny. cbn [draw half].
  destruct (Req_dec_T (1 / 2) 0) as [E | _]; lra.
Qed.

Lemma ln_2_pos : 0 < ln 2.
Proof. rewrite <- ln_1. apply ln_increasing; lra. Qed.

(** Both draws equal to 0.5 give z = -sqrt(2 ln 2). *)
Lemma thompsonSample_half (m s : R) :
  thompsonSample m s half half = m - s * sqrt (2 * ln 2).
Proof.
  unfold thompsonSample. cbv zeta. rewrite orTiny_half.
  rewrite ln_Rinv by lra.
  replace (2 * PI * / 2) with PI by lra. rewrite cos_PI.
  replace (-2 * - ln 2) with (2 * ln 2) by lra. lra.
Qed.

Lemma preFilter_memoryA :
  preFilter asciiLower [memoryA] kernelS1 false = [memoryA].
Proof.
  unfold preFilter. cbv zeta. cbn [k_keywords kernelS1 length Nat.ltb Nat.leb negb andb].
  cbn [List.filter].
  replace (existsb _ (tags memoryA)) with true by (vm_compute; reflexivity).
  reflexivity.
Qed.

(** The run of scenario S1 restricted to memory A, with no stored rating
    and both draws 0.5: memory A is returned with [thompson] equal to
    -sqrt(2 ln 2), about -1.18. *)
Lemma negative_run :
  exists sel,
    selectMemories asciiLower [memoryA] kernelS1 [] 1 noOptions rngHalf clockZero = [sel]
    /\ sel_memoryId sel = lit "A"
    /\ s_thompson (sel_signals sel) = - sqrt (2 * ln 2)
    /\ s_thompson (sel_signals sel) < 0.
Proof.
  rewrite selectMemories_single by exact preFilter_memoryA.
  unfold scoredOf. cbv zeta. cbn [scoreAll List.map].
  eexists. split; [reflexivity |].
  match goal with
  | |- context [scoreCandidate asciiLower kernelS1 [] ?q ?df ?N ?avg rngHalf clockZero 0 memoryA] =>
      destruct (scoreCandidate_fields asciiLower kernelS1 [] q df N avg rngHalf clockZero
                                      0 memoryA) as (Hmem & Hth & _);
      set (item := scoreCandidate asciiLower kernelS1 [] q df N avg rngHalf clockZero
                                  0 memoryA) in *
  end.
  unfold toSelected. cbn [sel_memoryId sel_signals]. rewrite Hmem, Hth.
  unfold rngHalf. rewrite thompsonSample_half.
  cbn [ratingFor mapGet initializeRating mu sigma].
  pose proof (sqrt_lt_R0 (2 * ln 2)) as Hs. pose proof ln_2_pos.
  split; [reflexivity |]. split; lra.
Qed.

(** C9.  Every memory returned by [selectMemories] carries in
    [signals.thompson] the sample mu + sigma * z drawn for it (mu and sigma
    from the stored rating, or 0 and 1 for a pair without rating), while its
    score is the composite computed with the value mapped into [0,1].  The
    sample itself is not confined to [0,1]: in the run above it is
    negative. *)
Theorem thompson_signal_is_raw (toLowerCase : jsstring -> jsstring) :
  (forall memories kernel ratings limit options rng clock sel,
      In sel (selectMemories toLowerCase memories kernel ratings limit options rng clock) ->
      exists i memory,
        let rating := ratingFor ratings memory kernel (clock i) in
        let z := sqrt (-2 * ln (orTiny (rng (2 * i)%nat)))
                 * cos (2 * PI * orTiny (rng (2 * i + 1)%nat)) in
        In memory memories
        /\ sel_memoryId sel = id memory
        /\ s_thompson (sel_signals sel) = mu rating + sigma rating * z
        /\ sel_score sel
           = W_IMPORTANCE * s_importance (sel_signals sel)
             + W_TAG_RELEVANCE * s_tagRelevance (sel_signals sel)
             + W_LEXICAL * s_lexicalScore (sel_signals sel)
             + W_RECENCY * s_recency (sel_signals sel)
             + W_CENTRALITY * s_centrality (sel_signals sel)
             + W_THOMPSON * mappedThompson (s_thompson (sel_signals sel)))
  /\ (exists sel,
        In sel (selectMemories asciiLower [memoryA] kernelS1 [] 1 noOptions
                               rngHalf clockZero)
        /\ s_thompson (sel_signals sel) < 0
        /\ s_thompson (sel_signals sel) <> mappedThompson (s_thompson (sel_signals sel))).
Proof.
  split.
  - intros memories kernel ratings limit options rng clock sel.
    apply selected_thompson_raw.
  - destruct negative_run as (sel & Hrun & _ & _ & Hneg).
    exists sel. rewrite Hrun. split; [now left |]. split; [exact Hneg |].
    pose proof (SelectorProps.mappedThompson_unit (s_thompson (sel_signals sel))). lra.
Qed.

(** The first part of the statement on the run of scenario S1. *)
Lemma thompson_signal_is_raw_witness :
  exists sel i memory,
    In sel (selectMemories asciiLower [memoryA] kernelS1 [] 1 noOptions rngHalf clockZero)
    /\ In memory [memoryA]
    /\ sel_memoryId sel = id memory
    /\ s_thompson (sel_signals sel)
       = mu (ratingFor [] memory kernelS1 (clockZero i))
         + sigma (ratingFor [] memory kernelS1 (clockZero i))
           * (sqrt (-2 * ln (orTiny (rngHalf (2 * i)%nat)))
              * cos (2 * PI * orTiny (rngHalf (2 * i + 1)%nat))).
Proof.
  destruct negative_run as (sel & Hrun & _).
  assert (Hin : In sel (selectMemories asciiLower [memoryA] kernelS1 [] 1 noOptions
                                       rngHalf clockZero))
    by (rewrite Hrun; now left).
  destruct (proj1 (thompson_signal_is_raw asciiLower)
                  [memoryA] kernelS1 [] 1%nat noOptions rngHalf clockZero sel Hin)
    as (i & memory & Hmem & Hid & Hth & _).
  exists sel, i, memory. auto.
Defined.

End SelectionProps.

(* ===================================================================== *)
(** * Further properties of the memory core *)
(* ===================================================================== *)

(** ** Shingles and Jaccard similarity *)

Module SimilarityProps.
Import Tokenizer Observe.
Local Open Scope R_scope.

Lemma size_list_to_set_le (l : list jsstring) :
  (size (list_to_set l : gset jsstring) <= length l)%nat.
Proof.
  induction l as [| x rest IH]; cbn [list_to_set length].
  - rewrite size_empty. lia.
  - rewrite size_union_alt, size_singleton.
    assert (Hsub : list_to_set rest ∖ {[x]} ⊆ (list_to_set rest : gset jsstring))
      by (intros y; rewrite elem_of_difference; tauto).
    pose proof (subseteq_size _ _ Hsub).
    lia.
Qed.

Lemma size_list_to_set_pos (l : list jsstring) :
  l <> [] -> (0 < size (list_to_set l : gset jsstring))%nat.
Proof.
  destruct l as [| x rest]; [contradiction | intros _].
  assert (Hsub : ({[x]} : gset jsstring) ⊆ list_to_set (x :: rest))
    by (intros y Hy; cbn [list_to_set]; now apply elem_of_union_l).
  pose proof (subseteq_size _ _ Hsub) as Hle.
  rewrite size_singleton in Hle. lia.
Qed.

Lemma filter_elem_of_inter (A B : gset jsstring) :
  filter (fun x => x ∈ B) A = A ∩ B.
Proof. apply set_eq. intros x. rewrite elem_of_filter, elem_of_intersection. tauto. Qed.

(** The number of shingles of a token list. *)
Lemma shingles_size (tokens : list jsstring) (n : nat) :
  (size (shingles tokens n) <= length tokens + 1 - n)%nat.
Proof.
  unfold shingles.
  etransitivity; [apply size_list_to_set_le |].
  rewrite List.length_map, List.length_seq. lia.
Qed.

Lemma shingles_pos (tokens : list jsstring) (n : nat) :
  (n <= length tokens)%nat -> (0 < size (shingles tokens n))%nat.
Proof.
  intros Hle. unfold shingles. apply size_list_to_set_pos.
  replace (length tokens + 1 - n)%nat with (S (length tokens - n)) by lia.
  discriminate.
Qed.

Lemma shingles_short (tokens : list jsstring) (n : nat) :
  (length tokens < n)%nat -> shingles tokens n = ∅.
Proof.
  intros Hlt. unfold shingles.
  replace (length tokens + 1 - n)%nat with 0%nat by lia. reflexivity.
Qed.

(** X1.  [shingles(tokens, n)] holds at most [tokens.length - n + 1]
    windows; it is empty when there are fewer than [n] tokens, and holds
    the window of the first [n] tokens otherwise. *)
Theorem shingles_bounds (tokens : list jsstring) (n : nat) :
  (size (shingles tokens n) <= length tokens + 1 - n)%nat
  /\ ((length tokens < n)%nat -> shingles tokens n = ∅)
  /\ ((n <= length tokens)%nat -> join [SPACE] (firstn n tokens) ∈ shingles tokens n).
Proof.
  split; [apply shingles_size |]. split.
  - apply shingles_short.
  - intros Hle. unfold shingles.
    replace (length tokens + 1 - n)%nat with (S (length tokens - n)) by lia.
    cbn [seq List.map skipn list_to_set]. apply elem_of_union_l, elem_of_singleton.
    reflexivity.
Qed.

Section WithLowerCase.
Variable toLowerCase : jsstring -> jsstring.

(** The similarity in terms of the two shingle sets. *)
Lemma jaccard_sets (textA textB : jsstring) :
  let A := shingles (tokenize toLowerCase textA) 3 in
  let B := shingles (tokenize toLowerCase textB) 3 in
  jaccardSimilarity toLowerCase textA textB
  = if Rlt_dec 0 (INR (size A) + INR (size B) - INR (size (A ∩ B)))
    then INR (size (A ∩ B)) / (INR (size A) + INR (size B) - INR (size (A ∩ B)))
    else 0.
Proof. cbv zeta. unfold jaccardSimilarity. cbv zeta. now rewrite filter_elem_of_inter. Qed.

Lemma inter_sizes (A B : gset jsstring) :
  (size (A ∩ B) <= size A)%nat /\ (size (A ∩ B) <= size B)%nat.
Proof.
  split; apply subseteq_size; intros x; rewrite elem_of_intersection; tauto.
Qed.

(** X2.  [jaccardSimilarity] lies in [0,1] and does not depend on the
    order of its two arguments. *)
Theorem jaccardSimilarity_unit_sym (textA textB : jsstring) :
  0 <= jaccardSimilarity toLowerCase textA textB <= 1
  /\ jaccardSimilarity toLowerCase textA textB = jaccardSimilarity toLowerCase textB textA.
Proof.
  rewrite !jaccard_sets. cbv zeta.
  set (A := shingles (tokenize toLowerCase textA) 3).
  set (B := shingles (tokenize toLowerCase textB) 3).
  destruct (inter_sizes A B) as [Ha Hb].
  apply le_INR in Ha, Hb. pose proof (pos_INR (size (A ∩ B))) as Hi.
  split.
  - destruct (Rlt_dec 0 (INR (size A) + INR (size B) - INR (size (A ∩ B)))) as [Hpos | _];
      [| lra].
    apply SelectorProps.ratio_unit; lra.
  - replace (B ∩ A) with (A ∩ B)
      by (apply set_eq; intros x; rewrite !elem_of_intersection; tauto).
    replace (INR (size B) + INR (size A) - INR (size (A ∩ B)))
      with (INR (size A) + INR (size B) - INR (size (A ∩ B))) by lra.
    reflexivity.
Qed.

(** X3.  A text with at least three tokens is at similarity 1 from
    itself.  A text with fewer than three tokens has no shingle and is at
    similarity 0 from every text, itself included. *)
Theorem jaccardSimilarity_self (text : jsstring) :
  ((3 <= length (tokenize toLowerCase text))%nat ->
   jaccardSimilarity toLowerCase text text = 1)
  /\ ((length (tokenize toLowerCase text) < 3)%nat ->
      forall other,
        jaccardSimilarity toLowerCase text other = 0
        /\ jaccardSimilarity toLowerCase other text = 0).
Proof.
  split.
  - intros Hlen. rewrite jaccard_sets. cbv zeta.
    set (A := shingles (tokenize toLowerCase text) 3).
    replace (A ∩ A) with A
      by (apply set_eq; intros x; rewrite elem_of_intersection; tauto).
    pose proof (shingles_pos (tokenize toLowerCase text) 3 Hlen) as Hpos.
    fold A in Hpos. apply lt_0_INR in Hpos.
    destruct (Rlt_dec 0 (INR (size A) + INR (size A) - INR (size A))) as [_ | Hn]; [| lra].
    field. lra.
  - intros Hlen other.
    assert (Hempty : shingles (tokenize toLowerCase text) 3 = ∅)
      by (now apply shingles_short).
    rewrite !jaccard_sets. cbv zeta. rewrite Hempty.
    set (B := shingles (tokenize toLowerCase other) 3).
    replace (∅ ∩ B) with (∅ : gset jsstring)
      by (apply set_eq; intros x; rewrite elem_of_intersection, elem_of_empty; tauto).
    replace (B ∩ ∅) with (∅ : gset jsstring)
      by (apply set_eq; intros x; rewrite elem_of_intersection, elem_of_empty; tauto).
    rewrite size_empty. cbn [INR].
    split.
    + destruct (Rlt_dec 0 (0 + INR (size B) - 0)); lra.
    + destruct (Rlt_dec 0 (INR (size B) + 0 - 0)); lra.
Qed.

End WithLowerCase.
End SimilarityProps.

(** ** Scores over the statistics of a corpus *)

Module CorpusProps.
Import Tokenizer BM25 Observe BM25Props Scenario.
Local Open Scope R_scope.

Lemma calculateBM25_no_shared (queryTokens documentTokens : list jsstring)
    (df : gmap jsstring nat) (N : nat) (avg : R) :
  (forall t, In t queryTokens -> ~ In t documentTokens) ->
  calculateBM25 queryTokens documentTokens df N avg = 0.
Proof.
  intros Hdisj. unfold calculateBM25.
  destruct queryTokens as [| q qs]; [reflexivity |].
  destruct documentTokens as [| d ds]; [reflexivity |].
  apply fold_termScore_zero. intros t Ht.
  apply contribution_absent, termFrequencies_absent, Hdisj.
  exact (proj1 (uniq_In _ _) Ht).
Qed.

Lemma calculateBM25_nonneg (queryTokens documentTokens : list jsstring)
    (df : gmap jsstring nat) (N : nat) (avg : R) :
  (forall t, (default 0 (df !! t) <= N)%nat) ->
  0 <= calculateBM25 queryTokens documentTokens df N avg.
Proof.
  intros Hall. unfold calculateBM25.
  destruct queryTokens as [| q qs]; [lra |].
  destruct documentTokens as [| d ds]; [lra |].
  apply fold_termScore_nonneg. intros t _. now apply contribution_nonneg.
Qed.

Section WithLowerCase.
Variable toLowerCase : jsstring -> jsstring.

(** X4.  The document frequency that [buildDocumentFrequencies] gives a
    term is the number of memories whose tokenized content holds the term:
    each memory counts once however often the term occurs in it, so the
    frequency never exceeds the number of memories. *)
Theorem documentFrequency_counts (memories : list MemoryChunk) (t : jsstring) :
  default 0%nat (buildDocumentFrequencies toLowerCase memories !! t)
  = length (List.filter (fun m => bool_decide (t ∈ tokenize toLowerCase (content m)))
                        memories)
  /\ (default 0 (buildDocumentFrequencies toLowerCase memories !! t) <= length memories)%nat.
Proof.
  split.
  - unfold buildDocumentFrequencies.
    rewrite (buildDocumentFrequencies_count toLowerCase t memories ∅), lookup_empty.
    reflexivity.
  - apply buildDocumentFrequencies_bounds.
Qed.

(** X5.  With the statistics built from the candidate set, as in
    [selectMemories], the BM25 score of a candidate is never negative, and it
    is positive exactly when the query and the candidate share a token. *)
Theorem calculateBM25_in_corpus (candidates : list MemoryChunk) (m : MemoryChunk)
    (queryTokens : list jsstring) (avgDocLength : R) :
  In m candidates ->
  let score := calculateBM25 queryTokens (tokenize toLowerCase (content m))
                             (buildDocumentFrequencies toLowerCase candidates)
                             (length candidates) avgDocLength in
  0 <= score
  /\ (0 < score <->
      exists t, In t queryTokens /\ In t (tokenize toLowerCase (content m))).
Proof.
  intros Hm. cbv zeta. split.
  - apply calculateBM25_nonneg. intros t. apply buildDocumentFrequencies_bounds.
  - split.
    + intros Hpos.
      destruct (existsb (fun t => bool_decide (t ∈ tokenize toLowerCase (content m)))
                        queryTokens) eqn:E.
      * apply existsb_exists in E. destruct E as (t & Hq & Hd).
        apply bool_decide_eq_true_1, list_elem_of_In in Hd. now exists t.
      * rewrite calculateBM25_no_shared in Hpos; [lra |].
        intros t Hq Hd.
        assert (Hex : existsb (fun t => bool_decide (t ∈ tokenize toLowerCase (content m)))
                              queryTokens = true).
        { apply existsb_exists. exists t. split; [exact Hq |].
          apply bool_decide_eq_true_2. now apply list_elem_of_In. }
        congruence.
    + intros (t & Hq & Hd).
      now apply (calculateBM25_positive_in_corpus toLowerCase candidates m queryTokens t).
Qed.

End WithLowerCase.

(** The scores of scenario S1: memory A shares "raft" with the prompt. *)
Lemma calculateBM25_in_corpus_witness :
  0 <= calculateBM25 (tokenize asciiLower (Selector.k_prompt kernelS1))
                     (tokenize asciiLower (content memoryA))
                     (buildDocumentFrequencies asciiLower [memoryA; memoryB]) 2 3
  /\ (0 < calculateBM25 (tokenize asciiLower (Selector.k_prompt kernelS1))
                        (tokenize asciiLower (content memoryA))
                        (buildDocumentFrequencies asciiLower [memoryA; memoryB]) 2 3
      <-> exists t, In t (tokenize asciiLower (Selector.k_prompt kernelS1))
                    /\ In t (tokenize asciiLower (content memoryA))).
Proof.
  apply (calculateBM25_in_corpus asciiLower [memoryA; memoryB] memoryA). now left.
Defined.

(** *** Repeated query terms *)

Lemma uniqFrom_all_seen (l seen : list jsstring) :
  (forall t, In t l -> In t seen) -> uniqFrom seen l = [].
Proof.
  induction l as [| x rest IH]; intros Hall; cbn [uniqFrom]; [reflexivity |].
  rewrite bool_decide_eq_true_2
    by (apply list_elem_of_In, Hall; now left).
  apply IH. intros t Ht. apply Hall. now right.
Qed.

Lemma uniqFrom_app_absorbed (l extra : list jsstring) :
  forall seen,
    (forall t, In t extra -> In t l \/ In t seen) ->
    uniqFrom seen (l ++ extra) = uniqFrom seen l.
Proof.
  induction l as [| x rest IH]; intros seen Hall; cbn [app uniqFrom].
  - apply uniqFrom_all_seen. intros t Ht. destruct (Hall t Ht) as [[] | H]; exact H.
  - destruct (bool_decide (x ∈ seen)) eqn:E.
    + apply bool_decide_eq_true_1, list_elem_of_In in E.
      apply IH. intros t Ht.
      destruct (Hall t Ht) as [[<- | H] | H]; [now right | now left | now right].
    + f_equal. apply IH. intros t Ht.
      destruct (Hall t Ht) as [[<- | H] | H];
        [right; now left | now left | right; now right].
Qed.

(** X6.  Query terms count once: appending to the query tokens that
    already occur in it does not change the score. *)
Theorem calculateBM25_repeated_terms (queryTokens extra documentTokens : list jsstring)
    (df : gmap jsstring nat) (N : nat) (avg : R) :
  (forall t, In t extra -> In t queryTokens) ->
  calculateBM25 (queryTokens ++ extra) documentTokens df N avg
  = calculateBM25 queryTokens documentTokens df N avg.
Proof.
  intros Hall. destruct queryTokens as [| q qs].
  - destruct extra as [| e es]; [reflexivity |]. destruct (Hall e); now left.
  - unfold calculateBM25. cbn [app].
    destruct documentTokens as [| d ds]; [reflexivity |].
    unfold uniq. rewrite <- (uniqFrom_app_absorbed (q :: qs) extra []); [reflexivity |].
    intros t Ht. left. now apply Hall.
Qed.

Lemma calculateBM25_repeated_terms_witness :
  calculateBM25 ([raft; paxos] ++ [raft; raft]) [raft; paxos] dfSkewed 2 2
  = calculateBM25 [raft; paxos] [raft; paxos] dfSkewed 2 2.
Proof.
  apply calculateBM25_repeated_terms.
  intros t [<- | [<- | []]]; now left.
Defined.

End CorpusProps.

(** ** Tag relevance, recency and centrality *)

Module SignalProps.
Import Tokenizer SignalCalc Selector Observe Observe2.
Local Open Scope R_scope.




Section WithLowerCase.
Variable toLowerCase : jsstring -> jsstring.

Let overlaps := tagsOverlap toLowerCase.

Lemma lowered_set_elem (x : jsstring) (l : list jsstring) :
  x ∈ (list_to_set (List.map toLowerCase l) : gset jsstring)
  <-> exists y, In y l /\ toLowerCase y = x.
Proof.
  rewrite elem_of_list_to_set, list_elem_of_In, List.in_map_iff.
  split; intros (y & H1 & H2); exists y; tauto.
Qed.

Lemma matches_count (P : jsstring -> bool) (l : list jsstring) :
  forall c,
    fold_left (fun matches keyword => if P keyword then S matches else matches) l c
    = (c + length (List.filter P l))%nat.
Proof.
  induction l as [| k rest IH]; intros c; cbn [fold_left List.filter].
  - cbn. lia.
  - rewrite IH. destruct (P k); cbn [length]; lia.
Qed.

Lemma filter_nonempty_exists {A} (P : A -> bool) (l : list A) :
  (0 < length (List.filter P l))%nat <-> exists x, In x l /\ P x = true.
Proof.
  split.
  - intros Hpos. destruct (List.filter P l) as [| x rest] eqn:E; [cbn in Hpos; lia |].
    exists x. apply List.filter_In. rewrite E. now left.
  - intros (x & Hin & HP).
    assert (Hx : In x (List.filter P l)) by (apply List.filter_In; now split).
    destruct (List.filter P l); [contradiction | cbn; lia].
Qed.

Lemma calculateTagRelevance_pos (memoryTags kernelKeywords : list jsstring) :
  0 < calculateTagRelevance toLowerCase memoryTags kernelKeywords
  <-> overlaps memoryTags kernelKeywords.
Proof.
  unfold calculateTagRelevance, overlaps, tagsOverlap.
  destruct memoryTags as [| t0 ts].
  { split; [lra | intros (t & k & [] & _)]. }
  destruct kernelKeywords as [| k0 ks].
  { split; [lra | intros (t & k & _ & [] & _)]. }
  cbv zeta. rewrite matches_count. cbn [Nat.add].
  set (P := fun keyword =>
              bool_decide (toLowerCase keyword ∈
                (list_to_set (List.map toLowerCase (t0 :: ts)) : gset jsstring))).
  assert (Hlen : 0 < INR (length (k0 :: ks))) by (apply lt_0_INR; cbn; lia).
  split.
  - intros Hpos.
    assert (Hm : (0 < length (List.filter P (k0 :: ks)))%nat).
    { destruct (length (List.filter P (k0 :: ks))) eqn:E; [| lia].
      cbn [INR] in Hpos. unfold Rdiv in Hpos. rewrite Rmult_0_l in Hpos. lra. }
    apply filter_nonempty_exists in Hm. destruct Hm as (k & Hk & HP).
    apply bool_decide_eq_true_1, lowered_set_elem in HP. destruct HP as (t & Ht & Heq).
    exists t, k. auto.
  - intros (t & k & Ht & Hk & Heq).
    assert (Hm : (0 < length (List.filter P (k0 :: ks)))%nat).
    { apply filter_nonempty_exists. exists k. split; [exact Hk |].
      apply bool_decide_eq_true_2, lowered_set_elem. now exists t. }
    apply lt_0_INR in Hm. apply Rdiv_lt_0_compat; lra.
Qed.

Lemma tagFilter_overlaps (memoryTags kernelKeywords : list jsstring) :
  existsb (fun t => bool_decide (toLowerCase t ∈
             (list_to_set (List.map toLowerCase kernelKeywords) : gset jsstring)))
          memoryTags = true
  <-> overlaps memoryTags kernelKeywords.
Proof.
  unfold overlaps, tagsOverlap. rewrite existsb_exists. split.
  - intros (t & Ht & HP).
    apply bool_decide_eq_true_1, lowered_set_elem in HP. destruct HP as (k & Hk & Heq).
    exists t, k. auto.
  - intros (t & k & Ht & Hk & Heq). exists t. split; [exact Ht |].
    apply bool_decide_eq_true_2, lowered_set_elem. now exists k.
Qed.

(** X8.  The tag pre-filter of [selectMemories] and the tag-relevance
    signal agree: when the kernel has keywords and the bypass flag is off, a
    memory passes the filter exactly when its tag relevance is positive;
    otherwise every memory passes.  The filter keeps the order of the
    memories. *)
Theorem preFilter_tagRelevance (memories : list MemoryChunk) (kernel : PromptKernel)
    (bypass : bool) :
  preFilter toLowerCase memories kernel bypass
  = (if (0 <? length (k_keywords kernel))%nat && negb bypass
     then List.filter
            (fun m => if Rlt_dec 0 (calculateTagRelevance toLowerCase (tags m)
                                                          (k_keywords kernel))
                      then true else false)
            memories
     else memories)
  /\ (forall m,
        In m (preFilter toLowerCase memories kernel bypass)
        <-> In m memories
            /\ (k_keywords kernel = [] \/ bypass = true
                \/ 0 < calculateTagRelevance toLowerCase (tags m) (k_keywords kernel))).
Proof.
  assert (Heq : preFilter toLowerCase memories kernel bypass
                = (if (0 <? length (k_keywords kernel))%nat && negb bypass
                   then List.filter
                          (fun m => if Rlt_dec 0 (calculateTagRelevance toLowerCase (tags m)
                                                    (k_keywords kernel))
                                    then true else false)
                          memories
                   else memories)).
  { unfold preFilter. cbv zeta.
    destruct ((0 <? length (k_keywords kernel))%nat && negb bypass); [| reflexivity].
    apply List.filter_ext. intros m.
    destruct (Rlt_dec 0 (calculateTagRelevance toLowerCase (tags m) (k_keywords kernel)))
      as [Hpos | Hn].
    - now apply tagFilter_overlaps, calculateTagRelevance_pos.
    - destruct (existsb _ (tags m)) eqn:E; [| reflexivity].
      exfalso. apply Hn. now apply calculateTagRelevance_pos, tagFilter_overlaps. }
  split; [exact Heq |].
  intros m. rewrite Heq.
  destruct (k_keywords kernel) as [| k ks] eqn:Ek; cbn [length Nat.ltb Nat.leb andb].
  { split; [intros H; split; [exact H | now left] | tauto]. }
  destruct bypass; cbn [negb].
  { split; [intros H; split; [exact H | right; now left] | tauto]. }
  rewrite List.filter_In.
  destruct (Rlt_dec 0 (calculateTagRelevance toLowerCase (tags m) (k :: ks))) as [Hpos | Hn].
  - split; [intros [H _]; split; [exact H | right; now right] | tauto].
  - split; [intros [_ H]; discriminate |].
    intros [_ [H | [H | H]]]; [discriminate | discriminate | contradiction].
Qed.

(** X9.  Centrality is 0 for a memory without associations, does not
    decrease when associations are added, is never below the unaligned value
    min(1, degree/10), and is 1 from ten associations on. *)
Theorem calculateCentrality_degree (memory : MemoryChunk) (kernelKeywords : list jsstring) :
  let degree := match associations memory with Some a => length a | None => 0%nat end in
  (degree = 0%nat -> calculateCentrality toLowerCase memory kernelKeywords = 0)
  /\ Rmin 1 (INR degree / 10) <= calculateCentrality toLowerCase memory kernelKeywords
  /\ ((10 <= degree)%nat -> calculateCentrality toLowerCase memory kernelKeywords = 1)
  /\ (forall more,
        calculateCentrality toLowerCase memory kernelKeywords
        <= calculateCentrality toLowerCase
             (mkChunk (id memory) (content memory) (tags memory) (importance memory)
                      (timestamp memory)
                      (Some (default [] (associations memory) ++ more))
                      (episodeId memory))
             kernelKeywords).
Proof.
  cbv zeta. unfold calculateCentrality. cbv zeta. cbn [associations tags].
  set (degree := match associations memory with Some a => length a | None => 0%nat end).
  set (spin := if existsb _ (tags memory) then 1.25 else 1.0).
  assert (Hspin : 1 <= spin) by (unfold spin; destruct (existsb _ (tags memory)); lra).
  pose proof (pos_INR degree) as Hd.
  split; [| split; [| split]].
  - intros ->. cbn [INR]. rewrite Rmin_right; lra.
  - apply Rmin_glb; [apply Rmin_l |].
    apply Rle_trans with (INR degree / 10); [apply Rmin_r | nra].
  - intros Hten. apply le_INR in Hten.
    replace (INR 10) with 10 in Hten by (cbn; lra).
    apply Rmin_left. nra.
  - intros more.
    assert (Hlen : (degree <= length (default [] (associations memory) ++ more))%nat).
    { unfold degree. rewrite length_app. destruct (associations memory); cbn; lia. }
    apply le_INR in Hlen.
    apply Rmin_glb; [apply Rmin_l |].
    apply Rle_trans with (INR degree * spin / 10); [apply Rmin_r | nra].
Qed.

End WithLowerCase.
End SignalProps.

(** ** Sampling from and updating a rating *)

Module RatingProps.
Import TrueSkill TrueSkillProps Observe.
Local Open Scope R_scope.

Lemma orTiny_range (d : Draw) : 0 < orTiny d < 1.
Proof.
  unfold orTiny. destruct (draw_range d) as [H0 H1].
  destruct (Req_dec_T (draw d) 0) as [E | Hne]; lra.
Qed.

(** X10.  [thompsonSample] never takes the logarithm of 0 or the root of a
    negative number: the first uniform value is strictly between 0 and 1
    after the guard, so -2 ln(u1) is positive.  The sample differs from mu by
    at most |sigma| * sqrt(-2 ln(u1)), and equals mu when sigma is 0. *)
Theorem thompsonSample_guarded (m s : R) (d1 d2 : Draw) :
  0 < orTiny d1 < 1
  /\ 0 < -2 * ln (orTiny d1)
  /\ Rabs (thompsonSample m s d1 d2 - m) <= Rabs s * sqrt (-2 * ln (orTiny d1))
  /\ thompsonSample m 0 d1 d2 = m.
Proof.
  pose proof (orTiny_range d1) as Hu.
  assert (Hln : ln (orTiny d1) < 0).
  { rewrite <- ln_1. apply ln_increasing; lra. }
  split; [exact Hu |]. split; [lra |]. split.
  - unfold thompsonSample. cbv zeta.
    set (root := sqrt (-2 * ln (orTiny d1))).
    set (c := cos (2 * PI * orTiny d2)).
    assert (Hroot : 0 <= root) by apply sqrt_pos.
    assert (Hc : Rabs c <= 1) by (apply Rabs_le; apply COS_bound).
    replace (m + s * (root * c) - m) with (s * (root * c)) by lra.
    rewrite !Rabs_mult, (Rabs_right root) by lra.
    apply Rmult_le_compat_l; [apply Rabs_pos |].
    pose proof (Rabs_pos c) as Hc0. nra.
  - unfold thompsonSample. cbv zeta. lra.
Qed.



Lemma updateRating_error (r : MemoryRating) (reward : Reward) (now : Z) :
  rewardValue reward - mu (updateRating r reward now)
  = (1 - kalmanGain r) * (rewardValue reward - mu r).
Proof. cbn [updateRating mu]. lra. Qed.

Lemma updateRating_closer (r : MemoryRating) (reward : Reward) (now : Z) :
  Rabs (rewardValue reward - mu (updateRating r reward now))
  <= Rabs (rewardValue reward - mu r).
Proof.
  rewrite updateRating_error.
  pose proof (kalmanGain_range r) as [HK0 HK1].
  rewrite Rabs_mult, (Rabs_right (1 - kalmanGain r)) by lra.
  pose proof (Rabs_pos (rewardValue reward - mu r)). nra.
Qed.

(** X12.  An update moves the mean towards the reward and never past it:
    the distance to the reward shrinks by the factor 1 - K.  Hence any run of
    updates with one and the same reward leaves the mean at least as close
    to that reward as it was; with reward 0 a mean that is not negative stays
    so and does not grow. *)
Theorem updateRating_towards_reward (r : MemoryRating) (reward : Reward) (now : Z) :
  rewardValue reward - mu (updateRating r reward now)
  = (1 - kalmanGain r) * (rewardValue reward - mu r)
  /\ Rabs (rewardValue reward - mu (updateRating r reward now))
     <= Rabs (rewardValue reward - mu r)
  /\ (0 <= mu r -> 0 <= mu (updateRating r Neutral now) <= mu r)
  /\ (forall times : list Z,
        Rabs (rewardValue reward
              - mu (applyUpdates r (List.map (fun t => (reward, t)) times)))
        <= Rabs (rewardValue reward - mu r)).
Proof.
  split; [apply updateRating_error |]. split; [apply updateRating_closer |]. split.
  - intros Hmu. cbn [updateRating mu rewardValue].
    pose proof (kalmanGain_range r) as [HK0 HK1]. split; nra.
  - intros times. induction times as [| t rest IH] using rev_ind.
    + cbn. lra.
    + rewrite List.map_app. cbn [List.map]. rewrite applyUpdates_snoc. cbn [fst snd].
      eapply Rle_trans; [apply updateRating_closer | exact IH].
Qed.

End RatingProps.

(** ** Weighted sampling and the first pick of MMR *)

Module SamplingProps.
Import Tokenizer Diversity Observe DiversityProps.
Local Open Scope R_scope.

Lemma totalWeight_shift (w : list R) :
  forall a, fold_left (fun sum weight => sum + Rmax 0 weight) w a = a + totalWeightOf w.
Proof.
  unfold totalWeightOf.
  induction w as [| x rest IH]; intros a; cbn [fold_left]; [lra |].
  rewrite (IH (a + Rmax 0 x)), (IH (0 + Rmax 0 x)). lra.
Qed.

Lemma totalWeightOf_cons (x : R) (w : list R) :
  totalWeightOf (x :: w) = Rmax 0 x + totalWeightOf w.
Proof. unfold totalWeightOf at 1. cbn [fold_left]. rewrite totalWeight_shift. lra. Qed.


Lemma totalWeightOf_nonpositive (w : list R) :
  Forall (fun x => x <= 0) w -> totalWeightOf w = 0.
Proof.
  induction 1 as [| x rest Hx _ IH]; [reflexivity |].
  rewrite totalWeightOf_cons, IH, Rmax_left by exact Hx. lra.
Qed.

Section Sampling.
Context {T : Type}.

(** The loop moves items from the pool to the result. *)
Lemma sampleLoop_moves (rng : nat -> Draw) (k : nat) :
  forall (pool : list T) (w : list R) (j : nat),
    exists rest,
      Permutation (sampleLoop k pool w rng j ++ rest) pool
      /\ length (sampleLoop k pool w rng j) = Nat.min k (length pool).
Proof.
  induction k as [| k' IH]; intros pool w j.
  - exists pool. split; reflexivity.
  - destruct pool as [| first others]; [exists []; split; reflexivity |].
    cbn [sampleLoop]. set (pool := first :: others). cbv zeta.
    pose proof (sampleIndex_range pool w (rng j) ltac:(discriminate)) as Hidx.
    set (idx := sampleIndex pool w (rng j)) in *.
    destruct (IH (remove_at idx pool) (remove_at idx w) (S j)) as (rest & Hperm & Hlen).
    exists rest. split.
    + cbn [app].
      transitivity (nth idx pool first :: remove_at idx pool);
        [now constructor | now apply remove_at_perm].
    + cbn [length]. rewrite Hlen.
      pose proof (remove_at_length idx pool Hidx). lia.
Qed.

(** X13.  [weightedSample] draws without replacement: whatever the
    weights and the random values, the result followed by the items left in
    the pool is a rearrangement of the input, and the result has
    min(k, items.length) items. *)
Theorem weightedSample_without_replacement (items : list T) (weights : list R)
    (k : nat) (rng : nat -> Draw) :
  (exists rest, Permutation (weightedSample items weights k rng ++ rest) items)
  /\ length (weightedSample items weights k rng) = Nat.min k (length items).
Proof.
  unfold weightedSample.
  destruct (sampleLoop_moves rng k items weights 0) as (rest & Hperm & Hlen).
  split; [now exists rest | exact Hlen].
Qed.

(** X14.  When no weight is positive the index of a draw is
    floor(u * pool.length): the draw is uniform over the pool, whatever the
    weights are, and every position of the pool is the result of some value
    of u. *)
Theorem sampleIndex_uniform (pool : list T) (w : list R) :
  Forall (fun x => x <= 0) w ->
  (forall u, sampleIndex pool w u = Z.to_nat (Zfloor (draw u * INR (length pool))))
  /\ (forall i, (i < length pool)%nat -> exists u, sampleIndex pool w u = i).
Proof.
  intros Hw. pose proof (totalWeightOf_nonpositive w Hw) as Htotal.
  assert (Hidx : forall u,
             sampleIndex pool w u = Z.to_nat (Zfloor (draw u * INR (length pool)))).
  { intros u. unfold sampleIndex. cbv zeta.
    destruct (Req_dec_T (totalWeightOf w) 0) as [_ | Hne]; [reflexivity | contradiction]. }
  split; [exact Hidx |].
  intros i Hi.
  assert (Hn : 0 < INR (length pool)) by (apply lt_0_INR; lia).
  assert (Hrange : 0 <= INR i / INR (length pool) < 1).
  { pose proof (pos_INR i) as H0. apply lt_INR in Hi.
    split; [apply Rmult_le_pos; [exact H0 | left; now apply Rinv_0_lt_compat] |].
    apply (Rmult_lt_reg_r (INR (length pool))); [exact Hn |].
    unfold Rdiv. rewrite Rmult_assoc, Rinv_l by lra. lra. }
  exists (mkDraw (INR i / INR (length pool)) Hrange).
  rewrite Hidx. cbn [draw].
  replace (INR i / INR (length pool) * INR (length pool)) with (INR i)
    by (field; lra).
  rewrite INR_IZR_INZ, (Zfloor_eq (Z.of_nat i)) by lra. lia.
Qed.

End Sampling.

(** Three items with weights 0, -1 and 0, and the value 0.5. *)
Lemma sampleIndex_uniform_witness :
  sampleIndex [1%nat; 2%nat; 3%nat] [0; -1; 0] Scenario.half
  = Z.to_nat (Zfloor (draw Scenario.half * INR 3)).
Proof.
  apply (sampleIndex_uniform [1%nat; 2%nat; 3%nat] [0; -1; 0]).
  repeat constructor; lra.
Defined.




(** *** The first pick of MMR *)

Section FirstPick.
Variable toLowerCase : jsstring -> jsstring.
Context {T : Type} `{ScoredItem T}.

Lemma scanBest_first_pick (lambda : R) (rest : list T) (s0 : R) :
  0 <= lambda ->
  Forall (fun c => item_score c <= s0) rest ->
  forall i bestIdx,
    scanBest toLowerCase lambda [] rest i bestIdx (Some (lambda * s0 - (1 - lambda) * 0))
    = bestIdx.
Proof.
  intros Hl. induction 1 as [| c rest' Hc _ IH]; intros i bestIdx; cbn [scanBest];
    [reflexivity |].
  cbv zeta. unfold mmrScore at 1. cbn [maxSimilarity List.map beats].
  destruct (Rgt_dec (lambda * item_score c - (1 - lambda) * 0)
                    (lambda * s0 - (1 - lambda) * 0)) as [Hgt | _]; [nra | apply IH].
Qed.

(** X16.  For a weight lambda >= 0 the first item that [selectByMMR]
    returns is the head of the candidates sorted by descending score, a
    candidate of the highest score: nothing is selected yet, so no similarity
    is subtracted. *)
Theorem selectByMMR_first_is_best (candidates : list T) (lambda : R) (limit : nat) :
  0 <= lambda ->
  candidates <> [] ->
  exists first others sortedRest,
    selectByMMR toLowerCase candidates lambda (S limit) = first :: others
    /\ sortByScoreDesc candidates = first :: sortedRest
    /\ In first candidates
    /\ (forall c, In c candidates -> item_score c <= item_score first).
Proof.
  intros Hl Hne.
  pose proof (sortByScoreDesc_perm candidates) as Hperm.
  pose proof (sortByScoreDesc_sorted candidates) as Hsorted.
  unfold selectByMMR.
  destruct (sortByScoreDesc candidates) as [| c0 rest] eqn:Esort.
  { apply Permutation_nil in Hperm. contradiction. }
  apply StronglySorted_inv in Hsorted. destruct Hsorted as [_ Hall].
  cbn [mmrLoop scanBest beats]. cbv zeta.
  assert (Hbest : scanBest toLowerCase lambda [] rest 1 0
                           (Some (mmrScore toLowerCase lambda [] c0)) = 0%nat)
    by (apply (scanBest_first_pick lambda rest (item_score c0) Hl Hall)).
  rewrite !Hbest. cbn [nth remove_at app].
  destruct (mmrLoop_moves toLowerCase lambda limit [c0] rest)
    as (picked & left & Hrun & _ & _).
  exists c0, picked, rest. rewrite Hrun. split; [reflexivity |]. split; [reflexivity |].
  split.
  - apply (Permutation_in _ Hperm). now left.
  - intros c Hc. apply (Permutation_in _ (Permutation_sym Hperm)) in Hc.
    destruct Hc as [<- | Hc]; [lra |].
    rewrite List.Forall_forall in Hall. exact (Hall c Hc).
Qed.

End FirstPick.

Import Selector Scenario.

(** The three items of scores 0.5, 0.9 and 0.9 with lambda = 0.7. *)
Lemma selectByMMR_first_is_best_witness :
  exists first others sortedRest,
    selectByMMR asciiLower [itemA; itemB; itemC] 0.7 1 = first :: others
    /\ sortByScoreDesc [itemA; itemB; itemC] = first :: sortedRest
    /\ In first [itemA; itemB; itemC]
    /\ (forall c, In c [itemA; itemB; itemC] -> item_score c <= item_score first).
Proof.
  apply (selectByMMR_first_is_best asciiLower [itemA; itemB; itemC] 0.7 0%nat).
  - lra.
  - discriminate.
Defined.

End SamplingProps.

(** ** What [selectMemories] returns *)

Module SelectionMore.
Import Tokenizer BM25 SignalCalc TrueSkill Diversity Selector Observe Observe2 Scenario.
Import DiversityProps SamplingProps SelectionProps SignalProps.
Local Open Scope R_scope.

Section WithLowerCase.
Variable toLowerCase : jsstring -> jsstring.

Lemma selectByMMR_moves (candidates : list Scored) (lambda : R) (limit : nat) :
  exists rest,
    Permutation (selectByMMR toLowerCase candidates lambda limit ++ rest) candidates
    /\ length (selectByMMR toLowerCase candidates lambda limit)
       = Nat.min limit (length candidates).
Proof.
  unfold selectByMMR.
  destruct (mmrLoop_moves toLowerCase lambda limit [] (sortByScoreDesc candidates))
    as (picked & rest & Hrun & Hperm & Hlen).
  pose proof (sortByScoreDesc_perm candidates) as Hsort.
  rewrite Hrun. cbn [app]. exists rest. split.
  - now transitivity (sortByScoreDesc candidates).
  - rewrite Hlen. now rewrite (Permutation_length Hsort).
Qed.

Lemma scoreAll_memories (kernel : PromptKernel) (ratings : JSMap MemoryRating)
    (queryTokens : list jsstring) (df : gmap jsstring nat) (totalDocs : nat)
    (avgDocLength : R) (rng : nat -> Draw) (clock : nat -> Z)
    (candidates : list MemoryChunk) :
  forall i,
    List.map sc_memory
             (scoreAll toLowerCase kernel ratings queryTokens df totalDocs avgDocLength
                       rng clock i candidates)
    = candidates.
Proof.
  induction candidates as [| m rest IH]; intros i; cbn [scoreAll List.map]; [reflexivity |].
  rewrite IH. reflexivity.
Qed.

Lemma preFilter_nil (kernel : PromptKernel) (bypass : bool) :
  preFilter toLowerCase [] kernel bypass = [].
Proof.
  unfold preFilter. cbv zeta.
  now destruct ((0 <? length (k_keywords kernel))%nat && negb bypass).
Qed.

(** X17.  [selectMemories] returns min(limit, c) memories, where c is the
    number of memories that pass the tag pre-filter, and returns no candidate
    more often than the candidate set holds it: the identifiers returned,
    followed by those of the candidates left out, are a rearrangement of the
    candidates' identifiers. *)
Theorem selectMemories_size (memories : list MemoryChunk) (kernel : PromptKernel)
    (ratings : JSMap MemoryRating) (limit : nat) (options : SelectionOptions)
    (rng : nat -> Draw) (clock : nat -> Z) :
  let candidates :=
    preFilter toLowerCase memories kernel (default false (bypassTagFilter options)) in
  let selected := selectMemories toLowerCase memories kernel ratings limit options rng clock in
  length selected = Nat.min limit (length candidates)
  /\ (length selected <= limit)%nat
  /\ exists leftOut,
       Permutation (List.map sel_memoryId selected ++ List.map id leftOut)
                   (List.map id candidates).
Proof.
  cbv zeta. unfold selectMemories.
  destruct memories as [| m0 ms].
  { rewrite preFilter_nil. cbn. split; [lia |]. split; [lia |]. now exists []. }
  set (memories := m0 :: ms). cbv zeta.
  set (candidates := preFilter toLowerCase memories kernel
                               (default false (bypassTagFilter options))).
  destruct candidates as [| c0 cs] eqn:Ecand.
  { cbn. split; [lia |]. split; [lia |]. now exists []. }
  rewrite <- Ecand. clear Ecand.
  set (scored := scoredOf toLowerCase candidates kernel ratings
                          (default [] (queryTerms options)) rng clock).
  assert (Hmem : List.map sc_memory scored = candidates)
    by (unfold scored, scoredOf; cbv zeta; apply scoreAll_memories).
  assert (Hlen : length scored = length candidates)
    by (rewrite <- Hmem; now rewrite List.length_map).
  set (rng' := fun j => rng (2 * length candidates + j)%nat).
  destruct (sampleLoop_moves rng' (Nat.min (limit * 3) (length scored)) scored
              (List.map sc_score scored) 0) as (rest1 & Hp1 & Hl1).
  fold (weightedSample scored (List.map sc_score scored)
                       (Nat.min (limit * 3) (length scored)) rng') in Hp1, Hl1.
  set (oversampled := weightedSample scored (List.map sc_score scored)
                                     (Nat.min (limit * 3) (length scored)) rng') in *.
  destruct (selectByMMR_moves oversampled 0.7 limit) as (rest2 & Hp2 & Hl2).
  set (diverse := selectByMMR toLowerCase oversampled 0.7 limit) in *.
  rewrite List.length_map.
  assert (Hsize : length diverse = Nat.min limit (length candidates)) by lia.
  split; [exact Hsize |]. split; [lia |].
  exists (List.map sc_memory (rest2 ++ rest1)).
  rewrite <- Hmem, !List.map_map.
  change (fun x => sel_memoryId (toSelected x)) with (fun x => id (sc_memory x)).
  rewrite <- List.map_app. apply Permutation_map.
  rewrite app_assoc.
  transitivity (oversampled ++ rest1); [now apply Permutation_app_tail | exact Hp1].
Qed.

(** X18.  When the kernel has keywords, the bypass flag is not set and no
    memory has a tag that equals a keyword up to case, [selectMemories]
    returns the empty array. *)
Theorem selectMemories_no_overlap (memories : list MemoryChunk) (kernel : PromptKernel)
    (ratings : JSMap MemoryRating) (limit : nat) (options : SelectionOptions)
    (rng : nat -> Draw) (clock : nat -> Z) :
  k_keywords kernel <> [] ->
  bypassTagFilter options <> Some true ->
  (forall m, In m memories ->
             ~ tagsOverlap toLowerCase (tags m) (k_keywords kernel)) ->
  selectMemories toLowerCase memories kernel ratings limit options rng clock = [].
Proof.
  intros Hkw Hbypass Hnone.
  assert (Hflag : default false (bypassTagFilter options) = false)
    by (destruct (bypassTagFilter options) as [[|] |]; [contradiction | |]; reflexivity).
  assert (Hcand : preFilter toLowerCase memories kernel false = []).
  { unfold preFilter. cbv zeta.
    assert (Hlen : (0 <? length (k_keywords kernel))%nat = true)
      by (destruct (k_keywords kernel); [contradiction | reflexivity]).
    rewrite Hlen. cbn [negb andb].
    destruct (List.filter _ memories) as [| m rest] eqn:E; [reflexivity |].
    assert (Hin : In m (m :: rest)) by now left.
    rewrite <- E in Hin. apply List.filter_In in Hin. destruct Hin as [Hm Hpass].
    apply tagFilter_overlaps in Hpass. destruct (Hnone m Hm Hpass). }
  unfold selectMemories. destruct memories as [| m0 ms]; [reflexivity |].
  cbv zeta. rewrite Hflag, Hcand. reflexivity.
Qed.

End WithLowerCase.

(** Scenario S2 with memory A left out: the only memory is tagged
    "cooking" and the kernel asks for "systems". *)
Lemma selectMemories_no_overlap_witness :
  selectMemories asciiLower [memoryCooking] kernelS1 [] 20 noOptions rngHalf clockZero = [].
Proof.
  apply selectMemories_no_overlap.
  - discriminate.
  - discriminate.
  - intros m [<- | []] (t & k & [<- | []] & [<- | []] & Heq).
    vm_compute in Heq. discriminate.
Defined.

End SelectionMore.

(** ** The learning loop on the stored tables *)

Module StorageProps.
Import TrueSkill Learning Observe Observe2.
Import LearningProps.

(** What a call of [applyFeedback] on an initialised storage does, in terms
    of the loop: the table loaded is well keyed, and the backend returned
    holds the values of the table after the loop and the last 1000 entries of
    the log after the loop. *)
Lemma applyFeedback_run (backend : Backend) (pid kid cid : jsstring)
    (rewards : list (jsstring * Reward)) (oracle : nat -> Oracle) :
  exists ratings,
    loadRatings (Some backend) pid = Returned ratings
    /\ wellKeyed ratings
    /\ let st := feedbackLoop kid cid oracle 0 rewards (ratings, logStored backend pid) in
       let backend' :=
         {| ratingsTable := <[pid := Json (mapValues st.1)]> (ratingsTable backend);
            interactionsTable :=
              <[pid := Json (slice_last 1000 st.2)]> (interactionsTable backend) |} in
       applyFeedback (Some backend) pid kid cid rewards oracle = Returned backend'
       /\ loadRatings (Some backend') pid = Returned st.1.
Proof.
  destruct (loadRatings_wellKeyed backend pid) as (ratings & Hload & Hwk).
  exists ratings. split; [exact Hload |]. split; [exact Hwk |]. cbv zeta.
  pose proof (loadInteractions_total backend pid) as Hints.
  pose proof (feedbackLoop_wellKeyed kid cid oracle rewards 0 ratings
                (logStored backend pid) Hwk) as Hwk'.
  destruct (feedbackLoop kid cid oracle 0 rewards (ratings, logStored backend pid))
    as [ratings' ints'] eqn:Hloop.
  cbn [fst snd] in *. split.
  - unfold applyFeedback. rewrite Hload, Hints. cbn [mbind Outcome_bind bind].
    rewrite Hloop. reflexivity.
  - destruct (load_after_save backend pid ratings' Hwk') as (saved & Hsave & Hreload & _).
    cbn in Hsave. injection Hsave as <-. exact Hreload.
Qed.

Lemma feedbackLoop_rating (kid cid : jsstring) (oracle : nat -> Oracle)
    (rewards : list (jsstring * Reward)) (m : jsstring) :
  forall i ratings ints,
    mapGet (makeRatingKey m kid) (feedbackLoop kid cid oracle i rewards (ratings, ints)).1
    = ratedAs (mapGet (makeRatingKey m kid) ratings) m kid
              (o_initAt (oracle (firstAt m i rewards))) (eventsFor m oracle i rewards).
Proof.
  induction rewards as [| [m' reward] rest IH]; intros i ratings ints.
  - reflexivity.
  - cbn [feedbackLoop feedbackStep eventsFor firstAt]. rewrite IH.
    destruct (bool_decide (m' = m)) eqn:E.
    + apply bool_decide_eq_true_1 in E. subst m'.
      rewrite mapGet_set_eq. cbn [app]. unfold ratedAs.
      destruct (eventsFor m oracle (S i) rest); reflexivity.
    + apply bool_decide_eq_false_1 in E.
      rewrite mapGet_set_ne; [reflexivity |].
      intros Heq. apply E. exact (makeRatingKey_inj_l _ _ _ Heq).
Qed.

Lemma eventsFor_length (m : jsstring) (oracle : nat -> Oracle)
    (rewards : list (jsstring * Reward)) :
  forall i, length (eventsFor m oracle i rewards) = occurrences m (List.map fst rewards).
Proof.
  unfold occurrences.
  induction rewards as [| [m' reward] rest IH]; intros i; [reflexivity |].
  cbn [eventsFor List.map fst List.filter]. rewrite length_app, IH.
  now destruct (bool_decide (m' = m)).
Qed.

Lemma find_snoc {A} (f : A -> bool) (l : list A) (x : A) :
  find f (l ++ [x])
  = match find f l with
    | Some y => Some y
    | None => if f x then Some x else None
    end.
Proof.
  induction l as [| h t IH]; cbn; [reflexivity |].
  destruct (f h); [reflexivity | exact IH].
Qed.

Lemma rebuild_last_wins (key : jsstring) (array : list MemoryRating) :
  forall acc,
    mapGet key (rebuild acc array)
    = match find (fun r => bool_decide (keyOf r = key)) (rev array) with
      | Some r => Some r
      | None => mapGet key acc
      end.
Proof.
  induction array as [| r rest IH]; intros acc; [reflexivity |].
  change (rebuild acc (r :: rest)) with (rebuild (mapSet (keyOf r) r acc) rest).
  cbn [rev]. rewrite IH, find_snoc.
  destruct (find _ (rev rest)); [reflexivity |].
  destruct (bool_decide (keyOf r = key)) eqn:E.
  - apply bool_decide_eq_true_1 in E. subst key. apply mapGet_set_eq.
  - apply bool_decide_eq_false_1 in E. now apply mapGet_set_ne.
Qed.

(** X19.  Saving a rating table whose entries sit under the keys of their
    own identifiers, each key once, and loading it again gives the same
    table, entry for entry and in the same order; the save touches neither
    the interaction logs nor the ratings of another profile. *)
Theorem saveRatings_round_trip (backend : Backend) (pid : jsstring)
    (ratings : JSMap MemoryRating) :
  wellKeyed ratings ->
  exists saved,
    saveRatings (Some backend) pid ratings = Returned saved
    /\ loadRatings (Some saved) pid = Returned ratings
    /\ interactionsTable saved = interactionsTable backend
    /\ (forall other, other <> pid ->
          ratingsTable saved !! other = ratingsTable backend !! other).
Proof.
  intros Hwk.
  destruct (load_after_save backend pid ratings Hwk) as (saved & Hsave & Hreload & Hints).
  exists saved. split; [exact Hsave |]. split; [exact Hreload |]. split; [exact Hints |].
  intros other Hne. cbn in Hsave. injection Hsave as <-. cbn [ratingsTable].
  now rewrite lookup_insert_ne.
Qed.

Lemma saveRatings_round_trip_witness :
  let p := lit "profile" in
  let r := initializeRating (lit "m1") (lit "thread-1") 0 in
  exists saved,
    saveRatings (Some (mkBackend ∅ ∅)) p [(keyOf r, r)] = Returned saved
    /\ loadRatings (Some saved) p = Returned [(keyOf r, r)].
Proof.
  cbv zeta.
  destruct (saveRatings_round_trip (mkBackend ∅ ∅) (lit "profile")
              [(keyOf (initializeRating (lit "m1") (lit "thread-1") 0),
                initializeRating (lit "m1") (lit "thread-1") 0)])
    as (saved & Hsave & Hreload & _).
  - split; [repeat constructor | apply NoDup_singleton].
  - exists saved. split; assumption.
Defined.

(** X20.  [loadRatings] on an initialised storage always returns, and the
    table it returns has every rating under the key of its own identifiers
    and no key twice.  When the stored array holds several ratings for one
    key the last of them is the one in the table; a key that no stored rating
    has is absent; a missing or unreadable payload gives the empty table. *)
Theorem loadRatings_last_wins (backend : Backend) (pid : jsstring) :
  exists ratings,
    loadRatings (Some backend) pid = Returned ratings
    /\ wellKeyed ratings
    /\ (forall array key,
          ratingsTable backend !! pid = Some (Json array) ->
          mapGet key ratings
          = find (fun r => bool_decide (keyOf r = key)) (rev array))
    /\ (ratingsTable backend !! pid = Some Corrupt \/ ratingsTable backend !! pid = None ->
        ratings = []).
Proof.
  destruct (loadRatings_wellKeyed backend pid) as (ratings & Hload & Hwk).
  exists ratings. split; [exact Hload |]. split; [exact Hwk |].
  unfold loadRatings in Hload. split.
  - intros array key Hstored. rewrite Hstored in Hload. injection Hload as <-.
    change (fold_left _ array []) with (rebuild [] array).
    rewrite rebuild_last_wins. now destruct (find _ (rev array)).
  - intros [Hstored | Hstored]; rewrite Hstored in Hload; now injection Hload as <-.
Qed.

(** X21.  [applyFeedback] for one profile changes nothing that is stored
    for another profile: neither its ratings nor its interaction log. *)
Theorem applyFeedback_other_profiles (backend : Backend) (pid kid cid : jsstring)
    (rewards : list (jsstring * Reward)) (oracle : nat -> Oracle) :
  exists backend',
    applyFeedback (Some backend) pid kid cid rewards oracle = Returned backend'
    /\ forall other, other <> pid ->
         ratingsTable backend' !! other = ratingsTable backend !! other
         /\ interactionsTable backend' !! other = interactionsTable backend !! other
         /\ loadRatings (Some backend') other = loadRatings (Some backend) other
         /\ logStored backend' other = logStored backend other.
Proof.
  destruct (applyFeedback_run backend pid kid cid rewards oracle)
    as (ratings & _ & _ & Hrun & _).
  cbv zeta in Hrun. eexists. split; [exact Hrun |].
  intros other Hne.
  assert (Hr : forall b1 b2,
             ratingsTable b1 !! other = ratingsTable b2 !! other ->
             loadRatings (Some b1) other = loadRatings (Some b2) other)
    by (intros b1 b2 H; unfold loadRatings; now rewrite H).
  assert (Hi : forall b1 b2,
             interactionsTable b1 !! other = interactionsTable b2 !! other ->
             logStored b1 other = logStored b2 other)
    by (intros b1 b2 H; unfold logStored, loadInteractions; now rewrite H).
  assert (H1 : forall (x : Stored MemoryRating),
             <[pid := x]> (ratingsTable backend) !! other = ratingsTable backend !! other)
    by (intros x; now rewrite lookup_insert_ne).
  assert (H2 : forall (x : Stored MemoryInteraction),
             <[pid := x]> (interactionsTable backend) !! other
             = interactionsTable backend !! other)
    by (intros x; now rewrite lookup_insert_ne).
  split; [apply H1 |]. split; [apply H2 |]. split; [apply Hr, H1 | apply Hi, H2].
Qed.

(** X22.  After [applyFeedback] the rating stored for a pair (memory,
    kernel) is the one stored before, or a fresh rating when none was stored,
    to which [updateRating] has been applied once for every entry of
    [rewards] that names the memory, in the order of the entries and with the
    reward of each; the rating of a memory that no entry names is the one
    stored before. *)
Theorem applyFeedback_rating (backend : Backend) (pid kid cid : jsstring)
    (rewards : list (jsstring * Reward)) (oracle : nat -> Oracle) :
  exists backend',
    applyFeedback (Some backend) pid kid cid rewards oracle = Returned backend'
    /\ (forall m,
          ratingStored backend' pid (makeRatingKey m kid)
          = ratedAs (ratingStored backend pid (makeRatingKey m kid)) m kid
                    (o_initAt (oracle (firstAt m 0 rewards)))
                    (eventsFor m oracle 0 rewards))
    /\ (forall m,
          length (eventsFor m oracle 0 rewards) = occurrences m (List.map fst rewards))
    /\ (forall m,
          ~ In m (List.map fst rewards) ->
          ratingStored backend' pid (makeRatingKey m kid)
          = ratingStored backend pid (makeRatingKey m kid)).
Proof.
  destruct (applyFeedback_run backend pid kid cid rewards oracle)
    as (ratings & Hload & _ & Hrun & Hreload).
  cbv zeta in Hrun, Hreload. eexists. split; [exact Hrun |].
  assert (Hrated : forall m,
             ratingStored
               {| ratingsTable :=
                    <[pid := Json (mapValues
                        (feedbackLoop kid cid oracle 0 rewards
                                      (ratings, logStored backend pid)).1)]>
                      (ratingsTable backend);
                  interactionsTable :=
                    <[pid := Json (slice_last 1000
                        (feedbackLoop kid cid oracle 0 rewards
                                      (ratings, logStored backend pid)).2)]>
                      (interactionsTable backend) |}
               pid (makeRatingKey m kid)
             = ratedAs (ratingStored backend pid (makeRatingKey m kid)) m kid
                       (o_initAt (oracle (firstAt m 0 rewards)))
                       (eventsFor m oracle 0 rewards)).
  { intros m. unfold ratingStored. rewrite Hreload, Hload. apply feedbackLoop_rating. }
  assert (Hcount : forall m,
             length (eventsFor m oracle 0 rewards) = occurrences m (List.map fst rewards)).
  { intros m. apply eventsFor_length. }
  split; [exact Hrated |]. split; [exact Hcount |].
  intros m Hnot. rewrite Hrated.
  assert (Hnone : eventsFor m oracle 0 rewards = []).
  { apply length_zero_iff_nil. rewrite Hcount. unfold occurrences.
    destruct (List.filter _ (List.map fst rewards)) as [| x rest] eqn:E; [reflexivity |].
    assert (Hin : In x (x :: rest)) by now left.
    rewrite <- E in Hin. apply List.filter_In in Hin. destruct Hin as [Hx Hm].
    apply bool_decide_eq_true_1 in Hm. subst x. contradiction. }
  now rewrite Hnone.
Qed.


(** X24.  [applyFeedback] counts every entry, whatever its reward: the
    [uses] counter of a rating grows by the number of entries that name its
    memory, the counters of the other ratings stay, and one interaction per
    entry is appended to the log in the order of the entries, of which the
    save keeps the last 1000.  On a storage that was never set the call
    throws 'Storage not initialized'. *)
Theorem applyFeedback_counts (backend : Backend) (pid kid cid : jsstring)
    (rewards : list (jsstring * Reward)) (oracle : nat -> Oracle) :
  applyFeedback None pid kid cid rewards oracle = Thrown NOT_INITIALIZED
  /\ exists backend',
      applyFeedback (Some backend) pid kid cid rewards oracle = Returned backend'
      /\ logStored backend' pid
         = slice_last 1000 (logStored backend pid ++ logged kid cid oracle 0 rewards)
      /\ List.map (fun x => (i_memoryId x, i_reward x)) (logged kid cid oracle 0 rewards)
         = rewards
      /\ (forall m,
            usesStored backend' pid (makeRatingKey m kid)
            = (usesStored backend pid (makeRatingKey m kid)
               + Z.of_nat (occurrences m (List.map fst rewards)))%Z)
      /\ (forall key,
            (forall m, In m (List.map fst rewards) -> key <> makeRatingKey m kid) ->
            usesStored backend' pid key = usesStored backend pid key).
Proof.
  split; [reflexivity |].
  destruct (applyFeedback_effect backend pid kid cid rewards oracle)
    as (backend' & Hrun & Hlog & Huses & Hother).
  exists backend'. split; [exact Hrun |]. split; [exact Hlog |].
  split; [| split; [exact Huses | exact Hother]].
  clear. generalize 0%nat.
  induction rewards as [| [m reward] rest IH]; intros i; cbn [logged List.map].
  - reflexivity.
  - now rewrite IH.
Qed.

(** X25.  Calls of [applyFeedback] for one profile, one after the other,
    starting from a log of at most 1000 interactions: every call returns, and
    the log stored at the end is the last 1000 of the log at the start
    followed by the records of all the calls in order. *)
Theorem feedbackSequence_keeps_last_1000 (backend : Backend) (pid : jsstring)
    (calls : list FeedbackCall) :
  (length (logStored backend pid) <= 1000)%nat ->
  exists backend',
    feedbackSequence backend pid calls = Returned backend'
    /\ logStored backend' pid = slice_last 1000 (logStored backend pid ++ loggedBy calls)
    /\ (length (logStored backend' pid) <= 1000)%nat.
Proof.
  intros Hlen.
  destruct (feedbackSequence_log pid calls backend Hlen) as (backend' & Hseq & Hlog).
  exists backend'. split; [exact Hseq |]. split; [exact Hlog |].
  rewrite Hlog, slice_last_length. lia.
Qed.

Lemma feedbackSequence_keeps_last_1000_witness :
  let p := lit "profile" in
  let call := mkCall (lit "thread-1") (lit "turn-1") [(lit "m1", Negative)]
                     (fun _ => mkOracle (lit "uuid") 0 0 0) in
  exists backend',
    feedbackSequence (mkBackend ∅ ∅) p [call; call] = Returned backend'
    /\ List.map (fun x => (i_memoryId x, i_reward x)) (logStored backend' p)
       = [(lit "m1", Negative); (lit "m1", Negative)].
Proof.
  cbv zeta.
  destruct (feedbackSequence_keeps_last_1000 (mkBackend ∅ ∅) (lit "profile")
              [mkCall (lit "thread-1") (lit "turn-1") [(lit "m1", Negative)]
                      (fun _ => mkOracle (lit "uuid") 0 0 0);
               mkCall (lit "thread-1") (lit "turn-1") [(lit "m1", Negative)]
                      (fun _ => mkOracle (lit "uuid") 0 0 0)])
    as (backend' & Hseq & Hlog & _).
  - apply Nat.leb_le. vm_compute. reflexivity.
  - exists backend'. split; [exact Hseq |]. rewrite Hlog. vm_compute. reflexivity.
Defined.

End StorageProps.

(** ** The composite score as a function of its inputs *)

Module UtilityProps.
Import Tokenizer SignalCalc Selector Scenario.
Local Open Scope R_scope.

Lemma mappedThompson_monotone (t1 t2 : R) :
  t1 <= t2 -> mappedThompson t1 <= mappedThompson t2.
Proof.
  intros Hle. unfold mappedThompson, Rmax, Rmin.
  repeat destruct Rle_dec; lra.
Qed.

Lemma lexical_monotone (b1 b2 : R) :
  b1 <= b2 ->
  (if Rlt_dec 0 b1 then ln (1 + b1) / 5 else 0)
  <= (if Rlt_dec 0 b2 then ln (1 + b2) / 5 else 0).
Proof.
  intros Hle.
  assert (Hpos : forall b, 0 < b -> 0 < ln (1 + b)).
  { intros b Hb. rewrite <- ln_1. apply ln_increasing; lra. }
  destruct (Rlt_dec 0 b1) as [H1 | H1], (Rlt_dec 0 b2) as [H2 | H2]; try lra.
  - destruct (Req_dec b1 b2) as [-> | Hne]; [lra |].
    assert (ln (1 + b1) < ln (1 + b2)) by (apply ln_increasing; lra). lra.
  - specialize (Hpos b2 H2). lra.
Qed.

(** X26.  [normalizeImportance] maps the scale 1..10 linearly onto 0..1:
    it is 0 at 1 and below, 1 at 10 and above, (importance - 1) / 9 in
    between, and it never decreases when the importance grows. *)
Theorem normalizeImportance_scale :
  (forall a, a <= 1 -> normalizeImportance a = 0)
  /\ (forall a, 10 <= a -> normalizeImportance a = 1)
  /\ (forall a, 1 <= a <= 10 -> normalizeImportance a = (a - 1) / 9)
  /\ (forall a b, a <= b -> normalizeImportance a <= normalizeImportance b).
Proof.
  unfold normalizeImportance, Rmax, Rmin.
  split; [| split; [| split]]; intros; repeat destruct Rle_dec; lra.
Qed.

Section WithLowerCase.
Variable toLowerCase : jsstring -> jsstring.

(** X27.  For one memory, one kernel and one instant, the composite score
    of [calculateUtility] does not decrease when the BM25 score or the
    Thompson sample grows, and these two inputs reach only the signals
    [lexicalScore] and [thompson]: the other four signals are the same. *)
Theorem calculateUtility_monotone (memory : MemoryChunk) (kernel : PromptKernel)
    (bm1 bm2 th1 th2 : R) (now : Z) :
  bm1 <= bm2 -> th1 <= th2 ->
  let low := calculateUtility toLowerCase memory kernel bm1 th1 now in
  let high := calculateUtility toLowerCase memory kernel bm2 th2 now in
  low.1 <= high.1
  /\ s_lexicalScore low.2 <= s_lexicalScore high.2
  /\ s_importance low.2 = s_importance high.2
  /\ s_tagRelevance low.2 = s_tagRelevance high.2
  /\ s_recency low.2 = s_recency high.2
  /\ s_centrality low.2 = s_centrality high.2.
Proof.
  intros Hbm Hth. cbv zeta. unfold calculateUtility. cbn [fst snd s_lexicalScore
    s_importance s_tagRelevance s_recency s_centrality].
  pose proof (lexical_monotone bm1 bm2 Hbm) as Hlex.
  pose proof (mappedThompson_monotone th1 th2 Hth) as Hmap.
  split; [| split; [exact Hlex | repeat split]].
  unfold W_IMPORTANCE, W_TAG_RELEVANCE, W_LEXICAL, W_RECENCY, W_CENTRALITY, W_THOMPSON.
  set (l1 := if Rlt_dec 0 bm1 then _ else _) in *.
  set (l2 := if Rlt_dec 0 bm2 then _ else _) in *.
  lra.
Qed.

End WithLowerCase.

Lemma calculateUtility_monotone_witness :
  (calculateUtility asciiLower memoryA kernelS1 0 (-1) 0).1
  <= (calculateUtility asciiLower memoryA kernelS1 2 1 0).1.
Proof.
  apply (calculateUtility_monotone asciiLower memoryA kernelS1 0 2 (-1) 1 0); lra.
Defined.

End UtilityProps.
